(** * PageRank: a shallow embedding of [pagerank.py]

    The engine of [pagerank.py] is embedded function by function:
    [transition_model], [sample_pagerank], [iterate_pagerank] and
    [pagerank_formula].

    Modelling choices.
    - A Python [dict] is an association list in insertion order with
      distinct keys; [d[k] = v] overwrites in place or appends.
    - A Python [set] of pages is the list of its elements in iteration
      order, without repetition.  [well_formed] checks that a list is a
      dict of sets in this sense.
    - A Python [float] is idealised as an exact rational of [Q]; rounding
      is not modelled, and equality of ranks is [Qeq].
    - Exceptions are values of [exn]; a computation returns [res A].
    - The [while] loop of [iterate_pagerank] runs on fuel; that it ends
      is a theorem ([iterate_pagerank_terminates]).
    - The generator behind [random] is a tape of raw draws and a cursor.
    - Module [Store] embeds the same functions a second time, over a heap
      in which the corpus, the reverse index and every set are objects
      reached by reference; it is proved to compute what the first
      embedding computes and serves the claims on mutation and on
      determinism. *)

From Stdlib Require Import String List ZArith QArith Qabs Qminmax Qround.
From Stdlib Require Import Lia Lqa Bool Permutation.
Import ListNotations.
Local Open Scope Q_scope.

(** ** Exceptions and the error monad *)

Inductive exn : Type :=
| KeyError
| ZeroDivisionError
| ValueError
| IndexError
| TypeError.

Inductive res (A : Type) : Type :=
| Ok (a : A)
| Raise (e : exn).
Arguments Ok {A} a.
Arguments Raise {A} e.

Definition bind {A B : Type} (m : res A) (k : A -> res B) : res B :=
  match m with
  | Ok a => k a
  | Raise e => Raise e
  end.

Notation "x <- m ;; k" := (bind m (fun x => k))
  (at level 61, m at next level, right associativity).
Notation "' pat <- m ;; k" := (bind m (fun x => match x with pat => k end))
  (at level 61, pat pattern, m at next level, right associativity).

(** [for x in xs: s = body x s], stopping at the first exception. *)
Fixpoint for_each {A S : Type} (xs : list A) (body : A -> S -> res S) (s : S)
  : res S :=
  match xs with
  | [] => Ok s
  | x :: xs' => s' <- body x s ;; for_each xs' body s'
  end.

(** ** Pages, sets and dictionaries *)

Abbreviation page := string (only parsing).

(** A set of pages, in iteration order. *)
Abbreviation pyset := (list page) (only parsing).

Definition set_mem (x : page) (s : pyset) : bool :=
  existsb (String.eqb x) s.

(** [s.add(x)] *)
Definition set_add (x : page) (s : pyset) : pyset :=
  if set_mem x s then s else s ++ [x].

Section Dict.
Context {V : Type}.

Definition dict : Type := list (page * V).

Fixpoint get (k : page) (d : dict) : option V :=
  match d with
  | [] => None
  | (k', v) :: d' => if String.eqb k k' then Some v else get k d'
  end.

(** [k in d] *)
Definition contains (k : page) (d : dict) : bool :=
  match get k d with Some _ => true | None => false end.

(** [d[k]], which raises [KeyError] on a missing key. *)
Definition getitem (k : page) (d : dict) : res V :=
  match get k d with Some v => Ok v | None => Raise KeyError end.

(** [d[k] = v] *)
Fixpoint set_item (k : page) (v : V) (d : dict) : dict :=
  match d with
  | [] => [(k, v)]
  | (k', v') :: d' =>
      if String.eqb k k' then (k', v) :: d' else (k', v') :: set_item k v d'
  end.

Definition keys (d : dict) : list page := map fst d.
Definition values (d : dict) : list V := map snd d.
End Dict.
Arguments dict V : clear implicits.

(** The corpus: every page mapped to the set of pages it links to. *)
Abbreviation corpus := (dict pyset) (only parsing).

(** ** Arithmetic on floats, idealised *)

(** [float(len(x))] *)
Definition float_of_nat (n : nat) : Q := inject_Z (Z.of_nat n).

(** [a / b] on floats, which raises [ZeroDivisionError] when [b] is zero. *)
Definition fdiv (a b : Q) : res Q :=
  if Qeq_bool b 0 then Raise ZeroDivisionError else Ok (a / b).

(** [max(a, b)]: Python returns [b] only when [b > a]. *)
Definition pymax (a b : Q) : Q := if Qle_bool b a then a else b.

(** [sum(xs)], accumulating from the left from 0. *)
Definition pysum (xs : list Q) : Q := fold_left Qplus xs 0.

(** ** [transition_model] *)

Definition init_if_absent (k : page) (output : dict Q) : dict Q :=
  if contains k output then output else set_item k 0 output.

(** The first loop of [transition_model]: every key and every link target
    gets probability 0. *)
Definition all_pages (c : corpus) : dict Q :=
  fold_left
    (fun output (item : page * pyset) =>
       fold_left (fun output link => init_if_absent link output)
         (snd item) (init_if_absent (fst item) output))
    c [].

(** [output[link] += average] *)
Definition add_at (average : Q) (link : page) (output : dict Q)
  : res (dict Q) :=
  v <- getitem link output ;;
  Ok (set_item link (v + average) output).

Definition transition_model (c : corpus) (p : page) (damping_factor : Q)
  : res (dict Q) :=
  let output := all_pages c in
  links <- getitem p c ;;
  output <-
    (if negb (Nat.eqb (length links) 0) then
       average <- fdiv damping_factor (float_of_nat (length links)) ;;
       for_each links (add_at average) output
     else
       average <- fdiv damping_factor (float_of_nat (length output)) ;;
       for_each (keys output) (add_at average) output) ;;
  average <- fdiv (1 - damping_factor) (float_of_nat (length output)) ;;
  for_each (keys output) (add_at average) output.

(** ** The random source

    [random.randint] and [random.choices] are library calls.  The generator
    is a tape of raw draws read at a cursor; each call consumes one draw. *)

Record rng : Type := mkRng { tape : nat -> N; cursor : nat }.

Definition next_raw (g : rng) : N * rng :=
  (tape g (cursor g), mkRng (tape g) (S (cursor g))).

(** [random.randint(a, b)]: an integer of [a..b], [ValueError] on an empty
    range. *)
Definition randint (a b : Z) (g : rng) : res (Z * rng) :=
  if (b <? a)%Z then Raise ValueError
  else let (raw, g') := next_raw g in
       Ok ((a + Z.of_N raw mod (b - a + 1))%Z, g').

(** [random.random()]: a multiple of 2^-53 in [0, 1). *)
Definition random (g : rng) : Q * rng :=
  let (raw, g') := next_raw g in
  (Z.of_N (raw mod 2 ^ 53) # 2 ^ 53, g').

(** [itertools.accumulate(weights)] *)
Fixpoint accumulate_from (acc : Q) (weights : list Q) : list Q :=
  match weights with
  | [] => []
  | w :: ws => (acc + w) :: accumulate_from (acc + w) ws
  end.

Definition accumulate (weights : list Q) : list Q :=
  match weights with
  | [] => []
  | w :: ws => w :: accumulate_from w ws
  end.

(** [bisect.bisect(a, x, 0, hi)] on an ascending list: the index of the
    first of the [hi] leading elements that exceeds [x], else [hi]. *)
Fixpoint bisect (a : list Q) (x : Q) (hi : nat) : nat :=
  match hi, a with
  | S hi', y :: a' => if Qle_bool y x then S (bisect a' x hi') else O
  | _, _ => O
  end.

(** [l[i]] with Python's negative indices. *)
Definition list_index {A : Type} (l : list A) (i : Z) : res A :=
  let j := if (i <? 0)%Z then (i + Z.of_nat (length l))%Z else i in
  if (j <? 0)%Z then Raise IndexError
  else match nth_error l (Z.to_nat j) with
       | Some a => Ok a
       | None => Raise IndexError
       end.

(** [random.choices(population, weights)[0]] *)
Definition choices (population : list page) (weights : list Q) (g : rng)
  : res (page * rng) :=
  let cum_weights := accumulate weights in
  if negb (Nat.eqb (length cum_weights) (length population)) then
    Raise ValueError
  else
    total <- list_index cum_weights (-1) ;;
    if Qle_bool total 0 then Raise ValueError
    else
      let (u, g') := random g in
      chosen <- list_index population
                  (Z.of_nat (bisect cum_weights (u * total)
                               (length population - 1))) ;;
      Ok (chosen, g').

(** ** [sample_pagerank] *)

(** The loop [for i in range(n-1)], run [k] more times. *)
Fixpoint sample_loop (k : nat) (c : corpus) (damping_factor : Q)
    (samples : list page) (prob_distri : dict Q) (g : rng)
  : res (list page * rng) :=
  match k with
  | O => Ok (samples, g)
  | S k' =>
      '(p, g') <- choices (keys prob_distri) (values prob_distri) g ;;
      prob_distri' <- transition_model c p damping_factor ;;
      sample_loop k' c damping_factor (samples ++ [p]) prob_distri' g'
  end.

(** Lines 96 to 108: the sample sequence. *)
Definition sample_sequence (c : corpus) (damping_factor : Q) (n : Z) (g : rng)
  : res (list page * rng) :=
  '(r, g1) <- randint 0 (Z.of_nat (length c) - 1) g ;;
  p <- list_index (keys c) r ;;
  let samples := [p] in
  prob_distri <- transition_model c p damping_factor ;;
  sample_loop (Z.to_nat (n - 1)) c damping_factor samples prob_distri g1.

(** [samples.count(name)] *)
Definition count (samples : list page) (name : page) : nat :=
  count_occ string_dec samples name.

Definition sample_pagerank (c : corpus) (damping_factor : Q) (n : Z) (g : rng)
  : res (dict Q * rng) :=
  '(samples, g') <- sample_sequence c damping_factor n g ;;
  output <- for_each (keys c)
              (fun name output =>
                 v <- fdiv (float_of_nat (count samples name)) (inject_Z n) ;;
                 Ok (set_item name v output))
              [] ;;
  Ok (output, g').

(** ** [iterate_pagerank] and [pagerank_formula] *)

Definition pagerank_formula (c : corpus) (p : page) (d : Q)
    (ranks : dict Q) (reverse : dict pyset) : res Q :=
  rank <- fdiv (1 - d) (float_of_nat (length c)) ;;
  sources <- getitem p reverse ;;
  ind_rank <- for_each sources
                (fun link ind_rank =>
                   r <- getitem link ranks ;;
                   links <- getitem link c ;;
                   q <- fdiv r (float_of_nat (length links)) ;;
                   Ok (ind_rank + q))
                0 ;;
  Ok (rank + d * ind_rank).

(** Lines 129 to 130. *)
Definition initial_ranks (c : corpus) : res (dict Q) :=
  for_each (keys c)
    (fun link ranks =>
       v <- fdiv 1 (float_of_nat (length c)) ;;
       Ok (set_item link v ranks))
    [].

(** Lines 133 to 139: the reverse index. *)
Definition reverse_corpus (c : corpus) : res (dict pyset) :=
  let reverse := fold_left (fun reverse p => set_item p [] reverse) (keys c) [] in
  for_each c
    (fun (item : page * pyset) reverse =>
       for_each (snd item)
         (fun i reverse =>
            s <- getitem i reverse ;;
            if negb (set_mem (fst item) s)
            then Ok (set_item i (set_add (fst item) s) reverse)
            else Ok reverse)
         reverse)
    reverse.

(** The threshold of the loop. *)
Definition threshold : Q := 1 # 1000.

(** Lines 143 to 145: the new rank of every page, from the ranks of the
    previous pass. *)
Definition formula_pass (c : corpus) (d : Q) (reverse : dict pyset)
    (ranks : dict Q) : res (dict Q) :=
  for_each (keys ranks)
    (fun p new_rank =>
       v <- pagerank_formula c p d ranks reverse ;;
       Ok (set_item p v new_rank))
    [].

(** Lines 148 to 152: normalisation. *)
Definition normalise (new_rank : dict Q) : res (dict Q) :=
  let sum_rank := pysum (values new_rank) in
  dif <- fdiv 1 sum_rank ;;
  for_each (keys new_rank)
    (fun link new_rank =>
       v <- getitem link new_rank ;;
       Ok (set_item link (v * dif) new_rank))
    new_rank.

(** Lines 155 to 157: the largest change of a page. *)
Definition max_change (ranks new_rank : dict Q) : res Q :=
  for_each (keys ranks)
    (fun p max_val =>
       a <- getitem p new_rank ;;
       b <- getitem p ranks ;;
       Ok (pymax max_val (Qabs (a - b))))
    0.

(** One pass through the body of the [while] loop: the normalised new
    ranks and [max_val]. *)
Definition iteration (c : corpus) (d : Q) (reverse : dict pyset)
    (ranks : dict Q) : res (dict Q * Q) :=
  new_rank <- formula_pass c d reverse ranks ;;
  new_rank <- normalise new_rank ;;
  max_val <- max_change ranks new_rank ;;
  Ok (new_rank, max_val).

(** The [while] loop on fuel; [None] when the fuel runs out.  The loop is
    entered with [max_val = 1.000], so its body always runs once. *)
Fixpoint iterate_loop (fuel : nat) (c : corpus) (d : Q)
    (reverse : dict pyset) (ranks : dict Q) : option (res (dict Q)) :=
  match fuel with
  | O => None
  | S fuel' =>
      match iteration c d reverse ranks with
      | Raise e => Some (Raise e)
      | Ok (new_rank, max_val) =>
          if Qle_bool max_val threshold then Some (Ok new_rank)
          else iterate_loop fuel' c d reverse new_rank
      end
  end.

Definition iterate_pagerank (c : corpus) (damping_factor : Q) (fuel : nat)
  : option (res (dict Q)) :=
  match initial_ranks c with
  | Raise e => Some (Raise e)
  | Ok ranks =>
      match reverse_corpus c with
      | Raise e => Some (Raise e)
      | Ok reverse => iterate_loop fuel c damping_factor reverse ranks
      end
  end.

(** ** Well-formed inputs, as decidable checks *)

(** No repetition: what a [set], or the keys of a [dict], guarantee. *)
Fixpoint distinct (l : list page) : bool :=
  match l with
  | [] => true
  | x :: l' => negb (set_mem x l') && distinct l'
  end.

(** The list really is a dict of sets. *)
Definition well_formed (c : corpus) : bool :=
  distinct (keys c) && forallb (fun item => distinct (snd item)) c.

(** Every out-neighbour is a key. *)
Definition self_contained (c : corpus) : bool :=
  forallb (fun item => forallb (fun link => contains link c) (snd item)) c.

Definition nonempty (c : corpus) : bool := negb (Nat.eqb (length c) 0).

(** ** Auxiliary definitions for the proofs *)

Definition bump (average : Q) (links : pyset) (kv : page * Q) : page * Q :=
  (fst kv, if set_mem (fst kv) links then snd kv + average else snd kv).

(** A page appears in the corpus as a key or as an out-neighbour. *)
Definition appears (c : corpus) (q : page) : Prop :=
  In q (keys c) \/ exists item, In item c /\ In q (snd item).

Definition zeroed (output : dict Q) : Prop :=
  forall kv, In kv output -> snd kv = 0.

Definition init_links (links : pyset) (output : dict Q) : dict Q :=
  fold_left (fun output link => init_if_absent link output) links output.

Fixpoint sumQ (l : list Q) : Q :=
  match l with
  | [] => 0
  | x :: l' => x + sumQ l'
  end.

(** The value the code leaves at page [q]. *)
Definition model_value (c : corpus) (links : pyset) (d : Q) (q : page) : Q :=
  let size := float_of_nat (length (all_pages c)) in
  (if negb (Nat.eqb (length links) 0)
   then if set_mem q links then 0 + d / float_of_nat (length links) else 0
   else 0 + d / size)
  + (1 - d) / size.

(** What the sampler needs of a distribution: it is over pages of the
    corpus, has at least one page, and its weights total 1. *)
Definition usable (c : corpus) (prob_distri : dict Q) : Prop :=
  prob_distri <> []
  /\ (forall q, In q (keys prob_distri) -> In q (keys c))
  /\ sumQ (values prob_distri) == 1.

(** ** The transition model as the specification words it

    Every page that is a key or an out-neighbour starts at 0; the
    out-neighbours of [p] each receive [d / |out-neighbours|], or, when [p]
    has none, every page receives [d / |distribution|]; then every page
    receives [(1 - d) / |distribution|]. *)

Definition spec_pages (c : corpus) : list page :=
  nodup string_dec (keys c ++ concat (values c)).

Definition out_neighbors (c : corpus) (p : page) : pyset :=
  match get p c with Some links => links | None => [] end.

Definition spec_transition (c : corpus) (p : page) (d : Q) (q : page) : Q :=
  let size := float_of_nat (length (spec_pages c)) in
  let step1 := 0 in
  let step2 :=
    match out_neighbors c p with
    | [] => step1 + d / size
    | _ :: _ =>
        if set_mem q (out_neighbors c p)
        then step1 + d / float_of_nat (length (out_neighbors c p))
        else step1
    end in
  step2 + (1 - d) / size.

(** ** The iterative solver as the specification words it

    Ranks start at [1/N].  A pass computes, from the previous ranks only,
    [(1-d)/N + d * sum of rank(q)/out-degree(q)] over the pages [q] that
    link to [p], then divides every new rank by the sum of the new ranks.
    The loop stops when the largest absolute change of a page is at most
    0.001, and the normalised ranks of that pass are the result. *)

Definition pages_linking_to (c : corpus) (p : page) : list page :=
  filter (fun q => set_mem p (out_neighbors c q)) (keys c).

Definition out_degree (c : corpus) (q : page) : Q :=
  float_of_nat (length (out_neighbors c q)).

Definition spec_formula (c : corpus) (d : Q) (rank : page -> Q) (p : page)
  : Q :=
  (1 - d) / float_of_nat (length c)
  + d * sumQ (map (fun q => rank q / out_degree c q) (pages_linking_to c p)).

Definition spec_step (c : corpus) (d : Q) (rank : page -> Q) (p : page) : Q :=
  spec_formula c d rank p / sumQ (map (spec_formula c d rank) (keys c)).

Definition spec_max_change (c : corpus) (old new : page -> Q) : Q :=
  fold_right (fun p m => Qmax (Qabs (new p - old p)) m) 0 (keys c).

Fixpoint spec_loop (fuel : nat) (c : corpus) (d : Q) (rank : page -> Q)
  : option (page -> Q) :=
  match fuel with
  | O => None
  | S fuel' =>
      let new := spec_step c d rank in
      if Qle_bool (spec_max_change c rank new) threshold then Some new
      else spec_loop fuel' c d new
  end.

Definition spec_iterate (c : corpus) (d : Q) (fuel : nat)
  : option (page -> Q) :=
  spec_loop fuel c d (fun _ => 1 / float_of_nat (length c)).

(** The rank a dict holds for a page, 0 when the page is missing. *)
Definition rank_of (ranks : dict Q) (p : page) : Q :=
  match get p ranks with Some v => v | None => 0 end.

(** What holds of the reverse index while it is built: [seen key i] says
    that the link from [key] to [i] has been recorded. *)
Definition reverse_inv (c : corpus) (seen : page -> page -> Prop)
    (reverse : dict pyset) : Prop :=
  keys reverse = keys c
  /\ forall i, In i (keys c) ->
       exists s, get i reverse = Some s /\ NoDup s
                 /\ forall key, In key s <-> seen key i.

(** ** Example corpora *)

Definition ex_c : corpus :=
  [("a", ["b"; "c"]); ("b", []); ("c", ["a"])]%string.

(** A generator whose draws spread over the range. *)
Definition ex_rng : rng :=
  mkRng (fun i => (N.of_nat (3 * i + 1) * 2 ^ 51 + 1)%N) 0.


(** What holds of the ranks whenever the body of the loop starts: one
    positive rank per page of the corpus. *)
Definition positive_ranks (c : corpus) (ranks : dict Q) : Prop :=
  keys ranks = keys c /\ forall p, In p (keys c) -> 0 < rank_of ranks p.

(** The ranks with which the body of the loop is entered: the initial
    ranks, and the new ranks of every pass that did not converge. *)
Inductive reached (c : corpus) (d : Q) (reverse : dict pyset)
  : dict Q -> Prop :=
| reached_first ranks :
    initial_ranks c = Ok ranks -> reached c d reverse ranks
| reached_next ranks new_rank max_val :
    reached c d reverse ranks ->
    iteration c d reverse ranks = Ok (new_rank, max_val) ->
    Qle_bool max_val threshold = false ->
    reached c d reverse new_rank.

(** Two pages linking to each other. *)
Definition ex_pair : corpus := [("a", ["b"]); ("b", ["a"])]%string.

(** * The same functions over a store of shared objects

    Python passes the corpus by reference: the dict and each of its sets
    are objects that a callee could mutate.  In this second embedding the
    corpus dict, the reverse index and every set are objects of a heap,
    reached through references; [reverse[page] = set()] allocates,
    [reverse[i].add(key)] writes through the reference it finds.  The
    dicts of floats and the sample list are created by the functions and
    never stored in another object; they stay values.  The generator is
    part of the world. *)

Module Store.

Abbreviation ref := nat (only parsing).

Inductive obj : Type :=
| SetObj (elems : list page)
| DictObj (entries : dict ref).

Record world : Type := mkWorld { objects : list obj; gen : rng }.

(** State and exceptions: the world survives an exception. *)
Definition M (A : Type) : Type := world -> res A * world.

Definition ret {A : Type} (a : A) : M A := fun w => (Ok a, w).

Definition lift {A : Type} (r : res A) : M A := fun w => (r, w).

Definition bindM {A B : Type} (m : M A) (k : A -> M B) : M B :=
  fun w =>
    match m w with
    | (Ok a, w') => k a w'
    | (Raise e, w') => (Raise e, w')
    end.

Notation "x <~ m ;; k" := (bindM m (fun x => k))
  (at level 61, m at next level, right associativity).

Fixpoint for_eachM {A S : Type} (xs : list A) (body : A -> S -> M S) (s : S)
  : M S :=
  match xs with
  | [] => ret s
  | x :: xs' => s' <~ body x s ;; for_eachM xs' body s'
  end.

(** *** The heap *)

Fixpoint update (r : ref) (o : obj) (h : list obj) : list obj :=
  match h, r with
  | [], _ => []
  | _ :: h', O => o :: h'
  | o' :: h', S r' => o' :: update r' o h'
  end.

(** A new object, at the next free address. *)
Definition alloc (o : obj) : M ref :=
  fun w => (Ok (length (objects w)), mkWorld (objects w ++ [o]) (gen w)).

Definition store (r : ref) (o : obj) : M unit :=
  fun w => (Ok tt, mkWorld (update r o (objects w)) (gen w)).

(** Reading through a reference; a reference to an object of the other
    kind is a [TypeError], which a well-typed store never raises. *)
Definition load_set (r : ref) : M pyset :=
  fun w =>
    match nth_error (objects w) r with
    | Some (SetObj s) => (Ok s, w)
    | _ => (Raise TypeError, w)
    end.

Definition load_dict (r : ref) : M (dict ref) :=
  fun w =>
    match nth_error (objects w) r with
    | Some (DictObj entries) => (Ok entries, w)
    | _ => (Raise TypeError, w)
    end.

(** [d[k]] for a dict of sets: the reference to the set. *)
Definition dict_getitem (d : ref) (k : page) : M ref :=
  entries <~ load_dict d ;; lift (getitem k entries).

(** [d[k] = v] *)
Definition dict_setitem (d : ref) (k : page) (v : ref) : M unit :=
  entries <~ load_dict d ;; store d (DictObj (set_item k v entries)).

(** [s.add(x)] *)
Definition set_add_obj (s : ref) (x : page) : M unit :=
  elems <~ load_set s ;; store s (SetObj (set_add x elems)).

(** The corpus a reference denotes: the dict with its sets read out. *)
Fixpoint read_entries (h : list obj) (entries : dict ref)
  : option (dict pyset) :=
  match entries with
  | [] => Some []
  | (k, r) :: entries' =>
      match nth_error h r, read_entries h entries' with
      | Some (SetObj s), Some d => Some ((k, s) :: d)
      | _, _ => None
      end
  end.

Definition read_corpus (h : list obj) (c : ref) : option (dict pyset) :=
  match nth_error h c with
  | Some (DictObj entries) => read_entries h entries
  | _ => None
  end.

(** *** The random source *)

Definition randint (a b : Z) : M Z :=
  fun w =>
    match randint a b (gen w) with
    | Ok (r, g') => (Ok r, mkWorld (objects w) g')
    | Raise e => (Raise e, w)
    end.

Definition choices (population : list page) (weights : list Q) : M page :=
  fun w =>
    match choices population weights (gen w) with
    | Ok (p, g') => (Ok p, mkWorld (objects w) g')
    | Raise e => (Raise e, w)
    end.

(** *** [transition_model] *)

Definition transition_model (corpus : ref) (p : page) (damping_factor : Q)
  : M (dict Q) :=
  items <~ load_dict corpus ;;
  output <~ for_eachM items
              (fun (item : page * ref) output =>
                 pages <~ load_set (snd item) ;;
                 ret (fold_left (fun output link => init_if_absent link output)
                        pages (init_if_absent (fst item) output)))
              [] ;;
  links_ref <~ dict_getitem corpus p ;;
  links <~ load_set links_ref ;;
  output <~ lift
    (if negb (Nat.eqb (length links) 0) then
       average <- fdiv damping_factor (float_of_nat (length links)) ;;
       for_each links (add_at average) output
     else
       average <- fdiv damping_factor (float_of_nat (length output)) ;;
       for_each (keys output) (add_at average) output) ;;
  lift (average <- fdiv (1 - damping_factor) (float_of_nat (length output)) ;;
        for_each (keys output) (add_at average) output).

(** *** [sample_pagerank] *)

Fixpoint sample_loop (k : nat) (corpus : ref) (damping_factor : Q)
    (samples : list page) (prob_distri : dict Q) : M (list page) :=
  match k with
  | O => ret samples
  | S k' =>
      p <~ choices (keys prob_distri) (values prob_distri) ;;
      prob_distri' <~ transition_model corpus p damping_factor ;;
      sample_loop k' corpus damping_factor (samples ++ [p]) prob_distri'
  end.

Definition sample_pagerank (corpus : ref) (damping_factor : Q) (n : Z)
  : M (dict Q) :=
  items <~ load_dict corpus ;;
  r <~ randint 0 (Z.of_nat (length items) - 1) ;;
  p <~ lift (list_index (keys items) r) ;;
  let samples := [p] in
  prob_distri <~ transition_model corpus p damping_factor ;;
  samples <~ sample_loop (Z.to_nat (n - 1)) corpus damping_factor
               samples prob_distri ;;
  names <~ load_dict corpus ;;
  lift (for_each (keys names)
          (fun name output =>
             v <- fdiv (float_of_nat (count samples name)) (inject_Z n) ;;
             Ok (set_item name v output))
          []).

(** *** [pagerank_formula] and [iterate_pagerank] *)

Definition pagerank_formula (corpus : ref) (p : page) (d : Q)
    (ranks : dict Q) (reverse : ref) : M Q :=
  items <~ load_dict corpus ;;
  rank <~ lift (fdiv (1 - d) (float_of_nat (length items))) ;;
  sources_ref <~ dict_getitem reverse p ;;
  sources <~ load_set sources_ref ;;
  ind_rank <~ for_eachM sources
                (fun link ind_rank =>
                   r <~ lift (getitem link ranks) ;;
                   links_ref <~ dict_getitem corpus link ;;
                   links <~ load_set links_ref ;;
                   q <~ lift (fdiv r (float_of_nat (length links))) ;;
                   ret (ind_rank + q))
                0 ;;
  ret (rank + d * ind_rank).

Definition initial_ranks (corpus : ref) : M (dict Q) :=
  items <~ load_dict corpus ;;
  for_eachM (keys items)
    (fun link ranks =>
       items <~ load_dict corpus ;;
       v <~ lift (fdiv 1 (float_of_nat (length items))) ;;
       ret (set_item link v ranks))
    [].

Definition reverse_corpus (corpus : ref) : M ref :=
  reverse <~ alloc (DictObj []) ;;
  items <~ load_dict corpus ;;
  _ <~ for_eachM (keys items)
         (fun p (_ : unit) =>
            s <~ alloc (SetObj []) ;;
            dict_setitem reverse p s)
         tt ;;
  items <~ load_dict corpus ;;
  _ <~ for_eachM items
         (fun (item : page * ref) (_ : unit) =>
            li <~ load_set (snd item) ;;
            for_eachM li
              (fun i (_ : unit) =>
                 s <~ dict_getitem reverse i ;;
                 elems <~ load_set s ;;
                 if negb (set_mem (fst item) elems)
                 then set_add_obj s (fst item)
                 else ret tt)
              tt)
         tt ;;
  ret reverse.

Definition formula_pass (corpus : ref) (d : Q) (reverse : ref)
    (ranks : dict Q) : M (dict Q) :=
  for_eachM (keys ranks)
    (fun p new_rank =>
       v <~ pagerank_formula corpus p d ranks reverse ;;
       ret (set_item p v new_rank))
    [].

Definition iteration (corpus : ref) (d : Q) (reverse : ref)
    (ranks : dict Q) : M (dict Q * Q) :=
  new_rank <~ formula_pass corpus d reverse ranks ;;
  new_rank <~ lift (normalise new_rank) ;;
  max_val <~ lift (max_change ranks new_rank) ;;
  ret (new_rank, max_val).

Fixpoint iterate_loop (fuel : nat) (corpus : ref) (d : Q) (reverse : ref)
    (ranks : dict Q) (w : world) : option (res (dict Q) * world) :=
  match fuel with
  | O => None
  | S fuel' =>
      match iteration corpus d reverse ranks w with
      | (Raise e, w') => Some (Raise e, w')
      | (Ok (new_rank, max_val), w') =>
          if Qle_bool max_val threshold then Some (Ok new_rank, w')
          else iterate_loop fuel' corpus d reverse new_rank w'
      end
  end.

Definition iterate_pagerank (corpus : ref) (damping_factor : Q)
    (fuel : nat) (w : world) : option (res (dict Q) * world) :=
  match initial_ranks corpus w with
  | (Raise e, w1) => Some (Raise e, w1)
  | (Ok ranks, w1) =>
      match reverse_corpus corpus w1 with
      | (Raise e, w2) => Some (Raise e, w2)
      | (Ok reverse, w2) =>
          iterate_loop fuel corpus damping_factor reverse ranks w2
      end
  end.

(** The example corpus [ex_pair] as objects, with the dict at address 2. *)
Definition ex_world : world :=
  mkWorld [SetObj ["b"]; SetObj ["a"];
           DictObj [("a", 0%nat); ("b", 1%nat)]]%string
          ex_rng.

End Store.

(** A dict of references denotes a dict of sets in a heap. *)
Definition rep (h : list Store.obj) (entries : dict Store.ref)
    (d : dict pyset) : Prop :=
  Forall2 (fun e kv => fst e = fst kv
                       /\ nth_error h (snd e) = Some (Store.SetObj (snd kv)))
    entries d.

(** The result of a sampler run, without the generator. *)
Definition result_of {A B : Type} (r : res (A * B)) : res A :=
  match r with
  | Ok (a, _) => Ok a
  | Raise e => Raise e
  end.

(** What holds of the reverse index in the store while it is built: its
    dict and its sets were allocated after the [n0] objects the call
    found, and no two entries share a set. *)
Definition reverse_rep (n0 : nat) (h : list Store.obj) (R : nat)
    (rv : dict pyset) : Prop :=
  exists entries,
    nth_error h R = Some (Store.DictObj entries)
    /\ rep h entries rv
    /\ NoDup (map snd entries)
    /\ (n0 <= R)%nat
    /\ Forall (fun e : page * nat => (n0 <= snd e)%nat /\ snd e <> R) entries.

(** ** Convergence of the solver *)

(** The sum of the formula: [rank(q)/out-degree(q)] over the pages that
    link to [p]. *)
Definition link_share (c : corpus) (rank : page -> Q) (p : page) : Q :=
  sumQ (map (fun q => rank q / out_degree c q) (pages_linking_to c p)).

(** Ranks that are positive and total 1. *)
Definition good (c : corpus) (rank : page -> Q) : Prop :=
  (forall p, In p (keys c) -> 0 < rank p)
  /\ sumQ (map rank (keys c)) == 1.

(** The ratios [new p / old p] of all pages lie in an interval
    [[m, kappa * m]]. *)
Definition within (c : corpus) (old new : page -> Q) (kappa : Q) : Prop :=
  exists m, 0 < m
    /\ forall p, In p (keys c) ->
         m * old p <= new p /\ new p <= kappa * m * old p.

(** The share of the uniform jump in every new rank: [(1-d)/N]. *)
Definition jump_share (c : corpus) (d : Q) : Q :=
  (1 - d) / float_of_nat (length c).

Fixpoint qpow (q : Q) (n : nat) : Q :=
  match n with
  | O => 1
  | S n' => q * qpow q n'
  end.

(** * Further definitions: dangling pages, the corpus loader, the command line *)

From Stdlib Require Import Ascii Sorted.


(** ** [crawl]

    The file system and the regular expression are library calls:
    [os.listdir(directory)] is [listdir], which gives the names in the
    directory or fails; [open(os.path.join(directory, filename)).read()]
    is [read_file]; [re.findall] with the pattern of the source is
    [findall], which gives the link targets found in a text. *)

(** [s.endswith(suffix)] *)
Definition endswith (s suffix : string) : bool :=
  Nat.leb (String.length suffix) (String.length s)
  && String.eqb
       (substring (String.length s - String.length suffix)
          (String.length suffix) s)
       suffix.

Definition is_html (filename : string) : bool := endswith filename ".html".

(** [set(links)]: the distinct elements. *)
Definition set_of_list (links : list page) : pyset :=
  fold_left (fun s x => set_add x s) links [].

(** [s - {x}] *)
Definition set_remove (x : page) (s : pyset) : pyset :=
  filter (fun y => negb (String.eqb y x)) s.

(** How a call of the loader or of [main] ends. *)
Inductive outcome (A : Type) : Type :=
| Returns (a : A)
| Fails (e : exn)
| IOFails.
Arguments Returns {A} a.
Arguments Fails {A} e.
Arguments IOFails {A}.

Section Loader.
Variable listdir : string -> option (list string).
Variable read_file : string -> string -> option string.
Variable findall : string -> list string.

(** Lines 33 to 39: the links of every HTML file, less the file itself. *)
Fixpoint extract_links (directory : string) (names : list string)
    (pages : corpus) : option corpus :=
  match names with
  | [] => Some pages
  | filename :: names' =>
      if negb (is_html filename) then extract_links directory names' pages
      else
        match read_file directory filename with
        | None => None
        | Some contents =>
            let links := findall contents in
            extract_links directory names'
              (set_item filename (set_remove filename (set_of_list links))
                 pages)
        end
  end.

(** Lines 42 to 46: only the links to pages of the corpus are kept. *)
Definition keep_known (pages : corpus) : res corpus :=
  for_each (keys pages)
    (fun filename pages =>
       links <- getitem filename pages ;;
       Ok (set_item filename
             (filter (fun link => contains link pages) links) pages))
    pages.

Definition crawl (directory : string) : outcome corpus :=
  match listdir directory with
  | None => IOFails
  | Some names =>
      match extract_links directory names [] with
      | None => IOFails
      | Some pages =>
          match keep_known pages with
          | Ok pages => Returns pages
          | Raise e => Fails e
          end
      end
  end.

(** The links [crawl] extracts from one file. *)
Definition links_of (directory filename : string) : pyset :=
  match read_file directory filename with
  | Some contents => set_remove filename (set_of_list (findall contents))
  | None => []
  end.

(** Every HTML file of the listing can be read. *)
Definition readable (directory : string) (names : list string) : bool :=
  forallb
    (fun f => negb (is_html f)
              || match read_file directory f with
                 | Some _ => true
                 | None => false
                 end)
    names.

(** ** [main] *)

Definition DAMPING : Q := 85 # 100.
Definition SAMPLES : Z := 10000.

(** The format [:.4f] of a float is a library call. *)
Variable format4 : Q -> string.

(** How the program ends, after the lines it printed. *)
Inductive ending : Type :=
| Normal
| SysExit (message : string)
| Uncaught (e : exn)
| UncaughtIO
| OutOfFuel.

(** [sorted(ranks)] on the keys of a dict, which are distinct. *)
Fixpoint insert_sorted (x : string) (l : list string) : list string :=
  match l with
  | [] => [x]
  | y :: l' => if String.leb x y then x :: l else y :: insert_sorted x l'
  end.

Definition sorted (l : list string) : list string :=
  fold_right insert_sorted [] l.

(** [print(f"  {page}: {ranks[page]:.4f}")] *)
Definition rank_line (page : string) (v : Q) : string :=
  ("  " ++ page ++ ": " ++ format4 v)%string.

(** The loops [for page in sorted(ranks): print(...)]. *)
Fixpoint print_ranks (pages : list page) (ranks : dict Q)
    (stdout : list string) : list string * res unit :=
  match pages with
  | [] => (stdout, Ok tt)
  | p :: pages' =>
      match getitem p ranks with
      | Raise e => (stdout, Raise e)
      | Ok v => print_ranks pages' ranks (stdout ++ [rank_line p v])
      end
  end.

(** [main], from [sys.argv] to the lines printed and the way it ends. *)
Definition main (argv : list string) (g : rng) (fuel : nat)
  : list string * ending :=
  if negb (Nat.eqb (length argv) 2) then
    ([], SysExit "Usage: python pagerank.py corpus")
  else
    match crawl (nth 1 argv ""%string) with
    | IOFails => ([], UncaughtIO)
    | Fails e => ([], Uncaught e)
    | Returns c =>
        match sample_pagerank c DAMPING SAMPLES g with
        | Raise e => ([], Uncaught e)
        | Ok (ranks, _) =>
            let stdout := ["PageRank Results from Sampling (n = 10000)"%string] in
            match print_ranks (sorted (keys ranks)) ranks stdout with
            | (stdout, Raise e) => (stdout, Uncaught e)
            | (stdout, Ok _) =>
                match iterate_pagerank c DAMPING fuel with
                | None => (stdout, OutOfFuel)
                | Some (Raise e) => (stdout, Uncaught e)
                | Some (Ok ranks) =>
                    let stdout :=
                      stdout ++ ["PageRank Results from Iteration"%string] in
                    match print_ranks (sorted (keys ranks)) ranks stdout with
                    | (stdout, Raise e) => (stdout, Uncaught e)
                    | (stdout, Ok _) => (stdout, Normal)
                    end
                end
            end
        end
    end.
End Loader.

(** ** An example directory *)

(** The words of a text, separated by spaces: a stand-in for the links
    found in it. *)
Fixpoint words_from (word : string) (text : string) : list string :=
  match text with
  | EmptyString => match word with EmptyString => [] | _ => [word] end
  | String ch text' =>
      if Ascii.eqb ch " "%char then
        match word with
        | EmptyString => words_from EmptyString text'
        | _ => word :: words_from EmptyString text'
        end
      else words_from (word ++ String ch EmptyString)%string text'
  end.

Definition ex_findall (contents : string) : list string :=
  words_from EmptyString contents.

Definition ex_listdir (directory : string) : option (list string) :=
  if String.eqb directory "corpus0" then
    Some ["1.html"; "notes.txt"; "2.html"; "3.html"]%string
  else if String.eqb directory "empty" then Some ["notes.txt"%string]
  else None.

Definition ex_read_file (directory filename : string) : option string :=
  if String.eqb filename "1.html" then Some "2.html 1.html x.html 2.html"%string
  else if String.eqb filename "2.html" then Some "3.html 1.html"%string
  else if String.eqb filename "3.html" then Some "notes.txt"%string
  else None.

Definition ex_format4 (v : Q) : string := "0.0000"%string.

(** * Properties *)

(** ** Sets and dictionaries *)

Lemma set_mem_In x s : set_mem x s = true <-> In x s.
Proof.
  unfold set_mem. rewrite existsb_exists. split.
  - intros (y & Hy & E). apply String.eqb_eq in E. now subst.
  - intros H. exists x. split; [assumption | apply String.eqb_refl].
Qed.

Lemma set_mem_false x s : set_mem x s = false <-> ~ In x s.
Proof.
  rewrite <- set_mem_In. destruct (set_mem x s); split; congruence.
Qed.

Lemma distinct_NoDup l : distinct l = true <-> NoDup l.
Proof.
  induction l as [|x l IH]; simpl.
  - split; [constructor | reflexivity].
  - rewrite andb_true_iff, negb_true_iff, set_mem_false, IH. split.
    + intros [H1 H2]. now constructor.
    + intros H. inversion H; subst. now split.
Qed.

Section DictFacts.
Context {V : Type}.
Implicit Types (d : dict V) (k : page) (v : V).

Lemma get_None k d : get k d = None <-> ~ In k (keys d).
Proof.
  induction d as [|[k' v'] d IH]; simpl.
  - tauto.
  - destruct (String.eqb_spec k k') as [->|N].
    + split; [discriminate | intros H; exfalso; apply H; now left].
    + rewrite IH. split; intros H; [intros [E|I]; [congruence | tauto] | tauto].
Qed.

Lemma get_Some_In k v d : get k d = Some v -> In (k, v) d.
Proof.
  induction d as [|[k' v'] d IH]; simpl; [discriminate|].
  destruct (String.eqb_spec k k') as [->|N].
  - intros [= ->]. now left.
  - intros H. right. now apply IH.
Qed.

Lemma In_get k v d : NoDup (keys d) -> In (k, v) d -> get k d = Some v.
Proof.
  induction d as [|[k' v'] d IH]; simpl; [tauto|].
  intros ND [E|I].
  - inversion E; subst. now rewrite String.eqb_refl.
  - inversion ND; subst. destruct (String.eqb_spec k k') as [->|N].
    + exfalso. apply H1. change k' with (fst (k', v)). now apply in_map.
    + now apply IH.
Qed.

Lemma In_keys_get k d : In k (keys d) -> exists v, get k d = Some v.
Proof.
  intros H. destruct (get k d) eqn:E; [eauto|].
  apply get_None in E. contradiction.
Qed.

Lemma get_In_keys k v d : get k d = Some v -> In k (keys d).
Proof.
  intros H. apply get_Some_In in H. change k with (fst (k, v)).
  now apply in_map.
Qed.

Lemma contains_In k d : contains k d = true <-> In k (keys d).
Proof.
  unfold contains. destruct (get k d) eqn:E.
  - split; [intros _; eapply get_In_keys; eauto | reflexivity].
  - apply get_None in E. split; [discriminate | contradiction].
Qed.

Lemma get_set_item k k' v d :
  get k' (set_item k v d) = if String.eqb k' k then Some v else get k' d.
Proof.
  induction d as [|[k0 v0] d IH]; simpl.
  - reflexivity.
  - destruct (String.eqb_spec k k0) as [->|N]; simpl.
    + destruct (String.eqb_spec k' k0); reflexivity.
    + rewrite IH. destruct (String.eqb_spec k' k0) as [->|N'];
        [|reflexivity].
      destruct (String.eqb_spec k0 k); [congruence | reflexivity].
Qed.

Lemma keys_set_item_present k v d :
  In k (keys d) -> keys (set_item k v d) = keys d.
Proof.
  induction d as [|[k0 v0] d IH]; simpl; [tauto|].
  intros H. destruct (String.eqb_spec k k0) as [->|N]; simpl.
  - reflexivity.
  - f_equal. apply IH. destruct H; congruence.
Qed.

Lemma keys_set_item_absent k v d :
  ~ In k (keys d) -> keys (set_item k v d) = keys d ++ [k].
Proof.
  induction d as [|[k0 v0] d IH]; simpl; [reflexivity|].
  intros H. destruct (String.eqb_spec k k0) as [->|N]; simpl.
  - exfalso. apply H. now left.
  - f_equal. apply IH. tauto.
Qed.

(** On a dict, [d[k] = w] for a present key rewrites that one entry. *)
Lemma set_item_map k w d :
  NoDup (keys d) -> In k (keys d) ->
  set_item k w d
  = map (fun kv => if String.eqb (fst kv) k then (fst kv, w) else kv) d.
Proof.
  induction d as [|[k0 v0] d IH]; simpl; [tauto|].
  intros ND H. inversion ND; subst.
  destruct (String.eqb_spec k k0) as [->|N].
  - rewrite String.eqb_refl. simpl. f_equal.
    rewrite <- (map_id d) at 1. apply map_ext_in. intros [k1 v1] I. simpl.
    destruct (String.eqb_spec k1 k0) as [->|]; [|reflexivity].
    exfalso. apply H2. change k0 with (fst (k0, v1)). now apply in_map.
  - destruct (String.eqb_spec k0 k); [congruence|]. f_equal.
    apply IH; [assumption | destruct H; congruence].
Qed.

End DictFacts.

Lemma float_of_nat_pos n : (0 < n)%nat -> 0 < float_of_nat n.
Proof.
  intros H. unfold float_of_nat, Qlt. simpl. lia.
Qed.

Lemma fdiv_Ok a b : ~ b == 0 -> fdiv a b = Ok (a / b).
Proof.
  intros H. unfold fdiv. destruct (Qeq_bool b 0) eqn:E; [|reflexivity].
  apply Qeq_bool_eq in E. contradiction.
Qed.

Lemma fdiv_nat a n : (0 < n)%nat -> fdiv a (float_of_nat n) = Ok (a / float_of_nat n).
Proof.
  intros H. apply fdiv_Ok. apply float_of_nat_pos in H. lra.
Qed.

(** ** The loops [for link in ...: output[link] += average] *)

Lemma for_each_add_at average links : forall output,
  NoDup links -> NoDup (keys output) -> incl links (keys output) ->
  for_each links (add_at average) output = Ok (map (bump average links) output).
Proof.
  induction links as [|k ks IH]; intros output NDl NDo Hin; simpl.
  - f_equal. rewrite <- (map_id output) at 1. apply map_ext.
    now intros [k v].
  - inversion NDl; subst.
    assert (Hk : In k (keys output)) by (apply Hin; now left).
    destruct (In_keys_get _ _ Hk) as [v Hv].
    unfold add_at at 1, getitem. rewrite Hv. simpl.
    rewrite IH.
    + f_equal. rewrite set_item_map by assumption. rewrite map_map.
      apply map_ext_in. intros [k1 v1] I. unfold bump; simpl.
      destruct (String.eqb_spec k1 k) as [->|N]; simpl.
      * apply (In_get _ _ _ NDo) in I. assert (v1 = v) by congruence; subst.
        apply set_mem_false in H1. now rewrite H1.
      * reflexivity.
    + assumption.
    + now rewrite keys_set_item_present.
    + rewrite keys_set_item_present by assumption.
      intros x Hx. apply Hin. now right.
Qed.

Lemma keys_bump average links output :
  keys (map (bump average links) output) = keys output.
Proof.
  unfold keys. rewrite map_map. reflexivity.
Qed.

(** ** The pages of [all_pages] *)

Lemma init_if_absent_keys k output q :
  In q (keys (init_if_absent k output)) <-> q = k \/ In q (keys output).
Proof.
  unfold init_if_absent. destruct (contains k output) eqn:E.
  - apply contains_In in E. split; [tauto | intros [->|]; assumption].
  - assert (N : ~ In k (keys output)).
    { intros H. apply contains_In in H. congruence. }
    rewrite keys_set_item_absent by assumption.
    rewrite in_app_iff. simpl. intuition.
Qed.

Lemma init_if_absent_NoDup k output :
  NoDup (keys output) -> NoDup (keys (init_if_absent k output)).
Proof.
  intros ND. unfold init_if_absent. destruct (contains k output) eqn:E;
    [assumption|].
  assert (N : ~ In k (keys output)).
  { intros H. apply contains_In in H. congruence. }
  rewrite keys_set_item_absent by assumption.
  apply NoDup_app; [assumption | repeat constructor; simpl; tauto |].
  intros x Hx [<-|[]]. contradiction.
Qed.

Lemma set_item_absent_app {V : Type} k (v : V) (d : dict V) :
  ~ In k (keys d) -> set_item k v d = d ++ [(k, v)].
Proof.
  induction d as [|[k0 v0] d IH]; simpl; [reflexivity|].
  intros H. destruct (String.eqb_spec k k0) as [->|N].
  - exfalso. apply H. now left.
  - f_equal. apply IH. tauto.
Qed.

Lemma init_if_absent_zeroed k output :
  zeroed output -> zeroed (init_if_absent k output).
Proof.
  intros Z. unfold init_if_absent. destruct (contains k output) eqn:E;
    [assumption|].
  assert (N : ~ In k (keys output)).
  { intros H. apply contains_In in H. congruence. }
  rewrite set_item_absent_app by assumption.
  intros kv [H|[<-|[]]]%in_app_iff; [now apply Z | reflexivity].
Qed.

Lemma init_links_facts links : forall output,
  NoDup (keys output) -> zeroed output ->
  NoDup (keys (init_links links output)) /\ zeroed (init_links links output)
  /\ forall q, In q (keys (init_links links output))
               <-> In q links \/ In q (keys output).
Proof.
  induction links as [|l ls IH]; intros output ND Z; simpl.
  - repeat split; try assumption; tauto.
  - destruct (IH (init_if_absent l output)) as (A & B & C).
    + now apply init_if_absent_NoDup.
    + now apply init_if_absent_zeroed.
    + repeat split; try assumption.
      * intros H. apply C in H. rewrite init_if_absent_keys in H. intuition.
      * intros H. apply C. rewrite init_if_absent_keys. intuition.
Qed.

Lemma all_pages_from c : forall output,
  NoDup (keys output) -> zeroed output ->
  let out :=
    fold_left
      (fun output (item : page * pyset) =>
         fold_left (fun output link => init_if_absent link output)
           (snd item) (init_if_absent (fst item) output))
      c output in
  NoDup (keys out) /\ zeroed out
  /\ forall q, In q (keys out) <-> appears c q \/ In q (keys output).
Proof.
  induction c as [|[k ls] c IH]; intros output ND Z; simpl.
  - repeat split; try assumption; [tauto|].
    intros [[[]|(item & [] & _)]|H]; assumption.
  - destruct (init_links_facts ls (init_if_absent k output)) as (A & B & C).
    { now apply init_if_absent_NoDup. }
    { now apply init_if_absent_zeroed. }
    destruct (IH _ A B) as (A' & B' & C'). unfold init_links in *.
    repeat split; try assumption.
    + intros H. apply C' in H. destruct H as [[H|(item & H1 & H2)]|H].
      * left. left. now right.
      * left. right. exists item. split; [now right | assumption].
      * apply C in H. rewrite init_if_absent_keys in H.
        destruct H as [H|[->|H]].
        -- left. right. exists (k, ls). split; [now left | assumption].
        -- left. left. now left.
        -- now right.
    + intros H. apply C'. rewrite C, init_if_absent_keys.
      destruct H as [[[<-|H]|(item & [<-|H1] & H2)]|H].
      * right. right. now left.
      * left. now left.
      * right. now left.
      * left. right. now exists item.
      * right. right. now right.
Qed.

Lemma all_pages_facts c :
  NoDup (keys (all_pages c)) /\ zeroed (all_pages c)
  /\ forall q, In q (keys (all_pages c)) <-> appears c q.
Proof.
  destruct (all_pages_from c []) as (A & B & C).
  - constructor.
  - intros kv [].
  - repeat split; try assumption.
    + intros H. apply C in H. destruct H as [H|[]]. assumption.
    + intros H. apply C. now left.
Qed.

(** ** Sums of rationals *)

Lemma fold_left_Qplus l : forall a, fold_left Qplus l a == a + sumQ l.
Proof.
  induction l as [|x l IH]; intros a; simpl.
  - ring.
  - rewrite IH. ring.
Qed.

Lemma pysum_sumQ l : pysum l == sumQ l.
Proof.
  unfold pysum. rewrite fold_left_Qplus. ring.
Qed.

Section Sums.
Context {A : Type}.
Implicit Types (f g : A -> Q) (l : list A).

Lemma sumQ_ext f g l :
  (forall a, In a l -> f a == g a) -> sumQ (map f l) == sumQ (map g l).
Proof.
  induction l as [|a l IH]; intros H; simpl.
  - reflexivity.
  - rewrite (H a) by now left. rewrite IH; [reflexivity|].
    intros b Hb. apply H. now right.
Qed.

Lemma sumQ_plus f g l :
  sumQ (map (fun a => f a + g a) l) == sumQ (map f l) + sumQ (map g l).
Proof.
  induction l as [|a l IH]; simpl.
  - ring.
  - rewrite IH. ring.
Qed.

Lemma sumQ_scale x f l :
  sumQ (map (fun a => f a * x) l) == sumQ (map f l) * x.
Proof.
  induction l as [|a l IH]; simpl.
  - ring.
  - rewrite IH. ring.
Qed.

Lemma sumQ_const x l :
  sumQ (map (fun _ => x) l) == float_of_nat (length l) * x.
Proof.
  induction l as [|a l IH].
  - simpl. unfold float_of_nat. simpl. ring.
  - cbn [map sumQ length]. rewrite IH. unfold float_of_nat.
    rewrite Nat2Z.inj_succ, <- Z.add_1_r, inject_Z_plus. simpl. ring.
Qed.

Lemma sumQ_nonneg f l :
  (forall a, In a l -> 0 <= f a) -> 0 <= sumQ (map f l).
Proof.
  induction l as [|a l IH]; intros H; simpl.
  - lra.
  - assert (0 <= f a) by (apply H; now left).
    assert (0 <= sumQ (map f l)) by (apply IH; intros b Hb; apply H; now right).
    lra.
Qed.

Lemma sumQ_le f g l :
  (forall a, In a l -> f a <= g a) -> sumQ (map f l) <= sumQ (map g l).
Proof.
  induction l as [|a l IH]; intros H; simpl.
  - lra.
  - assert (f a <= g a) by (apply H; now left).
    assert (sumQ (map f l) <= sumQ (map g l))
      by (apply IH; intros b Hb; apply H; now right).
    lra.
Qed.

Lemma sumQ_member f l a :
  (forall b, In b l -> 0 <= f b) -> In a l -> f a <= sumQ (map f l).
Proof.
  induction l as [|b l IH]; intros H I; simpl; [destruct I|].
  assert (0 <= f b) by (apply H; now left).
  assert (0 <= sumQ (map f l)) by (apply sumQ_nonneg; intros; apply H; now right).
  destruct I as [->|I].
  - lra.
  - assert (f a <= sumQ (map f l)) by (apply IH; [intros; apply H; now right | assumption]).
    lra.
Qed.
End Sums.

Lemma float_of_nat_S n : float_of_nat (S n) == 1 + float_of_nat n.
Proof.
  unfold float_of_nat. rewrite Nat2Z.inj_succ, <- Z.add_1_r, inject_Z_plus.
  simpl. ring.
Qed.

(** One indicator over a duplicate-free list. *)
Lemma sumQ_single x l (ks : list page) :
  NoDup ks -> In l ks ->
  sumQ (map (fun q => if String.eqb q l then x else 0) ks) == x.
Proof.
  induction ks as [|k ks IH]; intros ND I; simpl; [destruct I|].
  inversion ND; subst. destruct (String.eqb_spec k l) as [->|N].
  - rewrite (sumQ_ext _ (fun _ => 0)).
    + rewrite sumQ_const. ring.
    + intros a Ha. destruct (String.eqb_spec a l) as [->|]; [contradiction | reflexivity].
  - destruct I as [->|I]; [congruence|]. rewrite IH by assumption. ring.
Qed.

(** The indicator of a set, summed over a list that contains the set. *)
Lemma sumQ_indicator x (links ks : list page) :
  NoDup ks -> NoDup links -> incl links ks ->
  sumQ (map (fun q => if set_mem q links then x else 0) ks)
  == float_of_nat (length links) * x.
Proof.
  intros NDk. induction links as [|l ls IH]; intros NDl Hin.
  - simpl. rewrite sumQ_const. unfold float_of_nat. simpl. ring.
  - inversion NDl; subst.
    rewrite (sumQ_ext _ (fun q => (if String.eqb q l then x else 0)
                                  + (if set_mem q ls then x else 0))).
    + rewrite sumQ_plus, sumQ_single, IH; try assumption.
      * cbn [length]. rewrite float_of_nat_S. ring.
      * intros q Hq. apply Hin. now right.
      * apply Hin. now left.
    + intros q _. simpl. destruct (String.eqb_spec q l) as [->|N]; simpl.
      * apply set_mem_false in H1. rewrite H1. ring.
      * ring.
Qed.

(** ** [transition_model] in closed form *)

Lemma well_formed_keys (c : corpus) : well_formed c = true -> NoDup (keys c).
Proof.
  unfold well_formed. intros [H _]%andb_true_iff. now apply distinct_NoDup.
Qed.

Lemma well_formed_links c k links :
  well_formed c = true -> get k c = Some links -> NoDup links.
Proof.
  unfold well_formed. intros [_ H]%andb_true_iff E.
  rewrite forallb_forall in H. apply get_Some_In in E.
  apply distinct_NoDup. exact (H _ E).
Qed.

Lemma transition_model_closed c p d links :
  well_formed c = true -> get p c = Some links ->
  transition_model c p d
  = Ok (map (fun q => (q, model_value c links d q)) (keys (all_pages c))).
Proof.
  intros WF E. destruct (all_pages_facts c) as (ND & Z & Hk).
  assert (NDl : NoDup links) by (eapply well_formed_links; eauto).
  assert (Hin : incl links (keys (all_pages c))).
  { intros q Hq. apply Hk. right. exists (p, links).
    split; [now apply get_Some_In | assumption]. }
  assert (Hlen : (0 < length (all_pages c))%nat).
  { assert (I : In p (keys (all_pages c)))
      by (apply Hk; left; eapply get_In_keys; eauto).
    unfold keys in I. destruct (all_pages c); [destruct I | simpl; lia]. }
  unfold transition_model, getitem. rewrite E. cbn [bind].
  assert (Fin : forall a1 sel,
    (forall q, In q (keys (all_pages c)) ->
       (if set_mem q sel then 0 + a1 else 0)
       = (if negb (Nat.eqb (length links) 0)
          then if set_mem q links then 0 + d / float_of_nat (length links) else 0
          else 0 + d / float_of_nat (length (all_pages c)))) ->
    (average <- fdiv (1 - d)
                  (float_of_nat (length (map (bump a1 sel) (all_pages c)))) ;;
     for_each (keys (map (bump a1 sel) (all_pages c))) (add_at average)
       (map (bump a1 sel) (all_pages c)))
    = Ok (map (fun q => (q, model_value c links d q)) (keys (all_pages c)))).
  { intros a1 sel Hsel. rewrite length_map, fdiv_nat by assumption. cbn [bind].
    rewrite for_each_add_at.
    - f_equal. unfold keys at 2. rewrite !map_map. apply map_ext_in.
      intros [q v] I. unfold bump, model_value. cbn [fst snd].
      assert (Iq : In q (keys (all_pages c))).
      { change q with (fst (q, v)). now apply in_map. }
      assert (M : set_mem q (keys (map (bump a1 sel) (all_pages c))) = true).
      { apply set_mem_In. now rewrite keys_bump. }
      unfold bump in M. rewrite M. rewrite (Z _ I : v = 0).
      now rewrite (Hsel q Iq).
    - now rewrite keys_bump.
    - now rewrite keys_bump.
    - apply incl_refl. }
  destruct (Nat.eqb (length links) 0) eqn:L; cbn [negb].
  - rewrite fdiv_nat by assumption. cbn [bind].
    rewrite for_each_add_at by (try assumption; apply incl_refl). cbn [bind].
    apply Fin. intros q Iq. apply set_mem_In in Iq. now rewrite Iq.
  - apply Nat.eqb_neq in L. rewrite fdiv_nat by lia. cbn [bind].
    rewrite for_each_add_at by assumption. cbn [bind].
    apply Fin. reflexivity.
Qed.

Lemma appears_spec_pages c q : appears c q <-> In q (spec_pages c).
Proof.
  unfold spec_pages, appears. rewrite nodup_In, in_app_iff, in_concat.
  split; intros [H|H]; try (now left); right.
  - destruct H as (item & I & Hq). exists (snd item). split; [|assumption].
    now apply in_map.
  - destruct H as (l & I & Hq). apply in_map_iff in I.
    destruct I as (item & <- & I). now exists item.
Qed.

Lemma all_pages_size c : length (all_pages c) = length (spec_pages c).
Proof.
  destruct (all_pages_facts c) as (ND & _ & Hk).
  rewrite <- (length_map fst (all_pages c)). apply Permutation_length.
  apply NoDup_Permutation; [assumption | apply NoDup_nodup |].
  intros q. fold (keys (all_pages c)). now rewrite Hk, appears_spec_pages.
Qed.

Lemma get_map_keys {V : Type} (f : page -> V) (ks : list page) q :
  In q ks -> get q (map (fun k => (k, f k)) ks) = Some (f q).
Proof.
  induction ks as [|k ks IH]; simpl; [tauto|].
  intros H. destruct (String.eqb_spec q k) as [->|N]; [reflexivity|].
  apply IH. destruct H; congruence.
Qed.

Lemma keys_map_keys {V : Type} (f : page -> V) (ks : list page) :
  keys (map (fun k => (k, f k)) ks) = ks.
Proof.
  unfold keys. rewrite map_map. apply map_id.
Qed.

Lemma values_map_keys {V : Type} (f : page -> V) (ks : list page) :
  values (map (fun k => (k, f k)) ks) = map f ks.
Proof.
  unfold values. rewrite map_map. reflexivity.
Qed.

(** C2. On a corpus that is a dict of sets, for a page [p] that is a key,
    [transition_model] returns a mapping whose keys are exactly the pages
    that appear as a key or as an out-neighbour, and the value at each is
    the one the three steps of the specification give: 0, plus
    [d / |out-neighbours(p)|] on the out-neighbours of [p] (or
    [d / |distribution|] everywhere when [p] is dangling), plus
    [(1 - d) / |distribution|]. *)
Theorem transition_model_meets_spec (c : corpus) (p : page) (d : Q) :
  well_formed c = true -> In p (keys c) ->
  exists output,
    transition_model c p d = Ok output
    /\ NoDup (keys output)
    /\ (forall q, In q (keys output) <-> appears c q)
    /\ (forall q, appears c q ->
          exists v, get q output = Some v /\ v == spec_transition c p d q).
Proof.
  intros WF Hp. destruct (In_keys_get _ _ Hp) as [links E].
  destruct (all_pages_facts c) as (ND & _ & Hk).
  eexists. split; [apply (transition_model_closed c p d links WF E)|].
  rewrite keys_map_keys. repeat split; try assumption; try apply Hk.
  intros q Hq. apply Hk in Hq. eexists. split; [now apply get_map_keys|].
  unfold model_value, spec_transition, out_neighbors. rewrite E.
  rewrite all_pages_size. destruct links as [|l ls]; cbn [length Nat.eqb negb].
  - ring.
  - destruct (set_mem q (l :: ls)); ring.
Qed.

Lemma transition_model_meets_spec_witness :
  exists output,
    transition_model ex_c "b"%string (85 # 100) = Ok output
    /\ NoDup (keys output)
    /\ (forall q, In q (keys output) <-> appears ex_c q)
    /\ (forall q, appears ex_c q ->
          exists v, get q output = Some v
                    /\ v == spec_transition ex_c "b"%string (85 # 100) q).
Proof.
  apply (transition_model_meets_spec ex_c "b"%string (85 # 100)).
  - reflexivity.
  - simpl. tauto.
Defined.

Lemma transition_model_total c p d :
  well_formed c = true -> In p (keys c) ->
  exists output,
    transition_model c p d = Ok output
    /\ (forall q, In q (keys output) <-> appears c q)
    /\ sumQ (values output) == 1.
Proof.
  intros WF Hp. destruct (In_keys_get _ _ Hp) as [links E].
  destruct (all_pages_facts c) as (ND & _ & Hk).
  assert (NDl : NoDup links) by (eapply well_formed_links; eauto).
  assert (Hin : incl links (keys (all_pages c))).
  { intros q Hq. apply Hk. right. exists (p, links).
    split; [now apply get_Some_In | assumption]. }
  assert (Hlen : 0 < float_of_nat (length (keys (all_pages c)))).
  { apply float_of_nat_pos.
    assert (I : In p (keys (all_pages c))) by (apply Hk; now left).
    destruct (keys (all_pages c)); [destruct I | simpl; lia]. }
  eexists. split; [apply (transition_model_closed c p d links WF E)|].
  rewrite keys_map_keys. split; [exact Hk|].
  rewrite values_map_keys. unfold model_value.
  replace (length (all_pages c)) with (length (keys (all_pages c)))
    by apply length_map.
  set (size := float_of_nat (length (keys (all_pages c)))) in *.
  rewrite (sumQ_plus _ (fun _ => (1 - d) / size)), sumQ_const. fold size.
  destruct links as [|l ls]; cbn [length Nat.eqb negb].
  - rewrite sumQ_const. fold size. field. lra.
  - rewrite (sumQ_ext _ (fun q => if set_mem q (l :: ls)
                                  then d / float_of_nat (length (l :: ls))
                                  else 0)).
    + rewrite sumQ_indicator by assumption.
      assert (0 < float_of_nat (length (l :: ls)))
        by (apply float_of_nat_pos; simpl; lia).
      cbn [length] in *. field. split; lra.
    + intros q _. cbn [length]. destruct (set_mem q (l :: ls)); ring.
Qed.



(** ** Building a dict key by key *)

Lemma for_each_set_fresh {V : Type} (f : page -> res V) (f' : page -> V) ks :
  forall acc : dict V,
  NoDup ks -> (forall k, In k ks -> ~ In k (keys acc)) ->
  (forall k, In k ks -> f k = Ok (f' k)) ->
  for_each ks (fun k out => v <- f k ;; Ok (set_item k v out)) acc
  = Ok (acc ++ map (fun k => (k, f' k)) ks).
Proof.
  induction ks as [|k ks IH]; intros acc ND Hfresh Hf; simpl.
  - now rewrite app_nil_r.
  - inversion ND; subst. rewrite Hf by now left. cbn [bind].
    rewrite set_item_absent_app by (apply Hfresh; now left).
    rewrite IH.
    + now rewrite <- app_assoc.
    + assumption.
    + intros k' Hk'. unfold keys. rewrite map_app, in_app_iff. simpl.
      intros [I|[<-|[]]]; [|contradiction].
      apply (Hfresh k'); [now right | assumption].
    + intros k' Hk'. apply Hf. now right.
Qed.

(** ** The random source *)

Lemma randint_range a b g :
  (a <= b)%Z ->
  exists r, randint a b g = Ok (r, mkRng (tape g) (S (cursor g)))
            /\ (a <= r <= b)%Z.
Proof.
  intros H. unfold randint, next_raw.
  destruct (b <? a)%Z eqn:E; [apply Z.ltb_lt in E; lia|].
  eexists. split; [reflexivity|].
  pose proof (Z.mod_pos_bound (Z.of_N (tape g (cursor g))) (b - a + 1)). lia.
Qed.

Lemma randint_empty a b g : (b < a)%Z -> randint a b g = Raise ValueError.
Proof.
  intros H. unfold randint. apply Z.ltb_lt in H. now rewrite H.
Qed.

Lemma list_index_In {A : Type} (l : list A) i :
  (0 <= i < Z.of_nat (length l))%Z -> exists a, list_index l i = Ok a /\ In a l.
Proof.
  intros H. unfold list_index.
  destruct (i <? 0)%Z eqn:E; [apply Z.ltb_lt in E; lia|]. rewrite E.
  destruct (nth_error l (Z.to_nat i)) eqn:N.
  - exists a. split; [reflexivity | eapply nth_error_In; eauto].
  - apply nth_error_None in N. lia.
Qed.

Lemma list_index_last {A : Type} (l : list A) (x : A) :
  list_index (l ++ [x]) (-1) = Ok x.
Proof.
  unfold list_index. cbn [Z.ltb Z.compare]. rewrite length_app. simpl length.
  destruct (-1 + Z.of_nat (length l + 1) <? 0)%Z eqn:E;
    [apply Z.ltb_lt in E; lia|].
  replace (Z.to_nat (-1 + Z.of_nat (length l + 1))) with (length l) by lia.
  rewrite nth_error_app2 by lia. now rewrite Nat.sub_diag.
Qed.

Lemma accumulate_from_length ws : forall acc,
  length (accumulate_from acc ws) = length ws.
Proof.
  induction ws as [|w ws IH]; intros acc; simpl; [reflexivity|].
  now rewrite IH.
Qed.

Lemma accumulate_length ws : length (accumulate ws) = length ws.
Proof.
  destruct ws as [|w ws]; simpl; [reflexivity|].
  now rewrite accumulate_from_length.
Qed.

Lemma accumulate_from_total w ws : forall acc,
  exists front total,
    accumulate_from acc (w :: ws) = front ++ [total]
    /\ total == acc + sumQ (w :: ws).
Proof.
  revert w. induction ws as [|w' ws IH]; intros w acc.
  - exists [], (acc + w). split; [reflexivity | simpl; ring].
  - destruct (IH w' (acc + w)) as (front & total & E & T).
    exists ((acc + w) :: front), total. split.
    + change (accumulate_from acc (w :: w' :: ws))
        with ((acc + w) :: accumulate_from (acc + w) (w' :: ws)).
      now rewrite E.
    + rewrite T. simpl. ring.
Qed.

Lemma accumulate_total w ws :
  exists front total,
    accumulate (w :: ws) = front ++ [total] /\ total == sumQ (w :: ws).
Proof.
  destruct ws as [|w' ws].
  - exists [], w. split; [reflexivity | simpl; ring].
  - destruct (accumulate_from_total w' ws w) as (front & total & E & T).
    exists (w :: front), total. split.
    + simpl accumulate. simpl in E. now rewrite E.
    + rewrite T. simpl. ring.
Qed.

Lemma bisect_le a x : forall hi, (bisect a x hi <= hi)%nat.
Proof.
  induction a as [|y a IH]; intros [|hi]; simpl; try lia.
  destruct (Qle_bool y x); [|lia]. specialize (IH hi). lia.
Qed.

(** [random.choices] draws a member of a non-empty population whose
    weights have a positive total, and consumes one draw. *)
Lemma choices_In population weights g :
  length weights = length population -> population <> [] ->
  0 < sumQ weights ->
  exists p, choices population weights g
            = Ok (p, mkRng (tape g) (S (cursor g)))
            /\ In p population.
Proof.
  intros L NE T. unfold choices.
  rewrite accumulate_length, L, Nat.eqb_refl. cbn [negb].
  destruct weights as [|w ws]; [destruct population; [congruence | discriminate]|].
  destruct (accumulate_total w ws) as (front & total & E & Ht).
  rewrite E, list_index_last. cbn [bind].
  destruct (Qle_bool total 0) eqn:B.
  { apply Qle_bool_iff in B. rewrite Ht in B. lra. }
  unfold random, next_raw.
  set (i := bisect _ _ _).
  assert (Hi : (i <= length population - 1)%nat) by apply bisect_le.
  destruct (list_index_In population (Z.of_nat i)) as (p & Ep & Ip).
  { destruct population; [congruence | simpl in *; lia]. }
  rewrite Ep. cbn [bind]. now exists p.
Qed.

(** ** The sampler *)

Lemma self_contained_appears c q :
  self_contained c = true -> appears c q -> In q (keys c).
Proof.
  unfold self_contained. rewrite forallb_forall.
  intros SC [H|(item & I & Hq)]; [assumption|].
  specialize (SC item I). rewrite forallb_forall in SC.
  apply contains_In. now apply SC.
Qed.

Lemma nonempty_length (c : corpus) : nonempty c = true -> (0 < length c)%nat.
Proof.
  unfold nonempty. destruct c; simpl; [discriminate | lia].
Qed.

Lemma transition_model_usable c p d :
  well_formed c = true -> self_contained c = true -> In p (keys c) ->
  exists prob_distri,
    transition_model c p d = Ok prob_distri /\ usable c prob_distri.
Proof.
  intros WF SC Hp.
  destruct (transition_model_total c p d WF Hp) as (output & E & Hk & Hs).
  exists output. split; [assumption|]. repeat split.
  - intros ->. apply (Hk p). now left.
  - intros q Hq. apply self_contained_appears; [assumption | now apply Hk].
  - assumption.
Qed.

Lemma sample_loop_ok c d :
  well_formed c = true -> self_contained c = true ->
  forall k samples prob_distri g,
    usable c prob_distri ->
    exists drawn,
      sample_loop k c d samples prob_distri g
      = Ok (samples ++ drawn, mkRng (tape g) (k + cursor g))
      /\ length drawn = k
      /\ Forall (fun q => In q (keys c)) drawn.
Proof.
  intros WF SC. induction k as [|k IH]; intros samples prob g (NE & Hk & Hs).
  - exists []. simpl. rewrite app_nil_r. destruct g. now repeat split.
  - cbn [sample_loop].
    destruct (choices_In (keys prob) (values prob) g) as (p & Ec & Ip).
    + unfold keys, values. now rewrite !length_map.
    + destruct prob; [congruence | discriminate].
    + rewrite Hs. reflexivity.
    + rewrite Ec. cbn [bind].
      destruct (transition_model_usable c p d WF SC (Hk p Ip)) as (prob' & Et & U).
      rewrite Et. cbn [bind].
      destruct (IH (samples ++ [p]) prob' (mkRng (tape g) (S (cursor g))) U)
        as (drawn & El & Ll & Fl).
      exists (p :: drawn). rewrite El. cbn [tape cursor].
      rewrite <- app_assoc. repeat split.
      * rewrite Nat.add_succ_r. reflexivity.
      * simpl. now rewrite Ll.
      * constructor; [now apply Hk | assumption].
Qed.

Lemma sample_first (c : corpus) g :
  c <> [] ->
  exists r p,
    randint 0 (Z.of_nat (length c) - 1) g
    = Ok (r, mkRng (tape g) (S (cursor g)))
    /\ list_index (keys c) r = Ok p /\ In p (keys c).
Proof.
  intros NE. assert (0 < length c)%nat by (destruct c; [congruence | simpl; lia]).
  destruct (randint_range 0 (Z.of_nat (length c) - 1) g) as (r & Er & Hr);
    [lia|].
  destruct (list_index_In (keys c) r) as (p & Ep & Ip).
  { unfold keys. rewrite length_map. lia. }
  now exists r, p.
Qed.

Lemma sample_sequence_ok c d n g :
  well_formed c = true -> nonempty c = true -> self_contained c = true ->
  exists samples,
    sample_sequence c d n g
    = Ok (samples, mkRng (tape g) (S (Z.to_nat (n - 1) + cursor g)))
    /\ length samples = S (Z.to_nat (n - 1))
    /\ Forall (fun q => In q (keys c)) samples.
Proof.
  intros WF NE SC. apply nonempty_length in NE.
  destruct (sample_first c g) as (r & p & Er & Ep & Ip).
  { intros ->. simpl in NE. lia. }
  destruct (transition_model_usable c p d WF SC Ip) as (prob & Et & U).
  destruct (sample_loop_ok c d WF SC (Z.to_nat (n - 1)) [p] prob
              (mkRng (tape g) (S (cursor g))) U) as (drawn & El & Ll & Fl).
  exists (p :: drawn). unfold sample_sequence.
  rewrite Er. cbn [bind]. rewrite Ep. cbn [bind]. rewrite Et. cbn [bind].
  rewrite El. cbn [tape cursor app]. repeat split.
  - rewrite Nat.add_succ_r. reflexivity.
  - simpl. now rewrite Ll.
  - now constructor.
Qed.

Lemma inject_Z_nonzero n : n <> 0%Z -> ~ inject_Z n == 0.
Proof.
  intros H E. unfold Qeq in E. simpl in E. lia.
Qed.

(** The last loop of [sample_pagerank], for a sample count other than 0. *)
Lemma frequencies_ok c samples n :
  well_formed c = true -> n <> 0%Z ->
  for_each (keys c)
    (fun name output =>
       v <- fdiv (float_of_nat (count samples name)) (inject_Z n) ;;
       Ok (set_item name v output))
    []
  = Ok (map (fun name => (name, float_of_nat (count samples name) / inject_Z n))
          (keys c)).
Proof.
  intros WF Hn.
  apply (for_each_set_fresh
           (fun name => fdiv (float_of_nat (count samples name)) (inject_Z n))
           (fun name => float_of_nat (count samples name) / inject_Z n)
           (keys c) []).
  - now apply well_formed_keys.
  - intros k _ [].
  - intros k _. apply fdiv_Ok. now apply inject_Z_nonzero.
Qed.

Lemma sample_pagerank_ok c d n g :
  well_formed c = true -> nonempty c = true -> self_contained c = true ->
  n <> 0%Z ->
  exists samples g',
    sample_sequence c d n g = Ok (samples, g')
    /\ length samples = S (Z.to_nat (n - 1))
    /\ Forall (fun q => In q (keys c)) samples
    /\ sample_pagerank c d n g
       = Ok (map (fun name =>
                    (name, float_of_nat (count samples name) / inject_Z n))
               (keys c), g').
Proof.
  intros WF NE SC Hn.
  destruct (sample_sequence_ok c d n g WF NE SC) as (samples & E & L & F).
  exists samples, (mkRng (tape g) (S (Z.to_nat (n - 1) + cursor g))).
  repeat split; try assumption.
  unfold sample_pagerank. rewrite E. cbn [bind].
  now rewrite frequencies_ok.
Qed.

Lemma sumQ_count ks samples :
  NoDup ks -> Forall (fun q => In q ks) samples ->
  sumQ (map (fun name => float_of_nat (count samples name)) ks)
  == float_of_nat (length samples).
Proof.
  intros ND. induction samples as [|s ss IH]; intros F.
  - simpl. rewrite sumQ_const. unfold float_of_nat. simpl. ring.
  - inversion F; subst.
    rewrite (sumQ_ext _ (fun name => (if String.eqb name s then 1 else 0)
                                     + float_of_nat (count ss name))).
    + rewrite sumQ_plus, sumQ_single, IH by assumption.
      cbn [length]. rewrite float_of_nat_S. ring.
    + intros name _. unfold count. simpl.
      destruct (string_dec s name) as [->|N].
      * rewrite String.eqb_refl. apply float_of_nat_S.
      * destruct (String.eqb_spec name s); [congruence | ring].
Qed.

(** C4. For a non-empty self-contained corpus and [n >= 1], the mapping
    returned by [sample_pagerank] has exactly the corpus's pages as keys,
    each value is the number of occurrences of the page in the sample
    sequence of [n] elements divided by [n], and the values sum to
    exactly 1. *)
Theorem sample_pagerank_frequencies (c : corpus) (d : Q) (n : Z) (g : rng) :
  well_formed c = true -> nonempty c = true -> self_contained c = true ->
  (1 <= n)%Z ->
  exists samples output g',
    sample_sequence c d n g = Ok (samples, g')
    /\ Z.of_nat (length samples) = n
    /\ sample_pagerank c d n g = Ok (output, g')
    /\ keys output = keys c
    /\ (forall name, In name (keys c) ->
          get name output
          = Some (float_of_nat (count samples name) / inject_Z n))
    /\ pysum (values output) == 1.
Proof.
  intros WF NE SC Hn.
  destruct (sample_pagerank_ok c d n g WF NE SC) as (samples & g' & E & L & F & R);
    [lia|].
  exists samples. eexists. exists g'. split; [exact E|]. split; [lia|].
  split; [exact R|]. rewrite keys_map_keys. split; [reflexivity|].
  split.
  { intros name I.
    now apply (get_map_keys
                 (fun name => float_of_nat (count samples name) / inject_Z n)). }
  rewrite values_map_keys, pysum_sumQ.
  rewrite (sumQ_ext _ (fun name => float_of_nat (count samples name)
                                   * / inject_Z n)) by (intros; reflexivity).
  rewrite sumQ_scale, sumQ_count; [|now apply well_formed_keys | assumption].
  rewrite L. unfold float_of_nat.
  replace (Z.of_nat (S (Z.to_nat (n - 1)))) with n by lia.
  field. apply inject_Z_nonzero. lia.
Qed.

Lemma sample_pagerank_frequencies_witness :
  exists samples output g',
    sample_sequence ex_c (85 # 100) 4 ex_rng = Ok (samples, g')
    /\ Z.of_nat (length samples) = 4%Z
    /\ sample_pagerank ex_c (85 # 100) 4 ex_rng = Ok (output, g')
    /\ keys output = keys ex_c
    /\ (forall name, In name (keys ex_c) ->
          get name output
          = Some (float_of_nat (count samples name) / inject_Z 4))
    /\ pysum (values output) == 1.
Proof.
  apply (sample_pagerank_frequencies ex_c (85 # 100) 4 ex_rng).
  - reflexivity.
  - reflexivity.
  - reflexivity.
  - lia.
Defined.





(** ** The reverse index *)

Lemma reverse_init ks : forall acc : dict pyset,
  NoDup ks -> (forall k, In k ks -> ~ In k (keys acc)) ->
  fold_left (fun reverse p => set_item p [] reverse) ks acc
  = acc ++ map (fun p => (p, [])) ks.
Proof.
  induction ks as [|k ks IH]; intros acc ND Hfresh; simpl.
  - now rewrite app_nil_r.
  - inversion ND; subst.
    rewrite set_item_absent_app by (apply Hfresh; now left).
    rewrite IH; [now rewrite <- app_assoc | assumption |].
    intros k' Hk'. unfold keys. rewrite map_app, in_app_iff. simpl.
    intros [I|[<-|[]]]; [|contradiction].
    apply (Hfresh k'); [now right | assumption].
Qed.

Lemma reverse_inv_iff c seen seen' reverse :
  (forall k i, seen k i <-> seen' k i) ->
  reverse_inv c seen reverse -> reverse_inv c seen' reverse.
Proof.
  intros Hiff [Hk Hget]. split; [assumption|].
  intros i Hi. destruct (Hget i Hi) as (s & E & ND & Hs).
  exists s. repeat split; try assumption.
  - intros H. apply Hiff. now apply Hs.
  - intros H. apply Hs. now apply Hiff.
Qed.

Lemma reverse_links c key : forall li seen reverse,
  reverse_inv c seen reverse -> (forall i, In i li -> In i (keys c)) ->
  exists reverse',
    for_each li
      (fun i reverse =>
         s <- getitem i reverse ;;
         if negb (set_mem key s)
         then Ok (set_item i (set_add key s) reverse)
         else Ok reverse)
      reverse
    = Ok reverse'
    /\ reverse_inv c (fun k i => seen k i \/ (k = key /\ In i li)) reverse'.
Proof.
  induction li as [|i li IH]; intros seen reverse Inv Hli.
  - exists reverse. split; [reflexivity|].
    apply (reverse_inv_iff c seen); [|assumption]. simpl. tauto.
  - destruct Inv as [Hk Hget].
    destruct (Hget i) as (s & Es & NDs & Hs); [apply Hli; now left|].
    cbn [for_each]. unfold getitem at 1. rewrite Es. cbn [bind].
    destruct (set_mem key s) eqn:M; cbn [negb bind].
    + destruct (IH seen reverse) as (reverse' & E & Inv');
        [now split | intros; apply Hli; now right |].
      exists reverse'. split; [assumption|].
      apply (reverse_inv_iff c _ _ reverse' ) with (2 := Inv').
      intros k i'. simpl. split; [tauto|].
      intros [H|[-> [<-|H]]]; [tauto | | tauto].
      left. apply Hs. now apply set_mem_In.
    + assert (Hi : In i (keys reverse)) by (rewrite Hk; apply Hli; now left).
      unfold set_add. rewrite M.
      destruct (IH (fun k i' => seen k i' \/ (k = key /\ i' = i))
                  (set_item i (s ++ [key]) reverse)) as (reverse' & E & Inv').
      * split; [now rewrite keys_set_item_present|].
        intros i' Hi'. rewrite get_set_item.
        destruct (String.eqb_spec i' i) as [->|N].
        -- exists (s ++ [key]). split; [reflexivity|]. split.
           ++ apply NoDup_app; [assumption | repeat constructor; simpl; tauto |].
              intros x Hx [<-|[]]. apply set_mem_false in M. contradiction.
           ++ intros k. rewrite in_app_iff, Hs. simpl. intuition.
        -- destruct (Hget i' Hi') as (s' & Es' & NDs' & Hs').
           exists s'. repeat split; try assumption.
           ++ intros H. left. now apply Hs'.
           ++ intros [H|[_ H]]; [now apply Hs' | contradiction].
      * intros; apply Hli; now right.
      * exists reverse'. split; [assumption|].
        apply (reverse_inv_iff c _ _ reverse') with (2 := Inv').
        intros k i'. simpl. intuition.
Qed.

Lemma reverse_items c : forall (items : list (page * pyset)) seen reverse,
  reverse_inv c seen reverse ->
  (forall item, In item items -> forall i, In i (snd item) -> In i (keys c)) ->
  exists reverse',
    for_each items
      (fun (item : page * pyset) reverse =>
         for_each (snd item)
           (fun i reverse =>
              s <- getitem i reverse ;;
              if negb (set_mem (fst item) s)
              then Ok (set_item i (set_add (fst item) s) reverse)
              else Ok reverse)
           reverse)
      reverse
    = Ok reverse'
    /\ reverse_inv c
         (fun k i => seen k i
                     \/ exists item, In item items /\ fst item = k
                                     /\ In i (snd item))
         reverse'.
Proof.
  induction items as [|item items IH]; intros seen reverse Inv Hin.
  - exists reverse. split; [reflexivity|].
    apply (reverse_inv_iff c seen); [|assumption].
    intros k i. split; [tauto|]. intros [H|(item & [] & _)]. assumption.
  - destruct (reverse_links c (fst item) (snd item) seen reverse Inv)
      as (reverse1 & E1 & Inv1); [apply Hin; now left|].
    destruct (IH _ reverse1 Inv1) as (reverse' & E & Inv');
      [intros; eapply Hin; [right|]; eassumption|].
    exists reverse'. cbn [for_each]. rewrite E1. cbn [bind].
    split; [assumption|].
    apply (reverse_inv_iff c _ _ reverse') with (2 := Inv').
    intros k i. split.
    + intros [[H|[-> H]]|(it & I & F & H)].
      * now left.
      * right. exists item. split; [now left | now split].
      * right. exists it. split; [now right | now split].
    + intros [H|(it & [<-|I] & F & H)].
      * left. now left.
      * left. right. now split.
      * right. now exists it.
Qed.

Lemma out_neighbors_item c k i :
  NoDup (keys c) ->
  (exists item, In item c /\ fst item = k /\ In i (snd item))
  <-> In i (out_neighbors c k).
Proof.
  intros ND. unfold out_neighbors. split.
  - intros ([k' l] & I & F & H). simpl in F, H. subst k'.
    now rewrite (In_get _ _ _ ND I).
  - destruct (get k c) as [l|] eqn:E; [|intros []].
    intros H. exists (k, l). split; [now apply get_Some_In | now split].
Qed.

Lemma self_contained_links c item i :
  self_contained c = true -> In item c -> In i (snd item) -> In i (keys c).
Proof.
  intros SC I H. apply self_contained_appears; [assumption|].
  right. now exists item.
Qed.

(** The reverse index of a self-contained corpus: one set per page, which
    holds exactly the pages that link to it. *)
Lemma reverse_corpus_ok c :
  well_formed c = true -> self_contained c = true ->
  exists reverse,
    reverse_corpus c = Ok reverse
    /\ reverse_inv c (fun k i => In i (out_neighbors c k)) reverse.
Proof.
  intros WF SC. pose proof (well_formed_keys c WF) as ND.
  unfold reverse_corpus.
  rewrite (reverse_init (keys c) []); [|assumption | intros k _ []].
  cbn [app].
  destruct (reverse_items c c (fun _ _ => False)
              (map (fun p => (p, [])) (keys c))) as (reverse & E & Inv).
  - split; [apply keys_map_keys|].
    intros i Hi. exists []. split; [|split; [constructor | simpl; tauto]].
    now apply (get_map_keys (fun _ => @nil page)).
  - intros item I i H. eapply self_contained_links; eassumption.
  - exists reverse. split; [assumption|].
    apply (reverse_inv_iff c _ _ reverse) with (2 := Inv).
    intros k i. rewrite <- (out_neighbors_item c k i ND). tauto.
Qed.

(** ** Updating every entry of a dict *)

Lemma for_each_update (g : Q -> Q) ks : forall d : dict Q,
  NoDup ks -> NoDup (keys d) -> incl ks (keys d) ->
  for_each ks (fun k d => v <- getitem k d ;; Ok (set_item k (g v) d)) d
  = Ok (map (fun kv => (fst kv, if set_mem (fst kv) ks
                                then g (snd kv) else snd kv)) d).
Proof.
  induction ks as [|k ks IH]; intros d NDl NDo Hin; simpl.
  - f_equal. rewrite <- (map_id d) at 1. apply map_ext. now intros [k v].
  - inversion NDl; subst.
    assert (Hk : In k (keys d)) by (apply Hin; now left).
    destruct (In_keys_get _ _ Hk) as [v Hv].
    unfold getitem at 1. rewrite Hv. simpl.
    rewrite IH.
    + f_equal. rewrite set_item_map by assumption. rewrite map_map.
      apply map_ext_in. intros [k1 v1] I. simpl.
      destruct (String.eqb_spec k1 k) as [->|N]; simpl.
      * apply (In_get _ _ _ NDo) in I. assert (v1 = v) by congruence; subst.
        apply set_mem_false in H1. now rewrite H1.
      * reflexivity.
    + assumption.
    + now rewrite keys_set_item_present.
    + rewrite keys_set_item_present by assumption.
      intros x Hx. apply Hin. now right.
Qed.

Lemma for_each_update_all (g : Q -> Q) (d : dict Q) :
  NoDup (keys d) ->
  for_each (keys d) (fun k d => v <- getitem k d ;; Ok (set_item k (g v) d)) d
  = Ok (map (fun kv => (fst kv, g (snd kv))) d).
Proof.
  intros ND. rewrite for_each_update by (try assumption; apply incl_refl).
  f_equal. apply map_ext_in. intros [k v] I. simpl.
  assert (M : set_mem k (keys d) = true).
  { apply set_mem_In. change k with (fst (k, v)). now apply in_map. }
  now rewrite M.
Qed.

Lemma get_map_values (h : Q -> Q) (d : dict Q) p :
  get p (map (fun kv => (fst kv, h (snd kv))) d) = option_map h (get p d).
Proof.
  induction d as [|[k v] d IH]; simpl; [reflexivity|].
  destruct (String.eqb p k); [reflexivity | assumption].
Qed.

Lemma rank_of_get ranks p : In p (keys ranks) -> get p ranks = Some (rank_of ranks p).
Proof.
  intros H. unfold rank_of. destruct (In_keys_get _ _ H) as [v ->]. reflexivity.
Qed.

Lemma getitem_rank_of ranks p :
  In p (keys ranks) -> getitem p ranks = Ok (rank_of ranks p).
Proof.
  intros H. unfold getitem. now rewrite rank_of_get.
Qed.

Lemma rank_of_map_values h ranks p :
  In p (keys ranks) ->
  rank_of (map (fun kv => (fst kv, h (snd kv))) ranks) p = h (rank_of ranks p).
Proof.
  intros H. unfold rank_of at 1. rewrite get_map_values, rank_of_get by assumption.
  reflexivity.
Qed.

Lemma rank_of_map_keys f ks p :
  In p ks -> rank_of (map (fun k => (k, f k)) ks) p = f p.
Proof.
  intros H. unfold rank_of. now rewrite (get_map_keys f).
Qed.

(** ** Sums and maxima *)

Lemma sumQ_perm (l l' : list Q) : Permutation l l' -> sumQ l == sumQ l'.
Proof.
  induction 1; simpl.
  - reflexivity.
  - now rewrite IHPermutation.
  - ring.
  - now rewrite IHPermutation1.
Qed.

Lemma pymax_Qmax a b : pymax a b == Qmax a b.
Proof.
  unfold pymax. destruct (Qle_bool b a) eqn:E.
  - apply Qle_bool_iff in E. now rewrite Q.max_l.
  - assert (a <= b).
    { destruct (Qlt_le_dec a b) as [H|H]; [lra|].
      apply Qle_bool_iff in H. congruence. }
    now rewrite Q.max_r.
Qed.

Lemma spec_max_change_nonneg c old new : 0 <= spec_max_change c old new.
Proof.
  unfold spec_max_change. induction (keys c) as [|p ks IH]; simpl; [lra|].
  apply Q.max_le_iff. now right.
Qed.

Lemma spec_max_change_ext c old old' new new' :
  (forall p, In p (keys c) -> old p == old' p) ->
  (forall p, In p (keys c) -> new p == new' p) ->
  spec_max_change c old new == spec_max_change c old' new'.
Proof.
  unfold spec_max_change.
  induction (keys c) as [|p ks IH]; intros Ho Hn; cbn [fold_right].
  - reflexivity.
  - apply Q.max_compat.
    + apply Qabs_wd. rewrite (Ho p), (Hn p) by now left. reflexivity.
    + apply IH; intros; [apply Ho | apply Hn]; now right.
Qed.

Lemma spec_max_change_le c old new m :
  0 <= m -> (forall p, In p (keys c) -> Qabs (new p - old p) <= m) ->
  spec_max_change c old new <= m.
Proof.
  unfold spec_max_change. intros Hm.
  induction (keys c) as [|k ks IH]; intros H; simpl; [assumption|].
  apply Q.max_lub_iff. split; [apply H; now left | apply IH].
  intros p Hp. apply H. now right.
Qed.

(** ** One pass of the solver *)

Lemma max_change_ok c ranks new_rank :
  keys ranks = keys c -> keys new_rank = keys c ->
  exists m,
    max_change ranks new_rank = Ok m
    /\ m == spec_max_change c (rank_of ranks) (rank_of new_rank).
Proof.
  intros Hr Hn. unfold max_change, spec_max_change. rewrite Hr.
  assert (G : forall ks acc,
    incl ks (keys c) -> 0 <= acc ->
    exists m,
      for_each ks
        (fun p max_val =>
           a <- getitem p new_rank ;;
           b <- getitem p ranks ;;
           Ok (pymax max_val (Qabs (a - b))))
        acc = Ok m
      /\ m == Qmax acc
                (fold_right
                   (fun p m => Qmax (Qabs (rank_of new_rank p - rank_of ranks p)) m)
                   0 ks)).
  { induction ks as [|p ks IH]; intros acc Hin Hacc.
    - exists acc. split; [reflexivity|]. simpl. now rewrite Q.max_l.
    - assert (Hp : In p (keys c)) by (apply Hin; now left).
      cbn [for_each].
      rewrite (getitem_rank_of new_rank p) by now rewrite Hn. cbn [bind].
      rewrite (getitem_rank_of ranks p) by now rewrite Hr. cbn [bind].
      set (x := Qabs (rank_of new_rank p - rank_of ranks p)).
      destruct (IH (pymax acc x)) as (m & E & Hm).
      + intros q Hq. apply Hin. now right.
      + rewrite pymax_Qmax. apply Q.max_le_iff. now left.
      + exists m. split; [assumption|]. rewrite Hm. cbn [fold_right]. fold x.
        rewrite pymax_Qmax. now rewrite Q.max_assoc. }
  destruct (G (keys c) 0) as (m & E & Hm); [apply incl_refl | lra |].
  exists m. split; [assumption|]. rewrite Hm. apply Q.max_r.
  apply (spec_max_change_nonneg c (rank_of ranks) (rank_of new_rank)).
Qed.

Lemma out_neighbors_getitem (c : corpus) q :
  out_neighbors c q <> [] -> getitem q c = Ok (out_neighbors c q).
Proof.
  unfold out_neighbors, getitem. destruct (get q c); [reflexivity | congruence].
Qed.

Lemma out_neighbors_key (c : corpus) q :
  out_neighbors c q <> [] -> In q (keys c).
Proof.
  unfold out_neighbors. destruct (get q c) eqn:E; [|congruence].
  intros _. eapply get_In_keys; eauto.
Qed.

Lemma ind_rank_ok (c : corpus) ranks sources :
  (forall q, In q sources -> In q (keys ranks) /\ out_neighbors c q <> []) ->
  forall acc,
  exists v,
    for_each sources
      (fun link ind_rank =>
         r <- getitem link ranks ;;
         links <- getitem link c ;;
         q <- fdiv r (float_of_nat (length links)) ;;
         Ok (ind_rank + q))
      acc = Ok v
    /\ v == acc + sumQ (map (fun q => rank_of ranks q / out_degree c q) sources).
Proof.
  induction sources as [|q qs IH]; intros H acc.
  - exists acc. split; [reflexivity | simpl; ring].
  - destruct (H q) as [Hr Ho]; [now left|].
    cbn [for_each]. rewrite getitem_rank_of by assumption. cbn [bind].
    rewrite out_neighbors_getitem by assumption. cbn [bind].
    rewrite fdiv_nat by (destruct (out_neighbors c q); [congruence | simpl; lia]).
    cbn [bind].
    destruct (IH (fun q' Hq' => H q' (or_intror Hq'))
                (acc + rank_of ranks q / float_of_nat (length (out_neighbors c q))))
      as (v & E & Hv).
    exists v. split; [assumption|]. rewrite Hv. unfold out_degree. simpl. ring.
Qed.

Lemma pages_linking_to_In (c : corpus) p q :
  In q (pages_linking_to c p) <-> In p (out_neighbors c q).
Proof.
  unfold pages_linking_to. rewrite filter_In, set_mem_In. split; [tauto|].
  intros H. split; [|assumption]. apply out_neighbors_key.
  intros E. now rewrite E in H.
Qed.

Lemma pagerank_formula_ok c d ranks reverse p :
  well_formed c = true -> nonempty c = true ->
  reverse_inv c (fun k i => In i (out_neighbors c k)) reverse ->
  keys ranks = keys c -> In p (keys c) ->
  exists v,
    pagerank_formula c p d ranks reverse = Ok v
    /\ v == spec_formula c d (rank_of ranks) p.
Proof.
  intros WF NE [Hk Hget] Hr Hp. apply nonempty_length in NE.
  destruct (Hget p Hp) as (s & Es & NDs & Hs).
  destruct (ind_rank_ok c ranks s) with (acc := 0) as (ind & Ei & Hi).
  { intros q Hq. apply Hs in Hq.
    assert (out_neighbors c q <> []) by (intros E; now rewrite E in Hq).
    split; [|assumption]. rewrite Hr. now apply out_neighbors_key. }
  exists ((1 - d) / float_of_nat (length c) + d * ind).
  unfold pagerank_formula. rewrite fdiv_nat by assumption. cbn [bind].
  unfold getitem at 1. rewrite Es. cbn [bind]. rewrite Ei. cbn [bind].
  split; [reflexivity|]. unfold spec_formula. rewrite Hi.
  rewrite (sumQ_perm _ (map (fun q => rank_of ranks q / out_degree c q)
                          (pages_linking_to c p))); [ring|].
  apply Permutation_map. apply NoDup_Permutation; [assumption | |].
  - apply NoDup_filter. now apply well_formed_keys.
  - intros q. now rewrite Hs, pages_linking_to_In.
Qed.

Lemma formula_pass_ok c d ranks reverse :
  well_formed c = true -> nonempty c = true ->
  reverse_inv c (fun k i => In i (out_neighbors c k)) reverse ->
  keys ranks = keys c ->
  exists raw,
    formula_pass c d reverse ranks = Ok raw
    /\ keys raw = keys c
    /\ forall p, In p (keys c) ->
         rank_of raw p == spec_formula c d (rank_of ranks) p.
Proof.
  intros WF NE Inv Hr. unfold formula_pass. rewrite Hr.
  set (f := fun p => pagerank_formula c p d ranks reverse).
  set (f' := fun p => match f p with Ok v => v | Raise _ => 0 end).
  exists (map (fun p => (p, f' p)) (keys c)). split; [|split].
  - apply (for_each_set_fresh f f' (keys c) []).
    + now apply well_formed_keys.
    + intros k _ [].
    + intros k Hk. unfold f', f.
      destruct (pagerank_formula_ok c d ranks reverse k WF NE Inv Hr Hk)
        as (v & -> & _). reflexivity.
  - apply keys_map_keys.
  - intros p Hp. rewrite rank_of_map_keys by assumption. unfold f', f.
    destruct (pagerank_formula_ok c d ranks reverse p WF NE Inv Hr Hp)
      as (v & -> & Hv). assumption.
Qed.

Lemma values_rank_of (d : dict Q) :
  NoDup (keys d) -> values d = map (rank_of d) (keys d).
Proof.
  induction d as [|[k v] d IH]; intros ND; simpl; [reflexivity|].
  inversion ND; subst. f_equal.
  - unfold rank_of. simpl. now rewrite String.eqb_refl.
  - rewrite IH by assumption. apply map_ext_in. intros q Hq.
    unfold rank_of. simpl. destruct (String.eqb_spec q k) as [->|]; [contradiction|].
    reflexivity.
Qed.

Lemma normalise_ok (new_rank : dict Q) :
  NoDup (keys new_rank) -> ~ pysum (values new_rank) == 0 ->
  normalise new_rank
  = Ok (map (fun kv => (fst kv, snd kv * (1 / pysum (values new_rank))))
          new_rank).
Proof.
  intros ND H. unfold normalise. rewrite fdiv_Ok by assumption. cbn [bind].
  apply (for_each_update_all (fun v => v * (1 / pysum (values new_rank)))).
  assumption.
Qed.

Lemma Qdiv_nonneg a b : 0 <= a -> 0 <= b -> 0 <= a / b.
Proof.
  intros Ha Hb. unfold Qdiv. apply Qmult_le_0_compat; [assumption|].
  now apply Qinv_le_0_compat.
Qed.

Lemma float_of_nat_nonneg n : 0 <= float_of_nat n.
Proof.
  unfold float_of_nat, Qle. simpl. lia.
Qed.

Lemma pages_linking_to_keys (c : corpus) p q :
  In q (pages_linking_to c p) -> In q (keys c).
Proof.
  unfold pages_linking_to. rewrite filter_In. tauto.
Qed.

Lemma spec_formula_ext c d r1 r2 p :
  (forall q, In q (keys c) -> r1 q == r2 q) ->
  spec_formula c d r1 p == spec_formula c d r2 p.
Proof.
  intros H. unfold spec_formula.
  rewrite (sumQ_ext (fun q => r1 q / out_degree c q)
             (fun q => r2 q / out_degree c q)); [reflexivity|].
  intros q Hq. rewrite (H q); [reflexivity|].
  eapply pages_linking_to_keys; eauto.
Qed.

Lemma spec_step_ext c d r1 r2 p :
  (forall q, In q (keys c) -> r1 q == r2 q) ->
  spec_step c d r1 p == spec_step c d r2 p.
Proof.
  intros H. unfold spec_step.
  rewrite (spec_formula_ext c d r1 r2 p H).
  rewrite (sumQ_ext (spec_formula c d r1) (spec_formula c d r2));
    [reflexivity|].
  intros q _. now apply spec_formula_ext.
Qed.

(** Every new rank is at least [(1-d)/N], which is positive. *)
Lemma spec_formula_floor c d r p :
  nonempty c = true -> 0 < d < 1 ->
  (forall q, In q (keys c) -> 0 <= r q) ->
  0 < (1 - d) / float_of_nat (length c)
  /\ (1 - d) / float_of_nat (length c) <= spec_formula c d r p.
Proof.
  intros NE [Hd0 Hd1] Hr. apply nonempty_length, float_of_nat_pos in NE.
  split.
  - apply Qlt_shift_div_l; [assumption | lra].
  - unfold spec_formula.
    assert (0 <= sumQ (map (fun q => r q / out_degree c q)
                         (pages_linking_to c p))).
    { apply sumQ_nonneg. intros q Hq. apply Qdiv_nonneg.
      - apply Hr. eapply pages_linking_to_keys; eauto.
      - apply float_of_nat_nonneg. }
    assert (0 <= d * sumQ (map (fun q => r q / out_degree c q)
                             (pages_linking_to c p)))
      by (apply Qmult_le_0_compat; lra).
    lra.
Qed.

Lemma nonempty_has_key (c : corpus) :
  nonempty c = true -> exists p, In p (keys c).
Proof.
  destruct c as [|[k l] c]; [discriminate|]. intros _. exists k. now left.
Qed.

Lemma iteration_ok c d reverse ranks :
  well_formed c = true -> nonempty c = true -> 0 < d < 1 ->
  reverse_inv c (fun k i => In i (out_neighbors c k)) reverse ->
  positive_ranks c ranks ->
  exists raw new_rank max_val,
    formula_pass c d reverse ranks = Ok raw
    /\ keys raw = keys c
    /\ (forall p, In p (keys c) ->
          (1 - d) / float_of_nat (length c) <= rank_of raw p)
    /\ 0 < pysum (values raw)
    /\ iteration c d reverse ranks = Ok (new_rank, max_val)
    /\ positive_ranks c new_rank
    /\ (forall p, In p (keys c) ->
          rank_of new_rank p == spec_step c d (rank_of ranks) p)
    /\ max_val == spec_max_change c (rank_of ranks) (rank_of new_rank)
    /\ sumQ (values new_rank) == 1
    /\ (forall p, In p (keys c) -> rank_of new_rank p <= 1).
Proof.
  intros WF NE Hd Inv [Hr Hpos]. pose proof (well_formed_keys c WF) as ND.
  destruct (formula_pass_ok c d ranks reverse WF NE Inv Hr) as (raw & Ef & Hk & Hraw).
  assert (Hfloor : forall p, In p (keys c) ->
            0 < (1 - d) / float_of_nat (length c)
            /\ (1 - d) / float_of_nat (length c) <= rank_of raw p).
  { intros p Hp. rewrite (Hraw p Hp). apply spec_formula_floor; try assumption.
    intros q Hq. apply Qlt_le_weak. now apply Hpos. }
  assert (NDr : NoDup (keys raw)) by now rewrite Hk.
  assert (Hsum : pysum (values raw) == sumQ (map (rank_of raw) (keys c))).
  { rewrite pysum_sumQ, values_rank_of, Hk by assumption. reflexivity. }
  assert (Hmem : forall p, In p (keys c) ->
            rank_of raw p <= sumQ (map (rank_of raw) (keys c))).
  { intros p Hp. apply sumQ_member; [|assumption].
    intros q Hq. destruct (Hfloor q Hq). lra. }
  assert (Spos : 0 < pysum (values raw)).
  { destruct (nonempty_has_key c NE) as [p0 Hp0].
    destruct (Hfloor p0 Hp0). specialize (Hmem p0 Hp0). rewrite Hsum. lra. }
  set (S := pysum (values raw)) in *.
  set (new_rank := map (fun kv => (fst kv, snd kv * (1 / S))) raw).
  assert (En : normalise raw = Ok new_rank).
  { apply normalise_ok; [assumption | fold S; lra]. }
  assert (Hkn : keys new_rank = keys c).
  { unfold new_rank, keys. rewrite map_map. exact Hk. }
  assert (Hval : forall p, In p (keys c) ->
            rank_of new_rank p = rank_of raw p * (1 / S)).
  { intros p Hp. unfold new_rank.
    apply (rank_of_map_values (fun v => v * (1 / S))). now rewrite Hk. }
  destruct (max_change_ok c ranks new_rank Hr Hkn) as (m & Em & Hm).
  exists raw, new_rank, m. split; [assumption|]. split; [assumption|].
  split; [intros p Hp; now apply Hfloor|]. split; [assumption|].
  split.
  { unfold iteration. rewrite Ef. cbn [bind]. rewrite En. cbn [bind].
    rewrite Em. reflexivity. }
  assert (Sinv : 0 < 1 / S) by (apply Qlt_shift_div_l; lra).
  split.
  { split; [assumption|]. intros p Hp. rewrite Hval by assumption.
    destruct (Hfloor p Hp). apply Qmult_lt_0_compat; lra. }
  split.
  { intros p Hp. rewrite Hval by assumption. unfold spec_step.
    rewrite <- (sumQ_ext (rank_of raw) (spec_formula c d (rank_of ranks)))
      by (intros q Hq; now apply Hraw).
    rewrite <- Hsum, <- (Hraw p Hp). fold S. field. lra. }
  split; [assumption|]. split.
  { rewrite values_rank_of, Hkn by now rewrite Hkn.
    rewrite (sumQ_ext _ (fun p => rank_of raw p * (1 / S)))
      by (intros p Hp; now rewrite Hval).
    rewrite sumQ_scale, <- Hsum. fold S. field. lra. }
  intros p Hp. rewrite Hval by assumption. specialize (Hmem p Hp).
  rewrite <- Hsum in Hmem. fold S in Hmem.
  assert (rank_of raw p / S <= 1) by (apply Qle_shift_div_r; lra).
  assert (rank_of raw p * (1 / S) == rank_of raw p / S) by (field; lra).
  lra.
Qed.

(** ** The loop of the solver *)

Lemma initial_ranks_ok c :
  well_formed c = true -> nonempty c = true ->
  initial_ranks c
  = Ok (map (fun k => (k, 1 / float_of_nat (length c))) (keys c)).
Proof.
  intros WF NE. apply nonempty_length in NE. unfold initial_ranks.
  apply (for_each_set_fresh
           (fun _ => fdiv 1 (float_of_nat (length c)))
           (fun _ => 1 / float_of_nat (length c)) (keys c) []).
  - now apply well_formed_keys.
  - intros k _ [].
  - intros k _. now apply fdiv_nat.
Qed.

Lemma initial_ranks_positive c :
  nonempty c = true ->
  positive_ranks c (map (fun k => (k, 1 / float_of_nat (length c))) (keys c)).
Proof.
  intros NE. apply nonempty_length, float_of_nat_pos in NE.
  split; [apply keys_map_keys|]. intros p Hp.
  rewrite (rank_of_map_keys (fun _ => 1 / float_of_nat (length c))) by assumption.
  apply Qlt_shift_div_l; lra.
Qed.

Section Loop.
Variables (c : corpus) (d : Q) (reverse : dict pyset).
Hypothesis WF : well_formed c = true.
Hypothesis NE : nonempty c = true.
Hypothesis Hd : 0 < d < 1.
Hypothesis Inv : reverse_inv c (fun k i => In i (out_neighbors c k)) reverse.

Lemma iterate_loop_sound : forall fuel ranks,
  positive_ranks c ranks ->
  match iterate_loop fuel c d reverse ranks with
  | Some (Ok out) =>
      positive_ranks c out /\ sumQ (values out) == 1
      /\ forall p, In p (keys c) -> rank_of out p <= 1
  | Some (Raise _) => False
  | None => True
  end.
Proof.
  induction fuel as [|fuel IH]; intros ranks P; cbn [iterate_loop];
    [exact I|].
  destruct (iteration_ok c d reverse ranks WF NE Hd Inv P)
    as (raw & new_rank & m & _ & _ & _ & _ & E & P' & _ & _ & S1 & L1).
  rewrite E. destruct (Qle_bool m threshold); [|now apply IH].
  split; [exact P' | split; assumption].
Qed.

Lemma iterate_loop_refines : forall fuel ranks rank,
  positive_ranks c ranks ->
  (forall p, In p (keys c) -> rank_of ranks p == rank p) ->
  match iterate_loop fuel c d reverse ranks, spec_loop fuel c d rank with
  | Some (Ok out), Some rank' =>
      keys out = keys c
      /\ forall p, In p (keys c) -> rank_of out p == rank' p
  | None, None => True
  | _, _ => False
  end.
Proof.
  induction fuel as [|fuel IH]; intros ranks rank P R;
    cbn [iterate_loop spec_loop]; [exact I|].
  destruct (iteration_ok c d reverse ranks WF NE Hd Inv P)
    as (raw & new_rank & m & _ & _ & _ & _ & E & P' & St & Hm & _ & _).
  rewrite E.
  assert (R' : forall p, In p (keys c) ->
            rank_of new_rank p == spec_step c d rank p).
  { intros p Hp. rewrite (St p Hp). now apply spec_step_ext. }
  assert (M : m == spec_max_change c rank (spec_step c d rank)).
  { rewrite Hm. now apply spec_max_change_ext. }
  rewrite (Qleb_comp _ _ M threshold threshold (Qeq_refl _)).
  destruct (Qle_bool (spec_max_change c rank (spec_step c d rank)) threshold).
  - split; [apply P' | assumption].
  - now apply IH.
Qed.

Lemma reached_positive ranks : reached c d reverse ranks -> positive_ranks c ranks.
Proof.
  induction 1 as [ranks E | ranks new_rank m _ IH E _].
  - rewrite initial_ranks_ok in E by assumption. injection E as <-.
    now apply initial_ranks_positive.
  - destruct (iteration_ok c d reverse ranks WF NE Hd Inv IH)
      as (raw & new_rank' & m' & _ & _ & _ & _ & E' & P' & _).
    rewrite E in E'. now injection E' as -> _.
Qed.
End Loop.

Lemma iterate_pagerank_unfold c d fuel :
  well_formed c = true -> nonempty c = true -> self_contained c = true ->
  exists reverse,
    reverse_corpus c = Ok reverse
    /\ reverse_inv c (fun k i => In i (out_neighbors c k)) reverse
    /\ iterate_pagerank c d fuel
       = iterate_loop fuel c d reverse
           (map (fun k => (k, 1 / float_of_nat (length c))) (keys c)).
Proof.
  intros WF NE SC. destruct (reverse_corpus_ok c WF SC) as (reverse & E & Inv).
  exists reverse. split; [assumption|]. split; [assumption|].
  unfold iterate_pagerank. rewrite initial_ranks_ok, E by assumption.
  reflexivity.
Qed.

(** C10. On a non-empty self-contained corpus with [0 < d < 1] no division
    of [iterate_pagerank] is by zero: every page of a reverse set has at
    least one out-neighbour; in every pass of the loop each new rank is at
    least [(1-d)/N > 0], so the divisor of the normalisation is positive;
    and, whatever the fuel, the function raises nothing. *)
Theorem iterate_pagerank_no_zero_division (c : corpus) (d : Q) :
  well_formed c = true -> nonempty c = true -> self_contained c = true ->
  0 < d < 1 ->
  exists reverse,
    reverse_corpus c = Ok reverse
    /\ (forall p sources q,
          get p reverse = Some sources -> In q sources ->
          exists links, get q c = Some links /\ (1 <= length links)%nat)
    /\ (forall ranks, reached c d reverse ranks ->
          exists raw,
            formula_pass c d reverse ranks = Ok raw
            /\ 0 < (1 - d) / float_of_nat (length c)
            /\ (forall p v, get p raw = Some v ->
                  (1 - d) / float_of_nat (length c) <= v)
            /\ 0 < pysum (values raw)
            /\ exists new_rank, normalise raw = Ok new_rank)
    /\ (forall fuel,
          match iterate_pagerank c d fuel with
          | Some (Raise _) => False
          | _ => True
          end).
Proof.
  intros WF NE SC Hd.
  destruct (reverse_corpus_ok c WF SC) as (reverse & E & Inv).
  exists reverse. split; [assumption|]. split; [|split].
  - intros p sources q G Hq. destruct Inv as [Hk Hget].
    assert (Hp : In p (keys c)) by (rewrite <- Hk; eapply get_In_keys; eauto).
    destruct (Hget p Hp) as (s & Es & _ & Hs).
    assert (s = sources) by congruence; subst s.
    apply Hs in Hq. unfold out_neighbors in Hq.
    destruct (get q c) as [links|]; [|destruct Hq].
    exists links. split; [reflexivity|]. destruct links; [destruct Hq | simpl; lia].
  - intros ranks R. apply (reached_positive c d reverse WF NE Hd Inv) in R.
    destruct (iteration_ok c d reverse ranks WF NE Hd Inv R)
      as (raw & new_rank & m & Ef & Hk & Hfloor & Spos & _).
    exists raw. split; [assumption|]. split.
    { apply nonempty_length, float_of_nat_pos in NE.
      apply Qlt_shift_div_l; lra. }
    split.
    { intros p v G. assert (Hp : In p (keys c)).
      { rewrite <- Hk. eapply get_In_keys; eauto. }
      specialize (Hfloor p Hp). unfold rank_of in Hfloor.
      now rewrite G in Hfloor. }
    split; [assumption|]. eexists. apply normalise_ok.
    + rewrite Hk. now apply well_formed_keys.
    + lra.
  - intros fuel.
    destruct (iterate_pagerank_unfold c d fuel WF NE SC)
      as (reverse' & E' & Inv' & ->).
    pose proof (iterate_loop_sound c d reverse' WF NE Hd Inv' fuel _
                  (initial_ranks_positive c NE)) as H.
    destruct (iterate_loop _ _ _ _ _) as [[out|e]|]; [exact I | exact H | exact I].
Qed.

Lemma iterate_pagerank_no_zero_division_witness :
  exists reverse,
    reverse_corpus ex_c = Ok reverse
    /\ (forall p sources q,
          get p reverse = Some sources -> In q sources ->
          exists links, get q ex_c = Some links /\ (1 <= length links)%nat)
    /\ (forall ranks, reached ex_c (85 # 100) reverse ranks ->
          exists raw,
            formula_pass ex_c (85 # 100) reverse ranks = Ok raw
            /\ 0 < (1 - (85 # 100)) / float_of_nat (length ex_c)
            /\ (forall p v, get p raw = Some v ->
                  (1 - (85 # 100)) / float_of_nat (length ex_c) <= v)
            /\ 0 < pysum (values raw)
            /\ exists new_rank, normalise raw = Ok new_rank)
    /\ (forall fuel,
          match iterate_pagerank ex_c (85 # 100) fuel with
          | Some (Raise _) => False
          | _ => True
          end).
Proof.
  apply (iterate_pagerank_no_zero_division ex_c (85 # 100)).
  - reflexivity.
  - reflexivity.
  - reflexivity.
  - split; reflexivity.
Defined.

(** ** A single page without links *)





(** * The functions over the store *)

Lemma read_entries_rep h entries d :
  Store.read_entries h entries = Some d <-> rep h entries d.
Proof.
  revert d. induction entries as [|[k r] entries IH]; intros d; simpl.
  - split; [intros [= <-]; constructor | intros H; inversion H; reflexivity].
  - split.
    + destruct (nth_error h r) as [[s|es]|] eqn:E; try discriminate.
      destruct (Store.read_entries h entries) as [d'|] eqn:E';
        try discriminate.
      intros [= <-]. constructor; [split; [reflexivity | exact E]|].
      now apply IH.
    + intros H. inversion H as [|e [k' s'] es' d' [Hk Hs] Ht]; subst.
      simpl in Hk, Hs. subst k'. rewrite Hs. apply IH in Ht. now rewrite Ht.
Qed.

Lemma rep_keys h entries d : rep h entries d -> keys entries = keys d.
Proof.
  unfold keys. induction 1 as [|e kv es d' [Hk _] _ IH]; simpl; [reflexivity|].
  now rewrite Hk, IH.
Qed.

Lemma rep_length h entries d : rep h entries d -> length entries = length d.
Proof.
  apply Forall2_length.
Qed.

Lemma rep_get h entries d k :
  rep h entries d ->
  match get k entries, get k d with
  | Some r, Some s => nth_error h r = Some (Store.SetObj s)
  | None, None => True
  | _, _ => False
  end.
Proof.
  induction 1 as [|[k1 r] [k2 s] es d' [Hk Hs] _ IH]; simpl; [exact I|].
  simpl in Hk, Hs. subst k2. destruct (String.eqb k k1); assumption.
Qed.

(** A heap that grows, or changes beyond [n], still represents what it
    represented below [n]. *)
Lemma rep_agree h h' entries d :
  (forall r s, nth_error h r = Some (Store.SetObj s) ->
               In r (map snd entries) -> nth_error h' r = Some (Store.SetObj s)) ->
  rep h entries d -> rep h' entries d.
Proof.
  intros H R. induction R as [|e kv es d' [Hk Hs] _ IH]; constructor.
  - split; [assumption|]. apply H; [assumption | now left].
  - apply IH. intros r s Hr Hin. apply H; [assumption | now right].
Qed.

Section ReadOnly.
Variables (h : list Store.obj) (c : Store.ref).
Variables (centries : dict Store.ref) (cv : dict pyset).
Hypothesis Hc : nth_error h c = Some (Store.DictObj centries).
Hypothesis Hrep : rep h centries cv.

Lemma load_corpus g :
  Store.load_dict c (Store.mkWorld h g) = (Ok centries, Store.mkWorld h g).
Proof.
  unfold Store.load_dict. simpl. now rewrite Hc.
Qed.

(** [corpus[k]] followed by a read of the set. *)
Lemma load_links {A : Type} k (K : pyset -> Store.M A) g :
  Store.bindM (Store.dict_getitem c k)
    (fun r => Store.bindM (Store.load_set r) K) (Store.mkWorld h g)
  = Store.bindM (Store.lift (getitem k cv)) K (Store.mkWorld h g).
Proof.
  unfold Store.dict_getitem, Store.bindM at 1 2. rewrite load_corpus.
  unfold Store.lift, Store.bindM, getitem.
  pose proof (rep_get h centries cv k Hrep) as G.
  destruct (get k centries) as [r|], (get k cv) as [s|]; try contradiction.
  - unfold Store.load_set. simpl. now rewrite G.
  - reflexivity.
Qed.

Lemma all_pages_store g : forall entries d acc,
  rep h entries d ->
  Store.for_eachM entries
    (fun (item : page * Store.ref) output =>
       Store.bindM (Store.load_set (snd item))
         (fun pages =>
            Store.ret
              (fold_left (fun output link => init_if_absent link output)
                 pages (init_if_absent (fst item) output))))
    acc (Store.mkWorld h g)
  = (Ok (fold_left
           (fun output (item : page * pyset) =>
              fold_left (fun output link => init_if_absent link output)
                (snd item) (init_if_absent (fst item) output))
           d acc),
     Store.mkWorld h g).
Proof.
  intros entries d acc R. revert acc.
  induction R as [|[k r] [k' s] es d' [Hk Hs] _ IH]; intros acc.
  - reflexivity.
  - simpl in Hk, Hs. subst k'. cbn [Store.for_eachM fold_left fst snd].
    unfold Store.bindM at 1 2, Store.load_set. simpl. rewrite Hs.
    unfold Store.ret at 1. apply IH.
Qed.

Lemma transition_model_store p d g :
  Store.transition_model c p d (Store.mkWorld h g)
  = (transition_model cv p d, Store.mkWorld h g).
Proof.
  unfold Store.transition_model. unfold Store.bindM at 1.
  rewrite load_corpus. unfold Store.bindM at 1.
  rewrite (all_pages_store g centries cv [] Hrep).
  fold (all_pages cv). rewrite load_links.
  unfold transition_model, Store.bindM, Store.lift, getitem.
  destruct (get p cv) as [links|]; [|reflexivity]. cbn [bind].
  destruct (if negb (Nat.eqb (length links) 0)
            then _ else _) as [output|e]; reflexivity.
Qed.

Lemma sample_loop_store d : forall k samples prob g,
  exists g',
    Store.sample_loop k c d samples prob (Store.mkWorld h g)
    = (result_of (sample_loop k cv d samples prob g), Store.mkWorld h g').
Proof.
  induction k as [|k IH]; intros samples prob g.
  - exists g. reflexivity.
  - cbn [Store.sample_loop sample_loop].
    unfold Store.bindM at 1, Store.choices. simpl.
    destruct (choices (keys prob) (values prob) g) as [[p g1]|e];
      [|exists g; reflexivity].
    cbn [bind]. unfold Store.bindM at 1. rewrite transition_model_store.
    destruct (transition_model cv p d) as [prob'|e];
      [|exists g1; reflexivity].
    cbn [bind]. apply IH.
Qed.

Lemma sample_pagerank_store d n g :
  exists g',
    Store.sample_pagerank c d n (Store.mkWorld h g)
    = (result_of (sample_pagerank cv d n g), Store.mkWorld h g').
Proof.
  unfold Store.sample_pagerank, sample_pagerank, sample_sequence.
  unfold Store.bindM at 1. rewrite load_corpus.
  unfold Store.bindM at 1, Store.randint. simpl.
  rewrite (rep_length h centries cv Hrep).
  destruct (randint 0 (Z.of_nat (length cv) - 1) g) as [[r g1]|e];
    [|exists g; reflexivity].
  cbn [bind]. unfold Store.bindM at 1, Store.lift at 1.
  rewrite (rep_keys h centries cv Hrep).
  destruct (list_index (keys cv) r) as [p|e]; [|exists g1; reflexivity].
  cbn [bind]. unfold Store.bindM at 1. rewrite transition_model_store.
  destruct (transition_model cv p d) as [prob|e]; [|exists g1; reflexivity].
  cbn [bind]. unfold Store.bindM at 1.
  destruct (sample_loop_store d (Z.to_nat (n - 1)) [p] prob g1) as (g2 & ->).
  destruct (sample_loop (Z.to_nat (n - 1)) cv d [p] prob g1) as [[samples g3]|e];
    [|exists g2; reflexivity].
  cbn [bind result_of]. unfold Store.bindM at 1. rewrite load_corpus.
  unfold Store.lift. rewrite (rep_keys h centries cv Hrep).
  exists g2.
  match goal with
  | |- context [for_each ?ks ?body ?acc] => destruct (for_each ks body acc)
  end; reflexivity.
Qed.
End ReadOnly.

Section SolverReads.
Variables (h : list Store.obj) (c R : nat).
Variables (centries rentries : dict nat) (cv rv : dict pyset).
Hypothesis Hc : nth_error h c = Some (Store.DictObj centries).
Hypothesis Hrep : rep h centries cv.
Hypothesis HR : nth_error h R = Some (Store.DictObj rentries).
Hypothesis HrepR : rep h rentries rv.

Lemma ind_rank_store ranks g : forall sources acc,
  Store.for_eachM sources
    (fun link ind_rank =>
       Store.bindM (Store.lift (getitem link ranks)) (fun r =>
       Store.bindM (Store.dict_getitem c link) (fun links_ref =>
       Store.bindM (Store.load_set links_ref) (fun links =>
       Store.bindM (Store.lift (fdiv r (float_of_nat (length links))))
         (fun q => Store.ret (ind_rank + q))))))
    acc (Store.mkWorld h g)
  = (for_each sources
       (fun link ind_rank =>
          r <- getitem link ranks ;;
          links <- getitem link cv ;;
          q <- fdiv r (float_of_nat (length links)) ;;
          Ok (ind_rank + q))
       acc,
     Store.mkWorld h g).
Proof.
  induction sources as [|link sources IH]; intros acc; [reflexivity|].
  cbn [Store.for_eachM for_each].
  unfold Store.bindM at 1. unfold Store.bindM at 1, Store.lift at 1.
  destruct (getitem link ranks) as [r|e]; [|reflexivity]. cbn [bind].
  rewrite (load_links h c centries cv Hc Hrep).
  unfold Store.bindM at 1, Store.lift at 1.
  destruct (getitem link cv) as [links|e]; [|reflexivity]. cbn [bind].
  unfold Store.bindM at 1, Store.lift at 1.
  destruct (fdiv r (float_of_nat (length links))) as [q|e]; [|reflexivity].
  cbn [bind]. unfold Store.ret at 1. apply IH.
Qed.

Lemma pagerank_formula_store p d ranks g :
  Store.pagerank_formula c p d ranks R (Store.mkWorld h g)
  = (pagerank_formula cv p d ranks rv, Store.mkWorld h g).
Proof.
  unfold Store.pagerank_formula, pagerank_formula.
  unfold Store.bindM at 1. rewrite (load_corpus h c centries Hc).
  rewrite (rep_length h centries cv Hrep).
  unfold Store.bindM at 1, Store.lift at 1.
  destruct (fdiv (1 - d) (float_of_nat (length cv))) as [rank|e];
    [|reflexivity].
  cbn [bind]. rewrite (load_links h R rentries rv HR HrepR).
  unfold Store.bindM at 1, Store.lift at 1.
  destruct (getitem p rv) as [sources|e]; [|reflexivity]. cbn [bind].
  unfold Store.bindM at 1. rewrite ind_rank_store.
  match goal with
  | |- context [for_each ?xs ?body ?acc] => destruct (for_each xs body acc)
  end; reflexivity.
Qed.

Lemma formula_pass_store d ranks g : forall ks acc,
  Store.for_eachM ks
    (fun p new_rank =>
       Store.bindM (Store.pagerank_formula c p d ranks R)
         (fun v => Store.ret (set_item p v new_rank)))
    acc (Store.mkWorld h g)
  = (for_each ks
       (fun p new_rank =>
          v <- pagerank_formula cv p d ranks rv ;;
          Ok (set_item p v new_rank))
       acc,
     Store.mkWorld h g).
Proof.
  induction ks as [|p ks IH]; intros acc; [reflexivity|].
  cbn [Store.for_eachM for_each].
  unfold Store.bindM at 1. unfold Store.bindM at 1.
  rewrite pagerank_formula_store.
  destruct (pagerank_formula cv p d ranks rv) as [v|e]; [|reflexivity].
  cbn [bind]. unfold Store.ret at 1. apply IH.
Qed.

Lemma iteration_store d ranks g :
  Store.iteration c d R ranks (Store.mkWorld h g)
  = (iteration cv d rv ranks, Store.mkWorld h g).
Proof.
  unfold Store.iteration, iteration, Store.formula_pass, formula_pass.
  unfold Store.bindM at 1. rewrite formula_pass_store.
  match goal with
  | |- context [for_each ?xs ?body ?acc] => destruct (for_each xs body acc)
  end; [|reflexivity].
  cbn [bind]. unfold Store.bindM at 1, Store.lift at 1.
  destruct (normalise a) as [new_rank|e]; [|reflexivity].
  cbn [bind]. unfold Store.bindM at 1, Store.lift at 1.
  destruct (max_change ranks new_rank) as [m|e]; reflexivity.
Qed.

Lemma iterate_loop_store d g : forall fuel ranks,
  Store.iterate_loop fuel c d R ranks (Store.mkWorld h g)
  = option_map (fun r => (r, Store.mkWorld h g))
      (iterate_loop fuel cv d rv ranks).
Proof.
  induction fuel as [|fuel IH]; intros ranks; [reflexivity|].
  cbn [Store.iterate_loop iterate_loop]. rewrite iteration_store.
  destruct (iteration cv d rv ranks) as [[new_rank m]|e]; [|reflexivity].
  destruct (Qle_bool m threshold); [reflexivity | apply IH].
Qed.

Lemma initial_ranks_store g :
  Store.initial_ranks c (Store.mkWorld h g)
  = (initial_ranks cv, Store.mkWorld h g).
Proof.
  unfold Store.initial_ranks, initial_ranks.
  unfold Store.bindM at 1. rewrite (load_corpus h c centries Hc).
  rewrite (rep_keys h centries cv Hrep).
  generalize (@nil (page * Q)). induction (keys cv) as [|k ks IH]; intros acc;
    [reflexivity|].
  cbn [Store.for_eachM for_each].
  unfold Store.bindM at 1. unfold Store.bindM at 1.
  rewrite (load_corpus h c centries Hc), (rep_length h centries cv Hrep).
  unfold Store.bindM at 1, Store.lift at 1.
  destruct (fdiv 1 (float_of_nat (length cv))) as [v|e]; [|reflexivity].
  cbn [bind]. unfold Store.ret at 1. apply IH.
Qed.
End SolverReads.

(** ** Writes to the heap *)

Lemma nth_error_update_same r o h :
  (r < length h)%nat -> nth_error (Store.update r o h) r = Some o.
Proof.
  revert r. induction h as [|o' h IH]; intros [|r] H; simpl in *; try lia.
  - reflexivity.
  - apply IH. lia.
Qed.

Lemma nth_error_update_other r r' o h :
  r' <> r -> nth_error (Store.update r o h) r' = nth_error h r'.
Proof.
  revert r r'. induction h as [|o' h IH]; intros [|r] [|r'] H; simpl;
    try reflexivity; try congruence.
  apply IH. congruence.
Qed.

Lemma update_app_r r o h0 ext :
  (length h0 <= r)%nat ->
  Store.update r o (h0 ++ ext) = h0 ++ Store.update (r - length h0) o ext.
Proof.
  revert r. induction h0 as [|o' h0 IH]; intros r H; simpl in *.
  - now rewrite Nat.sub_0_r.
  - destruct r as [|r]; [lia|]. simpl. f_equal. apply IH. lia.
Qed.

Lemma rep_set_item h entries rv k s x :
  rep h entries rv -> nth_error h s = Some (Store.SetObj x) ->
  rep h (set_item k s entries) (set_item k x rv).
Proof.
  intros R Hs. induction R as [|[k1 r1] [k2 s2] es d' [Hk Hr] Rt IH]; simpl.
  - constructor; [now split | constructor].
  - simpl in Hk, Hr. subst k2. destruct (String.eqb k k1).
    + constructor; [now split | assumption].
    + constructor; [now split | assumption].
Qed.

Lemma refs_set_item k (s : nat) (entries : dict nat) r :
  In r (map snd (set_item k s entries)) -> r = s \/ In r (map snd entries).
Proof.
  induction entries as [|[k1 r1] es IH]; simpl.
  - intros [H|[]]. now left.
  - destruct (String.eqb k k1); simpl; intros [H|H]; auto.
    apply IH in H. tauto.
Qed.

Lemma NoDup_set_item_refs k (s : nat) (entries : dict nat) :
  NoDup (map snd entries) -> ~ In s (map snd entries) ->
  NoDup (map snd (set_item k s entries)).
Proof.
  induction entries as [|[k1 r1] es IH]; simpl; intros ND N.
  - repeat constructor. simpl. tauto.
  - inversion ND; subst. destruct (String.eqb k k1); simpl.
    + constructor; [tauto | assumption].
    + constructor; [|apply IH; tauto].
      intros H. apply refs_set_item in H. destruct H as [->|H]; tauto.
Qed.

Lemma Forall_set_item {V : Type} (P : page * V -> Prop) k v (d : dict V) :
  (forall k', P (k', v)) -> Forall P d -> Forall P (set_item k v d).
Proof.
  intros Hv. induction 1 as [|[k1 v1] d' H1 Ht IH]; simpl.
  - repeat constructor. apply Hv.
  - destruct (String.eqb k k1); constructor; auto.
Qed.

Lemma rep_ref_bound h entries rv r :
  rep h entries rv -> In r (map snd entries) -> (r < length h)%nat.
Proof.
  induction 1 as [|e kv es d' [_ Hr] _ IH]; simpl; [tauto|].
  intros [<-|H]; [|now apply IH].
  apply nth_error_Some. congruence.
Qed.

Lemma get_ref_In k (entries : dict nat) r :
  get k entries = Some r -> In r (map snd entries).
Proof.
  intros H. apply get_Some_In in H. change r with (snd (k, r)).
  now apply in_map.
Qed.

(** Adding to the set that [reverse[i]] refers to changes that entry of
    the reverse index and no other. *)
Lemma rep_update h entries rv i sref x :
  rep h entries rv -> NoDup (map snd entries) ->
  get i entries = Some sref ->
  rep (Store.update sref (Store.SetObj x) h) entries (set_item i x rv).
Proof.
  intros R. induction R as [|[k1 r1] [k2 s2] es d' [Hk Hr] Rt IH];
    intros ND G; simpl in *; [discriminate|].
  subst k2. inversion ND; subst.
  destruct (String.eqb i k1).
  - injection G as <-. constructor.
    + split; [reflexivity|]. simpl. apply nth_error_update_same.
      apply nth_error_Some. congruence.
    + apply (rep_agree h); [|assumption].
      intros r s Hs Hin. rewrite nth_error_update_other; [assumption|].
      intros ->. contradiction.
  - constructor; [|now apply IH].
    split; [reflexivity|]. simpl. rewrite nth_error_update_other; [assumption|].
    intros ->. apply H1. eapply get_ref_In; eauto.
Qed.

Section ReverseStore.
Variables (h0 : list Store.obj) (R : nat) (g : rng).

Lemma reverse_sets_store : forall ks ext rv,
  reverse_rep (length h0) (h0 ++ ext) R rv ->
  exists ext',
    Store.for_eachM ks
      (fun p (_ : unit) =>
         Store.bindM (Store.alloc (Store.SetObj []))
           (fun s => Store.dict_setitem R p s))
      tt (Store.mkWorld (h0 ++ ext) g)
    = (Ok tt, Store.mkWorld (h0 ++ ext') g)
    /\ reverse_rep (length h0) (h0 ++ ext') R
         (fold_left (fun reverse p => set_item p [] reverse) ks rv).
Proof.
  induction ks as [|p ks IH]; intros ext rv Inv.
  - exists ext. split; [reflexivity | assumption].
  - destruct Inv as (entries & HR & Hrep & ND & Hn & Hall).
    set (H := h0 ++ ext) in *.
    assert (RL : (R < length H)%nat) by (apply nth_error_Some; congruence).
    set (s := length H).
    set (H1 := H ++ [Store.SetObj []]).
    set (H2 := Store.update R (Store.DictObj (set_item p s entries)) H1).
    assert (E2 : H2 = h0 ++ Store.update (R - length h0)
                           (Store.DictObj (set_item p s entries))
                           (ext ++ [Store.SetObj []])).
    { unfold H2, H1, H. rewrite <- app_assoc. now apply update_app_r. }
    assert (Old : forall r, r <> R -> (r < length H)%nat ->
                    nth_error H2 r = nth_error H r).
    { intros r N L. unfold H2. rewrite nth_error_update_other by assumption.
      unfold H1. now rewrite nth_error_app1. }
    assert (Inv' : reverse_rep (length h0) H2 R (set_item p [] rv)).
    { exists (set_item p s entries). split.
      { unfold H2. apply nth_error_update_same. unfold H1.
        rewrite length_app. simpl. lia. }
      split.
      { apply rep_set_item.
        - apply (rep_agree H); [|assumption]. intros r x Hr Hin.
          rewrite Old; [assumption | | apply nth_error_Some; congruence].
          rewrite Forall_forall in Hall. apply in_map_iff in Hin.
          destruct Hin as (e & <- & He). now apply Hall.
        - unfold H2. rewrite nth_error_update_other by (unfold s; lia).
          unfold H1, s. rewrite nth_error_app2 by lia.
          now rewrite Nat.sub_diag. }
      split.
      { apply NoDup_set_item_refs; [assumption|]. intros Hin.
        apply (rep_ref_bound H entries rv) in Hin; [|assumption].
        unfold s in Hin. lia. }
      split; [assumption|].
      apply Forall_set_item; [|assumption]. intros k'. simpl.
      unfold s. split; [unfold H; rewrite length_app; lia | lia]. }
    rewrite E2 in Inv'.
    destruct (IH _ _ Inv') as (ext' & E & Inv'').
    exists ext'. split; [|assumption].
    cbn [Store.for_eachM]. unfold Store.bindM at 1. unfold Store.bindM at 1.
    unfold Store.alloc. cbn [Store.objects Store.gen].
    unfold Store.dict_setitem, Store.bindM at 1, Store.load_dict.
    cbn [Store.objects]. fold H. fold H1.
    assert (HR1 : nth_error H1 R = Some (Store.DictObj entries)).
    { unfold H1. now rewrite nth_error_app1. }
    rewrite HR1. unfold Store.store. cbn [Store.objects Store.gen].
    fold s. fold H2. rewrite E2. exact E.
Qed.

Variable key : page.

Lemma reverse_add_store i ext rv :
  reverse_rep (length h0) (h0 ++ ext) R rv ->
  exists ext',
    match (s <- getitem i rv ;;
           if negb (set_mem key s)
           then Ok (set_item i (set_add key s) rv)
           else Ok rv)
    with
    | Ok rv' =>
        Store.bindM (Store.dict_getitem R i) (fun s =>
        Store.bindM (Store.load_set s) (fun elems =>
        if negb (set_mem key elems)
        then Store.set_add_obj s key
        else Store.ret tt))
          (Store.mkWorld (h0 ++ ext) g)
        = (Ok tt, Store.mkWorld (h0 ++ ext') g)
        /\ reverse_rep (length h0) (h0 ++ ext') R rv'
    | Raise e =>
        Store.bindM (Store.dict_getitem R i) (fun s =>
        Store.bindM (Store.load_set s) (fun elems =>
        if negb (set_mem key elems)
        then Store.set_add_obj s key
        else Store.ret tt))
          (Store.mkWorld (h0 ++ ext) g)
        = (Raise e, Store.mkWorld (h0 ++ ext') g)
    end.
Proof.
  intros Inv. pose proof Inv as (entries & HR & Hrep & ND & Hn & Hall).
  pose proof (rep_get (h0 ++ ext) entries rv i Hrep) as G.
  unfold getitem.
  destruct (get i entries) as [sref|] eqn:Ge, (get i rv) as [s0|] eqn:Gv;
    try contradiction; cbn [bind].
  - assert (Hs : (length h0 <= sref)%nat /\ sref <> R).
    { rewrite Forall_forall in Hall.
      apply (Hall (i, sref)). now apply get_Some_In. }
    destruct (set_mem key s0) eqn:Mem; cbn [negb].
    + exists ext. split; [|assumption].
      cbv [Store.bindM Store.dict_getitem Store.load_dict Store.lift
           Store.load_set Store.ret getitem].
      repeat (progress (cbn [Store.objects Store.gen negb];
                        try rewrite HR; try rewrite Ge; try rewrite G;
                        try rewrite Mem)).
      reflexivity.
    + exists (Store.update (sref - length h0)
                (Store.SetObj (set_add key s0)) ext).
      rewrite <- update_app_r by tauto. split.
      * cbv [Store.bindM Store.dict_getitem Store.load_dict Store.lift
             Store.load_set Store.ret Store.set_add_obj Store.store getitem].
        repeat (progress (cbn [Store.objects Store.gen negb];
                          try rewrite HR; try rewrite Ge; try rewrite G;
                          try rewrite Mem)).
        reflexivity.
      * exists entries. split.
        { rewrite nth_error_update_other; [assumption|].
          destruct Hs as [_ N]. congruence. }
        split; [apply (rep_update _ _ _ _ _ _ Hrep ND Ge)|].
        split; [assumption|]. split; assumption.
  - exists ext.
    cbv [Store.bindM Store.dict_getitem Store.load_dict Store.lift getitem].
    repeat (progress (cbn [Store.objects Store.gen];
                      try rewrite HR; try rewrite Ge)).
    reflexivity.
Qed.

Lemma reverse_links_store : forall li ext rv,
  reverse_rep (length h0) (h0 ++ ext) R rv ->
  exists ext',
    match for_each li
            (fun i reverse =>
               s <- getitem i reverse ;;
               if negb (set_mem key s)
               then Ok (set_item i (set_add key s) reverse)
               else Ok reverse)
            rv
    with
    | Ok rv' =>
        Store.for_eachM li
          (fun i (_ : unit) =>
             Store.bindM (Store.dict_getitem R i) (fun s =>
             Store.bindM (Store.load_set s) (fun elems =>
             if negb (set_mem key elems)
             then Store.set_add_obj s key
             else Store.ret tt)))
          tt (Store.mkWorld (h0 ++ ext) g)
        = (Ok tt, Store.mkWorld (h0 ++ ext') g)
        /\ reverse_rep (length h0) (h0 ++ ext') R rv'
    | Raise e =>
        Store.for_eachM li
          (fun i (_ : unit) =>
             Store.bindM (Store.dict_getitem R i) (fun s =>
             Store.bindM (Store.load_set s) (fun elems =>
             if negb (set_mem key elems)
             then Store.set_add_obj s key
             else Store.ret tt)))
          tt (Store.mkWorld (h0 ++ ext) g)
        = (Raise e, Store.mkWorld (h0 ++ ext') g)
    end.
Proof.
  induction li as [|i li IH]; intros ext rv Inv.
  - exists ext. split; [reflexivity | assumption].
  - cbn [for_each Store.for_eachM].
    destruct (reverse_add_store i ext rv Inv) as (ext1 & Step).
    destruct (s <- getitem i rv ;;
              if negb (set_mem key s)
              then Ok (set_item i (set_add key s) rv)
              else Ok rv) as [rv1|e]; cbn [bind].
    + destruct Step as [E1 Inv1].
      destruct (IH ext1 rv1 Inv1) as (ext' & Rest). exists ext'.
      revert Rest.
      match goal with
      | |- context [for_each li ?body rv1] => destruct (for_each li body rv1)
      end; intros Rest.
      * destruct Rest as [E2 Inv2]. split; [|assumption].
        unfold Store.bindM at 1. rewrite E1. exact E2.
      * unfold Store.bindM at 1. rewrite E1. exact Rest.
    + exists ext1. unfold Store.bindM at 1. now rewrite Step.
Qed.
End ReverseStore.

Lemma rep_extend h0 ext entries d : rep h0 entries d -> rep (h0 ++ ext) entries d.
Proof.
  apply rep_agree. intros r s Hr _. rewrite nth_error_app1; [assumption|].
  apply nth_error_Some. congruence.
Qed.

Lemma nth_error_extend {A : Type} (h0 ext : list A) r x :
  nth_error h0 r = Some x -> nth_error (h0 ++ ext) r = Some x.
Proof.
  intros H. rewrite nth_error_app1; [assumption|].
  apply nth_error_Some. congruence.
Qed.

Lemma reverse_items_store h0 R g : forall items d,
  rep h0 items d ->
  forall ext rv,
  reverse_rep (length h0) (h0 ++ ext) R rv ->
  exists ext',
    match for_each d
            (fun (item : page * pyset) reverse =>
               for_each (snd item)
                 (fun i reverse =>
                    s <- getitem i reverse ;;
                    if negb (set_mem (fst item) s)
                    then Ok (set_item i (set_add (fst item) s) reverse)
                    else Ok reverse)
                 reverse)
            rv
    with
    | Ok rv' =>
        Store.for_eachM items
          (fun (item : page * nat) (_ : unit) =>
             Store.bindM (Store.load_set (snd item)) (fun li =>
             Store.for_eachM li
               (fun i (_ : unit) =>
                  Store.bindM (Store.dict_getitem R i) (fun s =>
                  Store.bindM (Store.load_set s) (fun elems =>
                  if negb (set_mem (fst item) elems)
                  then Store.set_add_obj s (fst item)
                  else Store.ret tt)))
               tt))
          tt (Store.mkWorld (h0 ++ ext) g)
        = (Ok tt, Store.mkWorld (h0 ++ ext') g)
        /\ reverse_rep (length h0) (h0 ++ ext') R rv'
    | Raise e =>
        Store.for_eachM items
          (fun (item : page * nat) (_ : unit) =>
             Store.bindM (Store.load_set (snd item)) (fun li =>
             Store.for_eachM li
               (fun i (_ : unit) =>
                  Store.bindM (Store.dict_getitem R i) (fun s =>
                  Store.bindM (Store.load_set s) (fun elems =>
                  if negb (set_mem (fst item) elems)
                  then Store.set_add_obj s (fst item)
                  else Store.ret tt)))
               tt))
          tt (Store.mkWorld (h0 ++ ext) g)
        = (Raise e, Store.mkWorld (h0 ++ ext') g)
    end.
Proof.
  induction 1 as [|[k lref] [k' li] items d [Hk Hl] _ IH]; intros ext rv Inv.
  - exists ext. split; [reflexivity | assumption].
  - simpl in Hk, Hl. subst k'. cbn [for_each Store.for_eachM fst snd].
    assert (L : Store.load_set lref (Store.mkWorld (h0 ++ ext) g)
                = (Ok li, Store.mkWorld (h0 ++ ext) g)).
    { unfold Store.load_set. cbn [Store.objects].
      now rewrite (nth_error_extend h0 ext lref _ Hl). }
    destruct (reverse_links_store h0 R g k li ext rv Inv) as (ext1 & Step).
    revert Step.
    match goal with
    | |- context [for_each li ?body rv] => destruct (for_each li body rv) as [rv1|e]
    end; intros Step; cbn [bind].
    + destruct Step as [E1 Inv1].
      destruct (IH ext1 rv1 Inv1) as (ext' & Rest). exists ext'. revert Rest.
      match goal with
      | |- context [for_each d ?body rv1] => destruct (for_each d body rv1)
      end; intros Rest.
      * destruct Rest as [E2 Inv2]. split; [|assumption].
        unfold Store.bindM at 1. unfold Store.bindM at 1. rewrite L, E1.
        exact E2.
      * unfold Store.bindM at 1. unfold Store.bindM at 1. rewrite L, E1.
        exact Rest.
    + exists ext1. unfold Store.bindM at 1. unfold Store.bindM at 1.
      now rewrite L, Step.
Qed.

Section SolverStore.
Variables (h0 : list Store.obj) (c : nat).
Variables (centries : dict nat) (cv : dict pyset).
Hypothesis Hc : nth_error h0 c = Some (Store.DictObj centries).
Hypothesis Hrep : rep h0 centries cv.

Lemma reverse_corpus_store g :
  exists ext,
    match reverse_corpus cv with
    | Ok rv =>
        exists R,
          Store.reverse_corpus c (Store.mkWorld h0 g)
          = (Ok R, Store.mkWorld (h0 ++ ext) g)
          /\ reverse_rep (length h0) (h0 ++ ext) R rv
    | Raise e =>
        Store.reverse_corpus c (Store.mkWorld h0 g)
        = (Raise e, Store.mkWorld (h0 ++ ext) g)
    end.
Proof.
  set (R := length h0).
  assert (Inv0 : reverse_rep (length h0) (h0 ++ [Store.DictObj []]) R []).
  { exists []. split.
    { unfold R. rewrite nth_error_app2 by lia. now rewrite Nat.sub_diag. }
    split; [constructor|]. split; [constructor|]. split; [unfold R; lia|].
    constructor. }
  destruct (reverse_sets_store h0 R g (keys centries) _ _ Inv0)
    as (ext1 & E1 & Inv1).
  rewrite (rep_keys h0 centries cv Hrep) in Inv1.
  destruct (reverse_items_store h0 R g centries cv Hrep ext1 _ Inv1)
    as (ext2 & Step).
  assert (L : forall ext,
    Store.load_dict c (Store.mkWorld (h0 ++ ext) g)
    = (Ok centries, Store.mkWorld (h0 ++ ext) g)).
  { intros ext. unfold Store.load_dict. cbn [Store.objects].
    now rewrite (nth_error_extend h0 ext c _ Hc). }
  exists ext2. unfold reverse_corpus. revert Step.
  match goal with
  | |- context [for_each cv ?body ?acc] => destruct (for_each cv body acc) as [rv|e]
  end; intros Step.
  - destruct Step as [E2 Inv2]. exists R. split; [|assumption].
    unfold Store.reverse_corpus. unfold Store.bindM at 1.
    unfold Store.alloc at 1. cbn [Store.objects Store.gen]. fold R.
    unfold Store.bindM at 1. rewrite L.
    unfold Store.bindM at 1. rewrite E1.
    unfold Store.bindM at 1. rewrite L.
    unfold Store.bindM at 1. rewrite E2. reflexivity.
  - unfold Store.reverse_corpus. unfold Store.bindM at 1.
    unfold Store.alloc at 1. cbn [Store.objects Store.gen]. fold R.
    unfold Store.bindM at 1. rewrite L.
    unfold Store.bindM at 1. rewrite E1.
    unfold Store.bindM at 1. rewrite L.
    unfold Store.bindM at 1. rewrite Step. reflexivity.
Qed.

(** The solver over the store computes what the solver over values
    computes, leaves every object it found as it was, and does not
    touch the generator. *)
Lemma iterate_pagerank_store d fuel g :
  exists ext,
    Store.iterate_pagerank c d fuel (Store.mkWorld h0 g)
    = option_map (fun r => (r, Store.mkWorld (h0 ++ ext) g))
        (iterate_pagerank cv d fuel).
Proof.
  unfold Store.iterate_pagerank, iterate_pagerank.
  rewrite (initial_ranks_store h0 c centries cv Hc Hrep).
  destruct (initial_ranks cv) as [ranks|e].
  2: { exists []. now rewrite app_nil_r. }
  destruct (reverse_corpus_store g) as (ext & Step). exists ext.
  destruct (reverse_corpus cv) as [rv|e].
  - destruct Step as (R & -> & (rentries & HR & HrepR & _)).
    apply (iterate_loop_store (h0 ++ ext) c R centries rentries cv rv).
    + now apply nth_error_extend.
    + now apply rep_extend.
    + assumption.
    + assumption.
  - now rewrite Step.
Qed.
End SolverStore.

Lemma read_corpus_rep h c cv :
  Store.read_corpus h c = Some cv <->
  exists centries, nth_error h c = Some (Store.DictObj centries)
                   /\ rep h centries cv.
Proof.
  unfold Store.read_corpus. split.
  - destruct (nth_error h c) as [[s|centries]|]; try discriminate.
    intros H. exists centries. split; [reflexivity|].
    now apply read_entries_rep.
  - intros (centries & -> & H). now apply read_entries_rep.
Qed.

Lemma read_corpus_extend h0 ext c cv :
  Store.read_corpus h0 c = Some cv -> Store.read_corpus (h0 ++ ext) c = Some cv.
Proof.
  intros (centries & Hc & Hrep)%read_corpus_rep. apply read_corpus_rep.
  exists centries. split; [now apply nth_error_extend | now apply rep_extend].
Qed.

(** C7. [iterate_pagerank] is deterministic: two calls on references that
    denote the same corpus, with the same damping factor, return the same
    result whatever the state of the random generator and whatever else
    the two stores hold; the result is the one computed from the corpus
    alone, and the call leaves the generator as it found it. *)
Theorem iterate_pagerank_deterministic (c1 c2 : nat) (cv : dict pyset)
    (d : Q) (fuel : nat) (w1 w2 : Store.world) :
  Store.read_corpus (Store.objects w1) c1 = Some cv ->
  Store.read_corpus (Store.objects w2) c2 = Some cv ->
  option_map fst (Store.iterate_pagerank c1 d fuel w1)
  = option_map fst (Store.iterate_pagerank c2 d fuel w2)
  /\ option_map fst (Store.iterate_pagerank c1 d fuel w1)
     = iterate_pagerank cv d fuel
  /\ forall r w1',
       Store.iterate_pagerank c1 d fuel w1 = Some (r, w1') ->
       Store.gen w1' = Store.gen w1.
Proof.
  intros (e1 & Hc1 & Hr1)%read_corpus_rep (e2 & Hc2 & Hr2)%read_corpus_rep.
  destruct w1 as [h1 g1], w2 as [h2 g2]. cbn [Store.objects] in *.
  destruct (iterate_pagerank_store h1 c1 e1 cv Hc1 Hr1 d fuel g1) as (x1 & E1).
  destruct (iterate_pagerank_store h2 c2 e2 cv Hc2 Hr2 d fuel g2) as (x2 & E2).
  rewrite E1, E2.
  destruct (iterate_pagerank cv d fuel) as [r|]; cbn [option_map fst].
  - repeat split. now intros r' w' [= _ <-].
  - repeat split. discriminate.
Qed.

Lemma iterate_pagerank_deterministic_witness :
  option_map fst
    (Store.iterate_pagerank 2 (85 # 100) 1 Store.ex_world)
  = option_map fst
      (Store.iterate_pagerank 2 (85 # 100) 1
         (Store.mkWorld (Store.objects Store.ex_world)
            (mkRng (fun _ => 7%N) 5)))
  /\ option_map fst (Store.iterate_pagerank 2 (85 # 100) 1 Store.ex_world)
     = iterate_pagerank ex_pair (85 # 100) 1
  /\ forall r w1',
       Store.iterate_pagerank 2 (85 # 100) 1 Store.ex_world = Some (r, w1') ->
       Store.gen w1' = Store.gen Store.ex_world.
Proof.
  apply (iterate_pagerank_deterministic 2 2 ex_pair (85 # 100) 1
           Store.ex_world).
  - reflexivity.
  - reflexivity.
Defined.

(** C9. Neither [sample_pagerank] nor [iterate_pagerank] mutates the
    corpus it is given: the sampler leaves every object of the store as it
    was; the solver only adds objects of its own (the reverse index and
    its sets) after those it found; in both cases the reference still
    denotes the same corpus, keys and out-neighbour sets, also when the
    call ends with an exception. *)
Theorem corpus_not_mutated (c : nat) (cv : dict pyset) (d : Q) (n : Z)
    (fuel : nat) (w : Store.world) :
  Store.read_corpus (Store.objects w) c = Some cv ->
  (forall r w',
     Store.sample_pagerank c d n w = (r, w') ->
     Store.objects w' = Store.objects w
     /\ Store.read_corpus (Store.objects w') c = Some cv)
  /\ (forall r w',
        Store.iterate_pagerank c d fuel w = Some (r, w') ->
        (exists ext, Store.objects w' = Store.objects w ++ ext)
        /\ Store.read_corpus (Store.objects w') c = Some cv).
Proof.
  intros Hread. pose proof Hread as (centries & Hc & Hrep)%read_corpus_rep.
  destruct w as [h g]. cbn [Store.objects] in *. split.
  - intros r w' E.
    destruct (sample_pagerank_store h c centries cv Hc Hrep d n g) as (g' & E').
    rewrite E' in E. injection E as _ <-. now split.
  - intros r w' E.
    destruct (iterate_pagerank_store h c centries cv Hc Hrep d fuel g) as (ext & E').
    rewrite E' in E. destruct (iterate_pagerank cv d fuel); [|discriminate].
    injection E as _ <-. cbn [Store.objects]. split; [now exists ext|].
    now apply read_corpus_extend.
Qed.

Lemma corpus_not_mutated_witness :
  (forall r w',
     Store.sample_pagerank 2 (85 # 100) 4 Store.ex_world = (r, w') ->
     Store.objects w' = Store.objects Store.ex_world
     /\ Store.read_corpus (Store.objects w') 2 = Some ex_pair)
  /\ (forall r w',
        Store.iterate_pagerank 2 (85 # 100) 1 Store.ex_world = Some (r, w') ->
        (exists ext, Store.objects w' = Store.objects Store.ex_world ++ ext)
        /\ Store.read_corpus (Store.objects w') 2 = Some ex_pair).
Proof.
  apply (corpus_not_mutated 2 ex_pair (85 # 100) 4 1 Store.ex_world).
  reflexivity.
Defined.

(** * Termination of the solver

    With [0 < d < 1] a pass of the solver narrows the interval that holds
    the ratios between the new and the old rank of the pages: if they lie
    in [[m, kappa * m]] before a pass, they lie in an interval of ratio
    [1 + (1 - (1-d)/N) * (kappa - 1)] after it.  The largest change of a
    rank is at most [kappa - 1], so it falls under the threshold. *)

Lemma sumQ_filter_le {A : Type} (f : A -> Q) (P : A -> bool) (l : list A) :
  (forall a, In a l -> 0 <= f a) ->
  sumQ (map f (filter P l)) <= sumQ (map f l).
Proof.
  induction l as [|a l IH]; intros H; simpl; [lra|].
  assert (0 <= f a) by (apply H; now left).
  assert (sumQ (map f (filter P l)) <= sumQ (map f l))
    by (apply IH; intros b Hb; apply H; now right).
  destruct (P a); simpl; lra.
Qed.

Lemma sumQ_scale_l {A : Type} x (f : A -> Q) (l : list A) :
  sumQ (map (fun a => x * f a) l) == x * sumQ (map f l).
Proof.
  induction l as [|a l IH]; simpl; [ring|]. rewrite IH. ring.
Qed.

Lemma Qdiv_le_compat a b z : 0 <= z -> a <= b -> a / z <= b / z.
Proof.
  intros Hz H. unfold Qdiv. apply Qmult_le_compat_r; [assumption|].
  now apply Qinv_le_0_compat.
Qed.

Lemma float_of_nat_ge_1 n : (1 <= n)%nat -> 1 <= float_of_nat n.
Proof.
  intros H. unfold float_of_nat, Qle. simpl. lia.
Qed.

Section Convergence.
Variables (c : corpus) (d : Q).
Hypothesis NE : nonempty c = true.
Hypothesis Hd : 0 < d < 1.

Abbreviation c0 := (jump_share c d).

Lemma c0_bounds : 0 < c0 /\ c0 <= 1 - d.
Proof.
  pose proof (float_of_nat_ge_1 (length c) (nonempty_length c NE)) as HN.
  unfold jump_share. split.
  - apply Qlt_shift_div_l; lra.
  - apply Qle_shift_div_r; [lra | nra].
Qed.

Lemma spec_formula_share rank p :
  spec_formula c d rank p = c0 + d * link_share c rank p.
Proof.
  reflexivity.
Qed.

Lemma out_degree_linking p q :
  In q (pages_linking_to c p) -> 1 <= out_degree c q.
Proof.
  intros H. apply pages_linking_to_In in H. unfold out_degree.
  apply float_of_nat_ge_1. destruct (out_neighbors c q); [destruct H | simpl; lia].
Qed.

Lemma link_share_mono x y p :
  (forall q, In q (keys c) -> x q <= y q) ->
  link_share c x p <= link_share c y p.
Proof.
  intros H. unfold link_share. apply sumQ_le. intros q Hq.
  apply Qdiv_le_compat; [apply float_of_nat_nonneg|].
  apply H. eapply pages_linking_to_keys; eauto.
Qed.

Lemma link_share_scale m x p :
  link_share c (fun q => m * x q) p == m * link_share c x p.
Proof.
  unfold link_share. rewrite <- sumQ_scale_l. apply sumQ_ext.
  intros q _. unfold Qdiv. ring.
Qed.

Lemma link_share_nonneg x p :
  (forall q, In q (keys c) -> 0 <= x q) -> 0 <= link_share c x p.
Proof.
  intros H. unfold link_share. apply sumQ_nonneg. intros q Hq.
  apply Qdiv_nonneg; [|apply float_of_nat_nonneg].
  apply H. eapply pages_linking_to_keys; eauto.
Qed.

Lemma link_share_le_sum x p :
  (forall q, In q (keys c) -> 0 <= x q) ->
  link_share c x p <= sumQ (map x (keys c)).
Proof.
  intros H. unfold link_share.
  apply Qle_trans with (sumQ (map x (pages_linking_to c p))).
  - apply sumQ_le. intros q Hq.
    pose proof (out_degree_linking p q Hq) as Hdeg.
    assert (0 <= x q) by (apply H; eapply pages_linking_to_keys; eauto).
    apply Qle_shift_div_r; [lra | nra].
  - unfold pages_linking_to. now apply sumQ_filter_le.
Qed.

Lemma good_nonneg rank :
  good c rank -> forall q, In q (keys c) -> 0 <= rank q.
Proof.
  intros [H _] q Hq. apply Qlt_le_weak. now apply H.
Qed.

Lemma good_le_1 rank p : good c rank -> In p (keys c) -> rank p <= 1.
Proof.
  intros G Hp. destruct G as [Hpos Hsum]. rewrite <- Hsum.
  apply sumQ_member; [|assumption].
  intros q Hq. apply Qlt_le_weak. now apply Hpos.
Qed.

Lemma formula_le_1 rank p : good c rank -> spec_formula c d rank p <= 1.
Proof.
  intros G. rewrite spec_formula_share.
  pose proof (link_share_le_sum rank p (good_nonneg rank G)) as H.
  pose proof (link_share_nonneg rank p (good_nonneg rank G)) as H0.
  destruct G as [_ Hsum]. rewrite Hsum in H.
  destruct c0_bounds. nra.
Qed.

Lemma formula_floor rank p : good c rank -> c0 <= spec_formula c d rank p.
Proof.
  intros G. rewrite spec_formula_share.
  pose proof (link_share_nonneg rank p (good_nonneg rank G)) as H0. nra.
Qed.

Lemma formula_sum_pos rank :
  good c rank -> 0 < sumQ (map (spec_formula c d rank) (keys c)).
Proof.
  intros G. destruct (nonempty_has_key c NE) as [p0 Hp0].
  destruct c0_bounds as [Hc0 _].
  apply Qlt_le_trans with (spec_formula c d rank p0).
  - pose proof (formula_floor rank p0 G). lra.
  - apply sumQ_member; [|assumption]. intros q _.
    pose proof (formula_floor rank q G). lra.
Qed.

Lemma step_times_sum rank p :
  good c rank ->
  spec_step c d rank p * sumQ (map (spec_formula c d rank) (keys c))
  == spec_formula c d rank p.
Proof.
  intros G. pose proof (formula_sum_pos rank G). unfold spec_step.
  field. lra.
Qed.

Lemma good_step rank : good c rank -> good c (spec_step c d rank).
Proof.
  intros G. pose proof (formula_sum_pos rank G) as Hs. split.
  - intros p Hp. unfold spec_step. apply Qlt_shift_div_l; [assumption|].
    pose proof (formula_floor rank p G). destruct c0_bounds. lra.
  - unfold spec_step.
    rewrite (sumQ_ext _ (fun p => spec_formula c d rank p
                                   * / sumQ (map (spec_formula c d rank) (keys c))))
      by (intros; reflexivity).
    rewrite sumQ_scale. field. lra.
Qed.

Lemma within_bounds old new kappa m :
  good c old -> good c new ->
  (forall p, In p (keys c) ->
     m * old p <= new p /\ new p <= kappa * m * old p) ->
  m <= 1 /\ 1 <= kappa * m.
Proof.
  intros [_ So] [_ Sn] H. split.
  - assert (L : sumQ (map (fun p => m * old p) (keys c))
                <= sumQ (map new (keys c)))
      by (apply sumQ_le; intros p Hp; now apply H).
    rewrite sumQ_scale_l, So, Sn in L. lra.
  - assert (L : sumQ (map new (keys c))
                <= sumQ (map (fun p => kappa * m * old p) (keys c)))
      by (apply sumQ_le; intros p Hp; now apply H).
    rewrite sumQ_scale_l, So, Sn in L. lra.
Qed.

Lemma narrowing m M k :
  0 < m -> m <= 1 -> 1 <= k -> M == k * m ->
  M - c0 * (M - 1) <= (1 + (1 - c0) * (k - 1)) * (m + c0 * (1 - m)).
Proof.
  intros Hm Hm1 Hk HM. destruct c0_bounds as [Hc Hc1]. rewrite HM.
  assert (E : (1 + (1 - c0) * (k - 1)) * (m + c0 * (1 - m))
              - (k * m - c0 * (k * m - 1))
              == (1 - c0) * (k - 1) * (c0 * (1 - m))) by ring.
  assert (0 <= (1 - c0) * (k - 1) * (c0 * (1 - m))).
  { apply Qmult_le_0_compat; apply Qmult_le_0_compat; lra. }
  lra.
Qed.

(** One pass narrows the interval of the ratios. *)
Lemma within_step rank kappa :
  good c rank -> 1 <= kappa ->
  within c rank (spec_step c d rank) kappa ->
  within c (spec_step c d rank) (spec_step c d (spec_step c d rank))
    (1 + (1 - c0) * (kappa - 1)).
Proof.
  intros G Hk (m & Hm & Hb).
  pose proof (good_step rank G) as G'.
  destruct (within_bounds _ _ _ _ G G' Hb) as [Hm1 HM1].
  pose proof (formula_sum_pos rank G) as Hs.
  pose proof (formula_sum_pos _ G') as Hs'.
  destruct c0_bounds as [Hc Hc1].
  set (r' := spec_step c d rank) in *.
  set (s := sumQ (map (spec_formula c d rank) (keys c))) in *.
  set (s' := sumQ (map (spec_formula c d r') (keys c))) in *.
  set (m1 := m + c0 * (1 - m)).
  assert (Hm1pos : 0 < m1) by (unfold m1; nra).
  exists (m1 * s / s'). split.
  { apply Qlt_shift_div_l; [assumption | nra]. }
  intros p Hp.
  pose proof (step_times_sum rank p G) as HB. fold r' s in HB.
  pose proof (step_times_sum r' p G') as HB'. fold s' in HB'.
  pose proof (formula_le_1 rank p G) as B1.
  pose proof (formula_floor rank p G) as B0.
  assert (Hlo : m * link_share c rank p <= link_share c r' p).
  { rewrite <- link_share_scale. apply link_share_mono.
    intros q Hq. now apply Hb. }
  assert (Hhi : link_share c r' p <= kappa * m * link_share c rank p).
  { rewrite <- link_share_scale. apply link_share_mono.
    intros q Hq. now apply Hb. }
  pose proof (link_share_nonneg rank p (good_nonneg rank G)) as L0.
  rewrite spec_formula_share in HB, B1, B0.
  rewrite spec_formula_share in HB'.
  set (a := link_share c rank p) in *.
  set (a' := link_share c r' p) in *.
  set (b := c0 + d * a) in *.
  set (b' := c0 + d * a') in *.
  assert (Lo : m1 * b <= b').
  { unfold m1, b, b'. destruct Hd.
    assert (d * (m * a) <= d * a') by (apply Qmult_le_l; lra).
    assert (0 <= (c0 * (1 - m)) * (1 - (c0 + d * a)))
      by (apply Qmult_le_0_compat; [nra | unfold b in B1; lra]).
    nra. }
  assert (Hi : b' <= (kappa * m - c0 * (kappa * m - 1)) * b).
  { unfold b, b'. destruct Hd.
    assert (d * a' <= d * (kappa * m * a)) by (apply Qmult_le_l; lra).
    assert (0 <= (c0 * (kappa * m - 1)) * (1 - (c0 + d * a)))
      by (apply Qmult_le_0_compat; [nra | unfold b in B1; lra]).
    nra. }
  assert (Nar : kappa * m - c0 * (kappa * m - 1)
                <= (1 + (1 - c0) * (kappa - 1)) * m1).
  { unfold m1. apply narrowing; (assumption || reflexivity). }
  assert (Hr' : 0 <= r' p).
  { apply good_nonneg with (rank := r'); assumption. }
  assert (Hb0 : 0 <= b) by lra.
  split.
  - apply (Qmult_le_r _ _ s'); [assumption|]. rewrite HB'.
    assert (E : m1 * s / s' * r' p * s' == m1 * (r' p * s)) by (field; lra).
    rewrite E, HB. exact Lo.
  - apply (Qmult_le_r _ _ s'); [assumption|]. rewrite HB'.
    assert (E : (1 + (1 - c0) * (kappa - 1)) * (m1 * s / s') * r' p * s'
                == (1 + (1 - c0) * (kappa - 1)) * m1 * (r' p * s))
      by (field; lra).
    rewrite E, HB.
    apply Qle_trans with ((kappa * m - c0 * (kappa * m - 1)) * b);
      [exact Hi|].
    apply Qmult_le_compat_r; assumption.
Qed.

Lemma within_weaken old new kappa kappa' :
  (forall p, In p (keys c) -> 0 <= old p) -> kappa <= kappa' ->
  within c old new kappa -> within c old new kappa'.
Proof.
  intros Ho Hk (m & Hm & Hb). exists m. split; [assumption|].
  intros p Hp. destruct (Hb p Hp) as [H1 H2]. split; [assumption|].
  specialize (Ho p Hp).
  apply Qle_trans with (kappa * m * old p); [assumption|].
  apply Qmult_le_compat_r; [|assumption]. apply Qmult_le_compat_r; lra.
Qed.

(** The largest change is bounded by the width of the interval. *)
Lemma within_change old new kappa :
  good c old -> good c new -> 1 <= kappa -> within c old new kappa ->
  spec_max_change c old new <= kappa - 1.
Proof.
  intros Go Gn Hk (m & Hm & Hb).
  destruct (within_bounds _ _ _ _ Go Gn Hb) as [Hm1 HM1].
  apply spec_max_change_le; [lra|]. intros p Hp.
  destruct (Hb p Hp) as [H1 H2].
  pose proof (good_le_1 old p Go Hp) as O1.
  pose proof (good_nonneg old Go p Hp) as O0.
  apply Qabs_Qle_condition. split.
  - assert (0 <= (1 - m) * (1 - old p))
      by (apply Qmult_le_0_compat; lra).
    assert (0 <= (kappa - 1) * (1 - m))
      by (apply Qmult_le_0_compat; lra).
    nra.
  - assert (0 <= (kappa * m - 1) * (1 - old p))
      by (apply Qmult_le_0_compat; lra).
    assert (0 <= kappa * (1 - m)) by (apply Qmult_le_0_compat; lra).
    nra.
Qed.

Lemma qpow_bound q :
  0 <= q <= 1 ->
  forall n, 0 <= qpow q n
            /\ qpow q n * (1 + float_of_nat n * (1 - q)) <= 1.
Proof.
  intros [H0 H1]. induction n as [|n [IH0 IH]].
  - cbn [qpow]. change (float_of_nat 0) with 0. split; lra.
  - cbn [qpow]. pose proof (float_of_nat_nonneg n) as Hn.
    rewrite float_of_nat_S. split; [nra|].
    set (P := qpow q n) in *. set (x := float_of_nat n) in *.
    assert (A : q * (1 + (1 + x) * (1 - q)) <= 1 + x * (1 - q)).
    { assert (E : 1 + x * (1 - q) - q * (1 + (1 + x) * (1 - q))
                  == (1 - q) * (1 - q) * (1 + x)) by ring.
      assert (0 <= (1 - q) * (1 - q) * (1 + x))
        by (repeat apply Qmult_le_0_compat; lra).
      lra. }
    assert (B : 0 <= 1 + x * (1 - q)) by nra.
    assert (M : q * (1 + (1 + x) * (1 - q)) * P <= (1 + x * (1 - q)) * P)
      by (apply Qmult_le_compat_r; assumption).
    assert (E1 : q * P * (1 + (1 + x) * (1 - q))
                 == q * (1 + (1 + x) * (1 - q)) * P) by ring.
    assert (E2 : (1 + x * (1 - q)) * P == P * (1 + x * (1 - q))) by ring.
    lra.
Qed.

Lemma qpow_small q C eps :
  0 <= q -> q < 1 -> 0 <= C -> 0 < eps ->
  exists n, C * qpow q n <= eps.
Proof.
  intros H0 H1 HC He.
  set (x := C / (eps * (1 - q))).
  assert (Hden : 0 < eps * (1 - q)) by nra.
  assert (Hx : 0 <= x) by (unfold x; apply Qdiv_nonneg; lra).
  pose proof (Qle_ceiling x) as Hceil.
  set (z := Qceiling x) in *.
  assert (Hz : (0 <= z)%Z).
  { assert (L : 0 <= inject_Z z) by lra. unfold Qle in L. simpl in L. lia. }
  exists (Z.to_nat z).
  destruct (qpow_bound q (conj H0 (Qlt_le_weak _ _ H1)) (Z.to_nat z)) as [P0 P1].
  unfold float_of_nat in P1. rewrite Z2Nat.id in P1 by assumption.
  set (P := qpow q (Z.to_nat z)) in *. set (n := inject_Z z) in *.
  assert (HCn : C <= n * (eps * (1 - q))).
  { apply (Qmult_le_r _ _ (eps * (1 - q))) in Hceil; [|assumption].
    assert (E : x * (eps * (1 - q)) == C) by (unfold x; field; lra).
    rewrite E in Hceil. exact Hceil. }
  assert (Hn0 : 0 <= n) by lra.
  assert (C * P <= n * (eps * (1 - q)) * P)
    by (apply Qmult_le_compat_r; assumption).
  assert (0 <= eps * P) by (apply Qmult_le_0_compat; lra).
  nra.
Qed.

Lemma spec_loop_terminates : forall j rank e,
  good c rank -> 0 <= e ->
  within c rank (spec_step c d rank) (1 + e) ->
  e * qpow (1 - c0) j <= threshold ->
  exists fuel rank', spec_loop fuel c d rank = Some rank'.
Proof.
  destruct c0_bounds as [Hc Hc1]. destruct Hd as [Hd0 Hd1].
  induction j as [|j IH]; intros rank e G He W Hsmall.
  - exists 1%nat, (spec_step c d rank). cbn [spec_loop].
    assert (L : spec_max_change c rank (spec_step c d rank) <= 1 + e - 1).
    { apply within_change; [assumption | now apply good_step | lra | assumption]. }
    simpl in Hsmall.
    assert (Qle_bool (spec_max_change c rank (spec_step c d rank)) threshold
            = true) as -> by (apply Qle_bool_iff; lra).
    reflexivity.
  - destruct (Qle_bool (spec_max_change c rank (spec_step c d rank)) threshold)
      eqn:B.
    + exists 1%nat, (spec_step c d rank). cbn [spec_loop]. now rewrite B.
    + destruct (IH (spec_step c d rank) ((1 - c0) * e)) as (fuel & rank' & E).
      * now apply good_step.
      * apply Qmult_le_0_compat; lra.
      * apply within_weaken with (kappa := 1 + (1 - c0) * (1 + e - 1)).
        -- apply good_nonneg. now apply good_step.
        -- lra.
        -- apply within_step; [assumption | lra | assumption].
      * cbn [qpow] in Hsmall.
        assert ((1 - c0) * e * qpow (1 - c0) j
                == e * ((1 - c0) * qpow (1 - c0) j)) by ring.
        lra.
      * exists (S fuel), rank'. cbn [spec_loop]. now rewrite B.
Qed.

Lemma length_keys {V : Type} (x : dict V) : length (keys x) = length x.
Proof.
  apply length_map.
Qed.

Lemma initial_good : good c (fun _ => 1 / float_of_nat (length c)).
Proof.
  pose proof (float_of_nat_ge_1 (length c) (nonempty_length c NE)) as HN.
  split.
  - intros p _. apply Qlt_shift_div_l; lra.
  - rewrite sumQ_const, length_keys. field. lra.
Qed.

Lemma initial_within :
  within c (fun _ => 1 / float_of_nat (length c))
    (spec_step c d (fun _ => 1 / float_of_nat (length c)))
    (float_of_nat (length c) / c0).
Proof.
  pose proof (float_of_nat_ge_1 (length c) (nonempty_length c NE)) as HN.
  destruct c0_bounds as [Hc Hc1]. destruct Hd as [Hd0 Hd1].
  pose proof initial_good as G. pose proof (good_step _ G) as G'.
  set (r0 := fun _ : page => 1 / float_of_nat (length c)) in *.
  set (N := float_of_nat (length c)) in *.
  pose proof (formula_sum_pos r0 G) as Hs.
  assert (HsN : sumQ (map (spec_formula c d r0) (keys c)) <= N).
  { apply Qle_trans with (sumQ (map (fun _ => 1) (keys c))).
    - apply sumQ_le. intros p _. now apply formula_le_1.
    - rewrite sumQ_const, length_keys. fold N. lra. }
  exists c0. split; [assumption|]. intros p Hp. split.
  - pose proof (step_times_sum r0 p G) as HB.
    pose proof (formula_floor r0 p G) as B0.
    set (s := sumQ (map (spec_formula c d r0) (keys c))) in *.
    apply (Qmult_le_r _ _ s); [assumption|]. rewrite HB.
    change (r0 p) with (1 / N).
    assert (E : c0 * (1 / N) * s == c0 * (s / N)) by (field; lra).
    rewrite E.
    assert (s / N <= 1) by (apply Qle_shift_div_r; lra).
    nra.
  - pose proof (good_le_1 _ p G' Hp) as L.
    change (r0 p) with (1 / N).
    assert (E : N / c0 * c0 * (1 / N) == 1) by (field; lra).
    rewrite E. exact L.
Qed.

Lemma spec_iterate_terminates :
  exists fuel rank, spec_iterate c d fuel = Some rank.
Proof.
  pose proof (float_of_nat_ge_1 (length c) (nonempty_length c NE)) as HN.
  destruct c0_bounds as [Hc Hc1]. destruct Hd as [Hd0 Hd1].
  set (e := float_of_nat (length c) / c0 - 1).
  assert (He : 0 <= e).
  { unfold e. assert (1 <= float_of_nat (length c) / c0)
      by (apply Qle_shift_div_l; lra). lra. }
  destruct (qpow_small (1 - c0) e threshold) as [j Hj];
    [lra | lra | assumption | reflexivity |].
  unfold spec_iterate.
  apply (spec_loop_terminates j _ e); try assumption.
  - apply initial_good.
  - apply within_weaken with (kappa := float_of_nat (length c) / c0).
    + apply good_nonneg, initial_good.
    + unfold e. lra.
    + apply initial_within.
Qed.
End Convergence.

Lemma iterate_loop_more c d reverse : forall fuel ranks r,
  iterate_loop fuel c d reverse ranks = Some r ->
  forall fuel', (fuel <= fuel')%nat ->
  iterate_loop fuel' c d reverse ranks = Some r.
Proof.
  induction fuel as [|fuel IH]; intros ranks r E fuel' L; [discriminate|].
  destruct fuel' as [|fuel']; [lia|]. cbn [iterate_loop] in *.
  destruct (iteration c d reverse ranks) as [[new_rank m]|e]; [|assumption].
  destruct (Qle_bool m threshold); [assumption|].
  apply IH; [assumption | lia].
Qed.

Lemma iterate_pagerank_more c d fuel fuel' r :
  iterate_pagerank c d fuel = Some r -> (fuel <= fuel')%nat ->
  iterate_pagerank c d fuel' = Some r.
Proof.
  unfold iterate_pagerank. destruct (initial_ranks c); [|tauto].
  destruct (reverse_corpus c); [|tauto].
  intros E L. eapply iterate_loop_more; eauto.
Qed.

(** The loop of the solver ends: with enough fuel it returns a mapping. *)
Lemma iterate_pagerank_terminates c d :
  well_formed c = true -> nonempty c = true -> self_contained c = true ->
  0 < d < 1 ->
  exists fuel ranks, iterate_pagerank c d fuel = Some (Ok ranks).
Proof.
  intros WF NE SC Hd.
  destruct (spec_iterate_terminates c d NE Hd) as (fuel & rank & E).
  exists fuel.
  destruct (iterate_pagerank_unfold c d fuel WF NE SC) as (reverse & _ & Inv & ->).
  assert (R0 : forall p, In p (keys c) ->
            rank_of (map (fun k => (k, 1 / float_of_nat (length c))) (keys c)) p
            == 1 / float_of_nat (length c)).
  { intros p Hp.
    now rewrite (rank_of_map_keys (fun _ => 1 / float_of_nat (length c))). }
  pose proof (iterate_loop_refines c d reverse WF NE Hd Inv fuel
                (map (fun k => (k, 1 / float_of_nat (length c))) (keys c))
                (fun _ => 1 / float_of_nat (length c))
                (initial_ranks_positive c NE) R0) as H.
  unfold spec_iterate in E. rewrite E in H.
  destruct (iterate_loop _ _ _ _ _) as [[out|e]|]; try contradiction.
  now exists out.
Qed.






(** * Further properties of the engine *)

(** X1. [transition_model] fails only on a page that is not a key of the
    corpus, and then with [KeyError]; for a key it returns, whatever the
    damping factor (no division of it is by zero). *)
Theorem transition_model_raises_iff (c : corpus) (p : page) (d : Q) :
  well_formed c = true ->
  (In p (keys c) -> exists output, transition_model c p d = Ok output)
  /\ (~ In p (keys c) -> transition_model c p d = Raise KeyError).
Proof.
  intros WF. split.
  - intros Hp. destruct (In_keys_get _ _ Hp) as [links E].
    eexists. apply (transition_model_closed c p d links WF E).
  - intros Hp. apply get_None in Hp. unfold transition_model, getitem.
    now rewrite Hp.
Qed.

Lemma transition_model_raises_iff_witness :
  (In "a"%string (keys ex_c) ->
   exists output, transition_model ex_c "a"%string (85 # 100) = Ok output)
  /\ (~ In "z"%string (keys ex_c) ->
      transition_model ex_c "z"%string (85 # 100) = Raise KeyError).
Proof.
  split.
  - apply (transition_model_raises_iff ex_c "a"%string (85 # 100)).
    reflexivity.
  - apply (transition_model_raises_iff ex_c "z"%string (85 # 100)).
    reflexivity.
Defined.



Lemma model_value_floor c links d q :
  0 < d < 1 -> (0 < length (all_pages c))%nat ->
  0 < (1 - d) / float_of_nat (length (all_pages c))
  /\ (1 - d) / float_of_nat (length (all_pages c)) <= model_value c links d q.
Proof.
  intros [Hd0 Hd1] HN. apply float_of_nat_pos in HN.
  assert (J : 0 < (1 - d) / float_of_nat (length (all_pages c)))
    by (apply Qlt_shift_div_l; lra).
  split; [assumption|]. unfold model_value.
  assert (0 <= d / float_of_nat (length (all_pages c)))
    by (apply Qdiv_nonneg; lra).
  assert (0 <= d / float_of_nat (length links))
    by (apply Qdiv_nonneg; [lra | apply float_of_nat_nonneg]).
  destruct (negb (Nat.eqb (length links) 0)); [|lra].
  destruct (set_mem q links); lra.
Qed.

(** X3. With [0 < d < 1] the distribution of [transition_model] has full
    support: every page gets at least [(1 - d) / |distribution|], which is
    positive, and at most 1. *)
Theorem transition_model_full_support (c : corpus) (p : page) (d : Q) :
  well_formed c = true -> In p (keys c) -> 0 < d < 1 ->
  exists output,
    transition_model c p d = Ok output
    /\ forall q v, get q output = Some v ->
         0 < (1 - d) / float_of_nat (length output)
         /\ (1 - d) / float_of_nat (length output) <= v
         /\ v <= 1.
Proof.
  intros WF Hp Hd. destruct (In_keys_get _ _ Hp) as [links E].
  destruct (all_pages_facts c) as (ND & _ & Hk).
  destruct (transition_model_total c p d WF Hp) as (output & Eo & _ & Hs).
  exists output. split; [assumption|].
  rewrite (transition_model_closed c p d links WF E) in Eo.
  injection Eo as <-. intros q v G. rewrite length_map, length_keys.
  assert (Hq : In q (keys (all_pages c))).
  { apply get_In_keys in G. now rewrite keys_map_keys in G. }
  rewrite (get_map_keys (model_value c links d)) in G by assumption.
  injection G as <-.
  assert (HN : (0 < length (all_pages c))%nat).
  { rewrite <- (length_keys (all_pages c)).
    destruct (keys (all_pages c)); [destruct Hq | simpl; lia]. }
  destruct (model_value_floor c links d q Hd HN) as [J F].
  split; [assumption|]. split; [assumption|].
  rewrite values_map_keys in Hs. rewrite <- Hs.
  apply sumQ_member; [|assumption].
  intros q' _. destruct (model_value_floor c links d q' Hd HN). lra.
Qed.

Lemma transition_model_full_support_witness :
  exists output,
    transition_model ex_c "a"%string (85 # 100) = Ok output
    /\ forall q v, get q output = Some v ->
         0 < (1 - (85 # 100)) / float_of_nat (length output)
         /\ (1 - (85 # 100)) / float_of_nat (length output) <= v
         /\ v <= 1.
Proof.
  apply (transition_model_full_support ex_c "a"%string (85 # 100)).
  - reflexivity.
  - simpl. tauto.
  - split; reflexivity.
Defined.

Lemma count_le_length samples name : (count samples name <= length samples)%nat.
Proof.
  unfold count. induction samples as [|s ss IH]; simpl; [lia|].
  destruct (string_dec s name); lia.
Qed.

(** X4. For a non-empty self-contained corpus and [n >= 1], every value of
    the mapping [sample_pagerank] returns lies in [0, 1]. *)
Theorem sample_pagerank_values_in_unit (c : corpus) (d : Q) (n : Z) (g : rng) :
  well_formed c = true -> nonempty c = true -> self_contained c = true ->
  (1 <= n)%Z ->
  exists output g',
    sample_pagerank c d n g = Ok (output, g')
    /\ forall name v, get name output = Some v -> 0 <= v <= 1.
Proof.
  intros WF NE SC Hn.
  destruct (sample_pagerank_ok c d n g WF NE SC) as (samples & g' & _ & L & _ & R);
    [lia|].
  eexists. exists g'. split; [exact R|]. intros name v G.
  assert (Hname : In name (keys c)).
  { apply get_In_keys in G. now rewrite keys_map_keys in G. }
  rewrite (get_map_keys
             (fun name => float_of_nat (count samples name) / inject_Z n))
    in G by assumption.
  injection G as <-.
  pose proof (count_le_length samples name) as B. rewrite L in B.
  assert (Hn' : 0 < inject_Z n) by (unfold Qlt; simpl; lia).
  assert (Hc : float_of_nat (count samples name) <= inject_Z n).
  { unfold float_of_nat. rewrite <- Zle_Qle. lia. }
  split.
  - apply Qdiv_nonneg; [apply float_of_nat_nonneg | lra].
  - apply Qle_shift_div_r; lra.
Qed.

Lemma sample_pagerank_values_in_unit_witness :
  exists output g',
    sample_pagerank ex_c (85 # 100) 4 ex_rng = Ok (output, g')
    /\ forall name v, get name output = Some v -> 0 <= v <= 1.
Proof.
  apply (sample_pagerank_values_in_unit ex_c (85 # 100) 4 ex_rng).
  - reflexivity.
  - reflexivity.
  - reflexivity.
  - lia.
Defined.



(** X6. The reverse index [iterate_pagerank] builds of a self-contained
    corpus is its transpose: it has the keys of the corpus, in the same
    order, and the set of a page holds, once each, exactly the pages that
    link to it. *)
Theorem reverse_corpus_transpose (c : corpus) :
  well_formed c = true -> self_contained c = true ->
  exists reverse,
    reverse_corpus c = Ok reverse
    /\ keys reverse = keys c
    /\ forall p, In p (keys c) ->
         exists sources,
           get p reverse = Some sources /\ NoDup sources
           /\ forall q, In q sources
                        <-> exists links, get q c = Some links /\ In p links.
Proof.
  intros WF SC. destruct (reverse_corpus_ok c WF SC) as (reverse & E & Hk & Hget).
  exists reverse. split; [assumption|]. split; [assumption|].
  intros p Hp. destruct (Hget p Hp) as (s & Es & NDs & Hs).
  exists s. split; [assumption|]. split; [assumption|].
  intros q. rewrite Hs. unfold out_neighbors. split.
  - destruct (get q c) as [links|]; [|intros []]. intros H. now exists links.
  - intros (links & -> & H). assumption.
Qed.

Lemma reverse_corpus_transpose_witness :
  exists reverse,
    reverse_corpus ex_c = Ok reverse
    /\ keys reverse = keys ex_c
    /\ forall p, In p (keys ex_c) ->
         exists sources,
           get p reverse = Some sources /\ NoDup sources
           /\ forall q, In q sources
                        <-> exists links, get q ex_c = Some links /\ In p links.
Proof.
  apply (reverse_corpus_transpose ex_c).
  - reflexivity.
  - reflexivity.
Defined.

(** X7. On a self-contained corpus with [0 < d < 1], [iterate_pagerank]
    raises [ZeroDivisionError] exactly when the corpus is empty: the first
    pass of its loop then divides by the sum of no ranks. *)
Theorem iterate_pagerank_empty_corpus (c : corpus) (d : Q) (fuel : nat) :
  well_formed c = true -> self_contained c = true -> 0 < d < 1 ->
  iterate_pagerank c d (S fuel) = Some (Raise ZeroDivisionError)
  <-> c = [].
Proof.
  intros WF SC Hd. split.
  - intros E. destruct c as [|item c]; [reflexivity|].
    assert (NE : nonempty (item :: c) = true) by reflexivity.
    destruct (iterate_pagerank_unfold (item :: c) d (S fuel) WF NE SC)
      as (reverse & _ & Inv & U).
    pose proof (iterate_loop_sound (item :: c) d reverse WF NE Hd Inv (S fuel) _
                  (initial_ranks_positive _ NE)) as H.
    rewrite <- U, E in H. destruct H.
  - intros ->. reflexivity.
Qed.

Lemma iterate_pagerank_empty_corpus_witness :
  iterate_pagerank [] (85 # 100) 1 = Some (Raise ZeroDivisionError)
  <-> ([] : corpus) = [].
Proof.
  apply (iterate_pagerank_empty_corpus [] (85 # 100) 0).
  - reflexivity.
  - reflexivity.
  - split; reflexivity.
Defined.

(** X8. No page is ranked 0: on a non-empty self-contained corpus with
    [0 < d < 1] every value of the mapping [iterate_pagerank] returns is
    strictly positive. *)
Theorem iterate_pagerank_positive (c : corpus) (d : Q) (fuel : nat)
    (ranks : dict Q) :
  well_formed c = true -> nonempty c = true -> self_contained c = true ->
  0 < d < 1 ->
  iterate_pagerank c d fuel = Some (Ok ranks) ->
  forall p, In p (keys c) -> exists v, get p ranks = Some v /\ 0 < v.
Proof.
  intros WF NE SC Hd E p Hp.
  destruct (iterate_pagerank_unfold c d fuel WF NE SC) as (reverse & _ & Inv & U).
  pose proof (iterate_loop_sound c d reverse WF NE Hd Inv fuel _
                (initial_ranks_positive c NE)) as H.
  rewrite <- U, E in H. destruct H as ([Hk Hpos] & _ & _).
  exists (rank_of ranks p). split; [|now apply Hpos].
  apply rank_of_get. now rewrite Hk.
Qed.

Lemma iterate_pagerank_positive_witness :
  exists v,
    get "b"%string
      [("a"%string, 32000000000000 # 64000000000000);
       ("b"%string, 32000000000000 # 64000000000000)] = Some v
    /\ 0 < v.
Proof.
  apply (iterate_pagerank_positive ex_pair (85 # 100) 1).
  - reflexivity.
  - reflexivity.
  - reflexivity.
  - split; reflexivity.
  - reflexivity.
  - simpl. right. left. reflexivity.
Defined.

(** ** A link to a page that is not a key *)

Lemma for_each_app {A S : Type} (xs ys : list A) (body : A -> S -> res S) s :
  for_each (xs ++ ys) body s
  = (s' <- for_each xs body s ;; for_each ys body s').
Proof.
  revert s. induction xs as [|x xs IH]; intros s; simpl; [reflexivity|].
  destruct (body x s); simpl; [apply IH | reflexivity].
Qed.

Lemma forallb_false_split {A : Type} (f : A -> bool) (l : list A) :
  forallb f l = false ->
  exists l1 x l2, l = l1 ++ x :: l2 /\ forallb f l1 = true /\ f x = false.
Proof.
  induction l as [|a l IH]; simpl; [discriminate|].
  destruct (f a) eqn:Fa; simpl.
  - intros H. destruct (IH H) as (l1 & x & l2 & -> & H1 & Hx).
    exists (a :: l1), x, l2. simpl. rewrite Fa. now repeat split.
  - intros _. exists [], a, l. now repeat split.
Qed.

Lemma reverse_links_raises c key li seen reverse :
  reverse_inv c seen reverse ->
  forallb (fun link => contains link c) li = false ->
  for_each li
    (fun i reverse =>
       s <- getitem i reverse ;;
       if negb (set_mem key s)
       then Ok (set_item i (set_add key s) reverse)
       else Ok reverse)
    reverse
  = Raise KeyError.
Proof.
  intros Inv H.
  destruct (forallb_false_split _ _ H) as (l1 & x & l2 & -> & H1 & Hx).
  rewrite for_each_app.
  destruct (reverse_links c key l1 seen reverse Inv) as (reverse' & -> & Hk & _).
  { rewrite forallb_forall in H1. intros i Hi. apply contains_In. now apply H1. }
  cbn [bind for_each]. unfold getitem.
  assert (G : get x reverse' = None).
  { apply get_None. rewrite Hk. intros Hin. apply contains_In in Hin.
    congruence. }
  now rewrite G.
Qed.

Lemma reverse_items_raises c (items : list (page * pyset)) seen reverse :
  reverse_inv c seen reverse ->
  forallb (fun item => forallb (fun link => contains link c) (snd item)) items
  = false ->
  for_each items
    (fun (item : page * pyset) reverse =>
       for_each (snd item)
         (fun i reverse =>
            s <- getitem i reverse ;;
            if negb (set_mem (fst item) s)
            then Ok (set_item i (set_add (fst item) s) reverse)
            else Ok reverse)
         reverse)
    reverse
  = Raise KeyError.
Proof.
  intros Inv H.
  destruct (forallb_false_split _ _ H) as (i1 & item & i2 & -> & H1 & Hx).
  rewrite for_each_app.
  destruct (reverse_items c i1 seen reverse Inv) as (reverse' & -> & Inv').
  { rewrite forallb_forall in H1. intros it Hit i Hi.
    specialize (H1 it Hit). rewrite forallb_forall in H1.
    apply contains_In. now apply H1. }
  cbn [bind for_each].
  now rewrite (reverse_links_raises c (fst item) (snd item) _ reverse' Inv' Hx).
Qed.

(** X9. On a corpus with a link to a page that is not a key,
    [iterate_pagerank] raises [KeyError] while it builds the reverse
    index, before any pass of its loop. *)
Theorem iterate_pagerank_unknown_link (c : corpus) (d : Q) (fuel : nat) :
  well_formed c = true -> self_contained c = false ->
  iterate_pagerank c d fuel = Some (Raise KeyError).
Proof.
  intros WF SC.
  assert (NE : nonempty c = true) by (destruct c; [discriminate | reflexivity]).
  unfold iterate_pagerank. rewrite initial_ranks_ok by assumption.
  unfold reverse_corpus.
  rewrite (reverse_init (keys c) []);
    [|now apply well_formed_keys | intros k _ []].
  cbn [app].
  rewrite (reverse_items_raises c c (fun _ _ => False)); [reflexivity | | exact SC].
  split; [apply keys_map_keys|].
  intros i Hi. exists []. split; [|split; [constructor | simpl; tauto]].
  now apply (get_map_keys (fun _ => @nil page)).
Qed.

Lemma iterate_pagerank_unknown_link_witness :
  iterate_pagerank [("a"%string, ["b"%string; "z"%string]); ("b"%string, [])]
    (85 # 100) 3
  = Some (Raise KeyError).
Proof.
  apply (iterate_pagerank_unknown_link
           [("a"%string, ["b"%string; "z"%string]); ("b"%string, [])]
           (85 # 100) 3).
  - reflexivity.
  - reflexivity.
Defined.

(** ** The sum of a pass before normalisation *)









(** * The corpus loader *)

Lemma set_add_fold l : forall acc,
  NoDup acc ->
  NoDup (fold_left (fun s x => set_add x s) l acc)
  /\ forall x, In x (fold_left (fun s x => set_add x s) l acc)
               <-> In x l \/ In x acc.
Proof.
  induction l as [|a l IH]; intros acc ND; simpl.
  - split; [assumption | tauto].
  - assert (ND' : NoDup (set_add a acc)).
    { unfold set_add. destruct (set_mem a acc) eqn:M; [assumption|].
      apply set_mem_false in M.
      apply NoDup_app; [assumption | repeat constructor; simpl; tauto |].
      intros x Hx [<-|[]]. contradiction. }
    destruct (IH _ ND') as [A B]. split; [assumption|].
    intros x. rewrite B. unfold set_add.
    destruct (set_mem a acc) eqn:M.
    + apply set_mem_In in M. split; [tauto|].
      intros [[<-|H]|H]; tauto.
    + rewrite in_app_iff. simpl. intuition.
Qed.

Lemma set_of_list_facts l :
  NoDup (set_of_list l) /\ forall x, In x (set_of_list l) <-> In x l.
Proof.
  destruct (set_add_fold l [] (NoDup_nil _)) as [A B].
  split; [assumption|]. intros x. unfold set_of_list. rewrite B. simpl. tauto.
Qed.

Lemma set_remove_In x s y : In y (set_remove x s) <-> In y s /\ y <> x.
Proof.
  unfold set_remove. rewrite filter_In, negb_true_iff.
  destruct (String.eqb_spec y x); split; intros [H1 H2]; split;
    congruence || assumption.
Qed.

Lemma contains_keys_eq {V W : Type} (d : dict V) (d' : dict W) k :
  keys d = keys d' -> contains k d = contains k d'.
Proof.
  intros H. destruct (contains k d) eqn:A, (contains k d') eqn:B;
    try reflexivity.
  - apply contains_In in A. rewrite H in A. apply contains_In in A. congruence.
  - apply contains_In in B. rewrite <- H in B. apply contains_In in B.
    congruence.
Qed.

Lemma contains_set_mem {V : Type} (d : dict V) k :
  contains k d = set_mem k (keys d).
Proof.
  destruct (contains k d) eqn:A, (set_mem k (keys d)) eqn:B; try reflexivity.
  - apply contains_In, set_mem_In in A. congruence.
  - apply set_mem_In, contains_In in B. congruence.
Qed.

Lemma set_item_map_gen {V : Type} k (w : V) (d : dict V) :
  NoDup (keys d) -> In k (keys d) ->
  set_item k w d
  = map (fun kv => if String.eqb (fst kv) k then (fst kv, w) else kv) d.
Proof.
  apply set_item_map.
Qed.

(** The second loop of [crawl], entry by entry. *)
Lemma keep_known_entries (pages0 : corpus) ks : forall d : corpus,
  NoDup ks -> NoDup (keys d) -> incl ks (keys d) -> keys d = keys pages0 ->
  for_each ks
    (fun filename pages =>
       links <- getitem filename pages ;;
       Ok (set_item filename
             (filter (fun link => contains link pages) links) pages))
    d
  = Ok (map (fun kv =>
               (fst kv,
                if set_mem (fst kv) ks
                then filter (fun link => contains link pages0) (snd kv)
                else snd kv)) d).
Proof.
  induction ks as [|k ks IH]; intros d NDl NDo Hin Hk; simpl.
  - f_equal. rewrite <- (map_id d) at 1. apply map_ext. now intros [k v].
  - inversion NDl; subst.
    assert (Hkd : In k (keys d)) by (apply Hin; now left).
    destruct (In_keys_get _ _ Hkd) as [v Hv].
    unfold getitem at 1. rewrite Hv. cbn [bind].
    assert (F : filter (fun link => contains link d) v
                = filter (fun link => contains link pages0) v).
    { apply filter_ext. intros link. now apply contains_keys_eq. }
    rewrite F, IH.
    + f_equal. rewrite set_item_map by assumption. rewrite map_map.
      apply map_ext_in. intros [k1 v1] I. simpl.
      destruct (String.eqb_spec k1 k) as [->|N]; simpl.
      * apply (In_get _ _ _ NDo) in I. assert (v1 = v) by congruence; subst.
        apply set_mem_false in H1. now rewrite H1.
      * reflexivity.
    + assumption.
    + now rewrite keys_set_item_present.
    + rewrite keys_set_item_present by assumption.
      intros x Hx. apply Hin. now right.
    + now rewrite keys_set_item_present.
Qed.

Lemma keep_known_ok (pages : corpus) :
  NoDup (keys pages) ->
  keep_known pages
  = Ok (map (fun kv =>
               (fst kv, filter (fun link => set_mem link (keys pages)) (snd kv)))
          pages).
Proof.
  intros ND. unfold keep_known.
  rewrite (keep_known_entries pages (keys pages) pages)
    by (try assumption; try reflexivity; apply incl_refl).
  f_equal. apply map_ext_in. intros [k v] I. simpl.
  assert (M : set_mem k (keys pages) = true).
  { apply set_mem_In. change k with (fst (k, v)). now apply in_map. }
  rewrite M. f_equal. apply filter_ext. intros link. apply contains_set_mem.
Qed.

(** [keep_known] cannot raise: the keys it looks up are those it iterates
    over. *)
Lemma keep_known_returns (pages : corpus) :
  exists pages', keep_known pages = Ok pages'.
Proof.
  unfold keep_known.
  assert (G : forall ks (d : corpus),
    incl ks (keys d) ->
    exists d',
      for_each ks
        (fun filename pages =>
           links <- getitem filename pages ;;
           Ok (set_item filename
                 (filter (fun link => contains link pages) links) pages))
        d = Ok d').
  { induction ks as [|k ks IH]; intros d Hin; simpl; [eauto|].
    assert (Hk : In k (keys d)) by (apply Hin; now left).
    destruct (In_keys_get _ _ Hk) as [v Hv].
    unfold getitem at 1. rewrite Hv. cbn [bind]. apply IH.
    rewrite keys_set_item_present by assumption.
    intros x Hx. apply Hin. now right. }
  apply G, incl_refl.
Qed.

Section LoaderFacts.
Variable listdir : string -> option (list string).
Variable read_file : string -> string -> option string.
Variable findall : string -> list string.

Lemma links_of_facts directory f :
  NoDup (links_of read_file findall directory f)
  /\ forall l, In l (links_of read_file findall directory f)
               <-> (exists contents,
                      read_file directory f = Some contents
                      /\ In l (findall contents))
                   /\ l <> f.
Proof.
  unfold links_of. destruct (read_file directory f) as [contents|].
  - destruct (set_of_list_facts (findall contents)) as [ND Hin]. split.
    + unfold set_remove. now apply NoDup_filter.
    + intros l. rewrite set_remove_In, Hin. split.
      * intros [H1 H2]. split; [now exists contents | assumption].
      * intros [(contents' & [= <-] & H1) H2]. now split.
  - split; [constructor|]. intros l. split; [intros [] |].
    intros [(contents & [=] & _) _].
Qed.

Lemma extract_links_ok directory names : forall acc,
  NoDup names ->
  (forall f, In f names -> is_html f = true -> ~ In f (keys acc)) ->
  readable read_file directory names = true ->
  extract_links read_file findall directory names acc
  = Some (acc ++ map (fun f => (f, links_of read_file findall directory f))
                   (filter is_html names)).
Proof.
  induction names as [|f names IH]; intros acc ND Hfresh Hread; simpl.
  - now rewrite app_nil_r.
  - inversion ND; subst. simpl in Hread. apply andb_true_iff in Hread.
    destruct Hread as [Hf Hread]. destruct (is_html f) eqn:Hh; cbn [negb].
    + simpl in Hf.
      destruct (read_file directory f) as [contents|] eqn:Er; [|discriminate].
      assert (EL : links_of read_file findall directory f
                   = set_remove f (set_of_list (findall contents)))
        by (unfold links_of; now rewrite Er).
      rewrite set_item_absent_app by (apply Hfresh; [now left | assumption]).
      rewrite IH;
        [rewrite <- app_assoc; simpl; now rewrite EL | assumption | | assumption].
      intros f' Hf' Hh'. unfold keys. rewrite map_app, in_app_iff. simpl.
      intros [I|[<-|[]]]; [|contradiction].
      apply (Hfresh f'); [now right | assumption | assumption].
    + apply IH; [assumption | | assumption].
      intros f' Hf' Hh'. apply Hfresh; [now right | assumption].
Qed.

Lemma extract_links_fails directory names : forall acc,
  extract_links read_file findall directory names acc = None
  <-> readable read_file directory names = false.
Proof.
  induction names as [|f names IH]; intros acc; simpl.
  - split; discriminate.
  - destruct (is_html f); cbn [negb orb andb]; [|apply IH].
    destruct (read_file directory f); cbn [andb]; [apply IH | tauto].
Qed.

Lemma distinct_filter (P : string -> bool) names :
  NoDup names -> NoDup (filter P names).
Proof.
  apply NoDup_filter.
Qed.

(** What [crawl] returns, in closed form. *)
Lemma crawl_closed directory names :
  listdir directory = Some names -> distinct names = true ->
  readable read_file directory names = true ->
  crawl listdir read_file findall directory
  = Returns
      (map (fun f =>
              (f, filter (fun link => set_mem link (filter is_html names))
                    (links_of read_file findall directory f)))
         (filter is_html names)).
Proof.
  intros L ND R. apply distinct_NoDup in ND.
  unfold crawl. rewrite L.
  rewrite (extract_links_ok directory names [] ND) by (try assumption; tauto).
  cbn [app]. rewrite keep_known_ok.
  - rewrite keys_map_keys, map_map. reflexivity.
  - rewrite keys_map_keys. now apply NoDup_filter.
Qed.

(** X11. For a directory whose HTML files can be read, [crawl] returns a
    corpus whose keys are the names that end in [.html], in the order of
    the listing, and in which a page links to exactly the targets found in
    its file that are other HTML files of the directory. *)
Theorem crawl_corpus (directory : string) (names : list string) :
  listdir directory = Some names -> distinct names = true ->
  readable read_file directory names = true ->
  exists c,
    crawl listdir read_file findall directory = Returns c
    /\ keys c = filter is_html names
    /\ forall f, In f (keys c) ->
         exists links,
           get f c = Some links
           /\ forall l, In l links
                <-> (exists contents,
                       read_file directory f = Some contents
                       /\ In l (findall contents))
                    /\ l <> f /\ In l names /\ is_html l = true.
Proof.
  intros L ND R. eexists. split; [apply (crawl_closed directory names L ND R)|].
  rewrite keys_map_keys. split; [reflexivity|]. intros f Hf.
  eexists. split.
  { apply (get_map_keys
             (fun f => filter (fun link => set_mem link (filter is_html names))
                         (links_of read_file findall directory f))). assumption. }
  intros l. rewrite filter_In, set_mem_In, filter_In.
  destruct (links_of_facts directory f) as [_ H]. rewrite H. tauto.
Qed.


Lemma crawl_ready_closed directory names :
  distinct names = true ->
  let c := map (fun f =>
                  (f, filter (fun link => set_mem link (filter is_html names))
                        (links_of read_file findall directory f)))
             (filter is_html names) in
  well_formed c = true /\ self_contained c = true
  /\ forall f links, get f c = Some links -> ~ In f links.
Proof.
  intros ND c. apply distinct_NoDup in ND.
  assert (Hk : keys c = filter is_html names) by apply keys_map_keys.
  assert (Hitem : forall item, In item c ->
            snd item = filter (fun link => set_mem link (filter is_html names))
                         (links_of read_file findall directory (fst item))).
  { intros item I. apply in_map_iff in I. destruct I as (f & <- & _).
    reflexivity. }
  split; [|split].
  - unfold well_formed. apply andb_true_iff. split.
    + apply distinct_NoDup. rewrite Hk. now apply NoDup_filter.
    + apply forallb_forall. intros item I. apply distinct_NoDup.
      rewrite (Hitem item I). apply NoDup_filter.
      apply (links_of_facts directory (fst item)).
  - unfold self_contained. apply forallb_forall. intros item I.
    apply forallb_forall. intros link Hl. rewrite (Hitem item I) in Hl.
    apply filter_In in Hl. destruct Hl as [_ Hl].
    apply contains_In. rewrite Hk. now apply set_mem_In.
  - intros f links G Hin. apply get_Some_In in G.
    pose proof (Hitem _ G) as E. simpl in E. subst links.
    apply filter_In in Hin. destruct Hin as [Hin _].
    apply (links_of_facts directory f) in Hin. now destruct Hin.
Qed.

(** X12. What [crawl] returns is an input the engine accepts: a dict of
    sets in which every link leads to a key, and no page links to
    itself. *)
Theorem crawl_ready (directory : string) (names : list string) :
  listdir directory = Some names -> distinct names = true ->
  readable read_file directory names = true ->
  exists c,
    crawl listdir read_file findall directory = Returns c
    /\ well_formed c = true /\ self_contained c = true
    /\ forall f links, get f c = Some links -> ~ In f links.
Proof.
  intros L ND R. eexists.
  split; [apply (crawl_closed directory names L ND R)|].
  now apply crawl_ready_closed.
Qed.

Lemma extract_links_agree (read_file' : string -> string -> option string)
    directory names : forall acc,
  (forall f, In f names -> is_html f = true ->
             read_file' directory f = read_file directory f) ->
  extract_links read_file' findall directory names acc
  = extract_links read_file findall directory names acc.
Proof.
  induction names as [|f names IH]; intros acc H; simpl; [reflexivity|].
  destruct (is_html f) eqn:Hh; cbn [negb].
  - rewrite (H f) by (assumption || now left).
    destruct (read_file directory f); [|reflexivity].
    apply IH. intros f' Hf'. apply H. now right.
  - apply IH. intros f' Hf'. apply H. now right.
Qed.

(** X13. [crawl] opens only the files whose name ends in [.html]: what
    the other entries of the directory hold, or whether they can be read
    at all, does not change its result. *)
Theorem crawl_reads_html_only
    (read_file' : string -> string -> option string)
    (directory : string) (names : list string) :
  listdir directory = Some names ->
  (forall f, In f names -> is_html f = true ->
             read_file' directory f = read_file directory f) ->
  crawl listdir read_file' findall directory
  = crawl listdir read_file findall directory.
Proof.
  intros L H. unfold crawl. rewrite L.
  now rewrite (extract_links_agree read_file' directory names []).
Qed.

(** X14. [crawl] fails exactly when the directory cannot be listed or one
    of its HTML files cannot be read; it raises no [KeyError] of its own,
    although it indexes the dict it builds. *)
Theorem crawl_failure (directory : string) :
  (crawl listdir read_file findall directory = IOFails
   <-> listdir directory = None
       \/ exists names, listdir directory = Some names
                        /\ readable read_file directory names = false)
  /\ forall e, crawl listdir read_file findall directory <> Fails e.
Proof.
  unfold crawl. destruct (listdir directory) as [names|].
  - destruct (extract_links read_file findall directory names []) as [pages|]
      eqn:E.
    + destruct (keep_known_returns pages) as [pages' ->]. split.
      * split; [discriminate|]. intros [H|(names' & [= <-] & H)];
          [discriminate|].
        apply (proj2 (extract_links_fails directory names [])) in H.
        congruence.
      * discriminate.
    + split; [|discriminate]. split; [|reflexivity]. intros _. right.
      exists names. split; [reflexivity|].
      now apply (proj1 (extract_links_fails directory names [])).
  - split; [|discriminate]. split; [now left | reflexivity].
Qed.

(** ** [main] *)

Variable format4 : Q -> string.

Lemma insert_sorted_perm x l : Permutation (x :: l) (insert_sorted x l).
Proof.
  induction l as [|y l IH]; simpl; [reflexivity|].
  destruct (String.leb x y); [reflexivity|].
  rewrite perm_swap. now apply perm_skip.
Qed.

Lemma sorted_perm l : Permutation l (sorted l).
Proof.
  induction l as [|x l IH]; simpl; [reflexivity|].
  rewrite <- insert_sorted_perm. now apply perm_skip.
Qed.

Lemma insert_sorted_Sorted x l :
  Sorted (fun a b => String.leb a b = true) l ->
  Sorted (fun a b => String.leb a b = true) (insert_sorted x l).
Proof.
  induction 1 as [|y l Hs IH Hd]; simpl.
  - repeat constructor.
  - destruct (String.leb x y) eqn:E.
    + constructor; [now constructor | now constructor].
    + assert (Hyx : String.leb y x = true)
        by (destruct (String.leb_total x y); congruence).
      constructor; [assumption|].
      destruct l as [|z l]; simpl.
      * now constructor.
      * inversion Hd; subst. destruct (String.leb x z); now constructor.
Qed.

Lemma sorted_Sorted l : Sorted (fun a b => String.leb a b = true) (sorted l).
Proof.
  induction l as [|x l IH]; simpl; [constructor|].
  now apply insert_sorted_Sorted.
Qed.

Lemma print_ranks_ok ranks : forall pages stdout,
  incl pages (keys ranks) ->
  print_ranks format4 pages ranks stdout
  = (stdout ++ map (fun p => rank_line format4 p (rank_of ranks p)) pages,
     Ok tt).
Proof.
  induction pages as [|p pages IH]; intros stdout H; simpl.
  - now rewrite app_nil_r.
  - rewrite getitem_rank_of by (apply H; now left).
    rewrite IH by (intros q Hq; apply H; now right).
    now rewrite <- app_assoc.
Qed.

Lemma print_sorted_ok (ranks : dict Q) stdout :
  print_ranks format4 (sorted (keys ranks)) ranks stdout
  = (stdout ++ map (fun p => rank_line format4 p (rank_of ranks p))
                 (sorted (keys ranks)),
     Ok tt).
Proof.
  apply print_ranks_ok. intros p Hp.
  apply Permutation_in with (sorted (keys ranks));
    [symmetry; apply sorted_perm | assumption].
Qed.

(** X15. The program exits with the usage message exactly when it is not
    given one argument; it then prints nothing. *)
Theorem main_usage (argv : list string) (g : rng) (fuel : nat) :
  (length argv <> 2%nat ->
   main listdir read_file findall format4 argv g fuel
   = ([], SysExit "Usage: python pagerank.py corpus"))
  /\ (length argv = 2%nat ->
      forall message,
        snd (main listdir read_file findall format4 argv g fuel)
        <> SysExit message).
Proof.
  unfold main. split.
  - intros H. apply Nat.eqb_neq in H. now rewrite H.
  - intros H message. rewrite H. cbn [Nat.eqb negb].
    destruct (crawl listdir read_file findall (nth 1 argv ""%string))
      as [c|e|]; try discriminate.
    destruct (sample_pagerank c DAMPING SAMPLES g) as [[ranks g']|e];
      try discriminate.
    rewrite print_sorted_ok.
    destruct (iterate_pagerank c DAMPING fuel) as [[ranks'|e]|];
      try discriminate.
    rewrite print_sorted_ok. discriminate.
Qed.

Lemma extract_links_skips directory names : forall acc,
  existsb is_html names = false ->
  extract_links read_file findall directory names acc = Some acc.
Proof.
  induction names as [|f names IH]; intros acc H; simpl; [reflexivity|].
  simpl in H. apply orb_false_iff in H. destruct H as [Hf H].
  rewrite Hf. cbn [negb]. now apply IH.
Qed.

(** X16. On a directory without any [.html] file the program crashes: the
    corpus is empty, the sampler raises [ValueError], and nothing has been
    printed. *)
Theorem main_no_pages (argv : list string) (names : list string) (g : rng)
    (fuel : nat) :
  length argv = 2%nat -> listdir (nth 1 argv ""%string) = Some names ->
  existsb is_html names = false ->
  crawl listdir read_file findall (nth 1 argv ""%string) = Returns []
  /\ main listdir read_file findall format4 argv g fuel
     = ([], Uncaught ValueError).
Proof.
  intros H L N.
  assert (C : crawl listdir read_file findall (nth 1 argv ""%string)
              = Returns []).
  { unfold crawl. rewrite L. now rewrite extract_links_skips. }
  split; [assumption|]. unfold main. rewrite H, C. reflexivity.
Qed.

Lemma iterate_pagerank_keys c d fuel ranks :
  well_formed c = true -> nonempty c = true -> self_contained c = true ->
  0 < d < 1 ->
  iterate_pagerank c d fuel = Some (Ok ranks) -> keys ranks = keys c.
Proof.
  intros WF NE SC Hd E.
  destruct (iterate_pagerank_unfold c d fuel WF NE SC) as (reverse & _ & Inv & U).
  pose proof (iterate_loop_sound c d reverse WF NE Hd Inv fuel _
                (initial_ranks_positive c NE)) as H.
  rewrite <- U, E in H. now destruct H as ([Hk _] & _).
Qed.

(** X17. On a directory with at least one [.html] file, all of them
    readable, the program runs to its end: it prints the heading of the
    sampling, one line per page in ascending order of the names, the
    heading of the iteration, and again one line per page in ascending
    order. *)
Theorem main_prints (argv : list string) (names : list string) (g : rng) :
  length argv = 2%nat -> listdir (nth 1 argv ""%string) = Some names ->
  distinct names = true ->
  readable read_file (nth 1 argv ""%string) names = true ->
  existsb is_html names = true ->
  exists fuel c sampled g' iterated,
    crawl listdir read_file findall (nth 1 argv ""%string) = Returns c
    /\ sample_pagerank c DAMPING SAMPLES g = Ok (sampled, g')
    /\ iterate_pagerank c DAMPING fuel = Some (Ok iterated)
    /\ main listdir read_file findall format4 argv g fuel
       = ("PageRank Results from Sampling (n = 10000)"%string
            :: map (fun p => rank_line format4 p (rank_of sampled p))
                 (sorted (keys c))
          ++ "PageRank Results from Iteration"%string
            :: map (fun p => rank_line format4 p (rank_of iterated p))
                 (sorted (keys c)),
          Normal)
    /\ Sorted (fun a b => String.leb a b = true) (sorted (keys c))
    /\ Permutation (keys c) (sorted (keys c)).
Proof.
  intros H L ND R NE.
  pose proof (crawl_closed _ names L ND R) as C.
  destruct (crawl_ready_closed (nth 1 argv ""%string) names ND)
    as (WF & SC & _).
  set (c := map (fun f =>
                   (f, filter (fun link => set_mem link (filter is_html names))
                         (links_of read_file findall (nth 1 argv ""%string) f)))
              (filter is_html names)) in *.
  assert (NEc : nonempty c = true).
  { unfold nonempty, c. rewrite length_map.
    apply existsb_exists in NE. destruct NE as (f & Hf & Hh).
    assert (I : In f (filter is_html names)) by (apply filter_In; now split).
    destruct (filter is_html names); [destruct I | reflexivity]. }
  assert (Hd : 0 < DAMPING < 1) by (split; reflexivity).
  destruct (sample_pagerank_ok c DAMPING SAMPLES g WF NEc SC)
    as (samples & g' & _ & _ & _ & Es); [discriminate|].
  destruct (iterate_pagerank_terminates c DAMPING WF NEc SC Hd)
    as (fuel & iterated & Ei).
  pose proof (iterate_pagerank_keys c DAMPING fuel iterated WF NEc SC Hd Ei)
    as Hki.
  eexists fuel, c, _, g', iterated.
  split; [exact C|]. split; [exact Es|]. split; [exact Ei|].
  split; [|split; [apply sorted_Sorted | apply sorted_perm]].
  unfold main. rewrite H, C, Es. cbn [Nat.eqb negb].
  rewrite print_sorted_ok, Ei, print_sorted_ok.
  rewrite keys_map_keys, Hki. cbn [app]. now rewrite <- app_assoc.
Qed.
End LoaderFacts.
Lemma crawl_corpus_witness :
  exists c,
    crawl ex_listdir ex_read_file ex_findall "corpus0" = Returns c
    /\ keys c
       = filter is_html ["1.html"; "notes.txt"; "2.html"; "3.html"]%string
    /\ forall f, In f (keys c) ->
         exists links,
           get f c = Some links
           /\ forall l, In l links
                <-> (exists contents,
                       ex_read_file "corpus0" f = Some contents
                       /\ In l (ex_findall contents))
                    /\ l <> f
                    /\ In l ["1.html"; "notes.txt"; "2.html"; "3.html"]%string
                    /\ is_html l = true.
Proof.
  apply (crawl_corpus ex_listdir ex_read_file ex_findall "corpus0"
           ["1.html"; "notes.txt"; "2.html"; "3.html"]%string).
  - reflexivity.
  - reflexivity.
  - reflexivity.
Defined.

Lemma crawl_ready_witness :
  exists c,
    crawl ex_listdir ex_read_file ex_findall "corpus0" = Returns c
    /\ well_formed c = true /\ self_contained c = true
    /\ forall f links, get f c = Some links -> ~ In f links.
Proof.
  apply (crawl_ready ex_listdir ex_read_file ex_findall "corpus0"
           ["1.html"; "notes.txt"; "2.html"; "3.html"]%string).
  - reflexivity.
  - reflexivity.
  - reflexivity.
Defined.

Lemma crawl_reads_html_only_witness :
  crawl ex_listdir
    (fun directory f =>
       if is_html f then ex_read_file directory f else Some "junk"%string)
    ex_findall "corpus0"
  = crawl ex_listdir ex_read_file ex_findall "corpus0".
Proof.
  apply (crawl_reads_html_only ex_listdir ex_read_file ex_findall
           (fun directory f =>
              if is_html f then ex_read_file directory f
              else Some "junk"%string)
           "corpus0" ["1.html"; "notes.txt"; "2.html"; "3.html"]%string).
  - reflexivity.
  - intros f _ H. now rewrite H.
Defined.

Lemma main_usage_witness :
  main ex_listdir ex_read_file ex_findall ex_format4
    ["pagerank.py"%string] ex_rng 1
  = ([], SysExit "Usage: python pagerank.py corpus")
  /\ forall message,
       snd (main ex_listdir ex_read_file ex_findall ex_format4
              ["pagerank.py"; "corpus0"]%string ex_rng 1)
       <> SysExit message.
Proof.
  split.
  - apply (main_usage ex_listdir ex_read_file ex_findall ex_format4
             ["pagerank.py"%string] ex_rng 1).
    simpl. lia.
  - apply (main_usage ex_listdir ex_read_file ex_findall ex_format4
             ["pagerank.py"; "corpus0"]%string ex_rng 1).
    reflexivity.
Defined.

Lemma main_no_pages_witness :
  crawl ex_listdir ex_read_file ex_findall
    (nth 1 ["pagerank.py"; "empty"]%string ""%string)
  = Returns []
  /\ main ex_listdir ex_read_file ex_findall ex_format4
       ["pagerank.py"; "empty"]%string ex_rng 1
     = ([], Uncaught ValueError).
Proof.
  apply (main_no_pages ex_listdir ex_read_file ex_findall ex_format4
           ["pagerank.py"; "empty"]%string ["notes.txt"%string] ex_rng 1).
  - reflexivity.
  - reflexivity.
  - reflexivity.
Defined.

Lemma main_prints_witness :
  exists fuel c sampled g' iterated,
    crawl ex_listdir ex_read_file ex_findall
      (nth 1 ["pagerank.py"; "corpus0"]%string ""%string)
    = Returns c
    /\ sample_pagerank c DAMPING SAMPLES ex_rng = Ok (sampled, g')
    /\ iterate_pagerank c DAMPING fuel = Some (Ok iterated)
    /\ main ex_listdir ex_read_file ex_findall ex_format4
         ["pagerank.py"; "corpus0"]%string ex_rng fuel
       = ("PageRank Results from Sampling (n = 10000)"%string
            :: map (fun p => rank_line ex_format4 p (rank_of sampled p))
                 (sorted (keys c))
          ++ "PageRank Results from Iteration"%string
            :: map (fun p => rank_line ex_format4 p (rank_of iterated p))
                 (sorted (keys c)),
          Normal)
    /\ Sorted (fun a b => String.leb a b = true) (sorted (keys c))
    /\ Permutation (keys c) (sorted (keys c)).
Proof.
  apply (main_prints ex_listdir ex_read_file ex_findall ex_format4
           ["pagerank.py"; "corpus0"]%string
           ["1.html"; "notes.txt"; "2.html"; "3.html"]%string ex_rng).
  - reflexivity.
  - reflexivity.
  - reflexivity.
  - reflexivity.
  - reflexivity.
Defined.

(** ** File names *)

Lemma substring_all s : substring 0 (String.length s) s = s.
Proof.
  induction s as [|ch s IH]; simpl; [reflexivity | now rewrite IH].
Qed.

Lemma substring_suffix p q :
  substring (String.length p) (String.length q) (p ++ q)%string = q.
Proof.
  induction p as [|ch p IH]; simpl; [apply substring_all | exact IH].
Qed.

Lemma substring_split s : forall n,
  (n <= String.length s)%nat ->
  s = (substring 0 n s ++ substring n (String.length s - n) s)%string.
Proof.
  induction s as [|ch s IH]; intros [|n] H; simpl in *.
  - reflexivity.
  - lia.
  - now rewrite substring_all.
  - f_equal. apply IH. lia.
Qed.

Lemma string_length_app p q :
  String.length (p ++ q)%string = (String.length p + String.length q)%nat.
Proof.
  induction p as [|ch p IH]; simpl; [reflexivity | now rewrite IH].
Qed.

(** X18. The files [crawl] keeps are those whose name is some stem
    followed by [.html]; the stem may be empty. *)
Theorem is_html_iff (filename : string) :
  is_html filename = true
  <-> exists stem, filename = (stem ++ ".html")%string.
Proof.
  unfold is_html, endswith. rewrite andb_true_iff, Nat.leb_le, String.eqb_eq.
  split.
  - intros [L E].
    set (n := (String.length filename - String.length ".html")%nat) in *.
    exists (substring 0 n filename).
    assert (S : (n <= String.length filename)%nat) by (unfold n; lia).
    apply substring_split in S.
    replace (String.length filename - n)%nat
      with (String.length ".html") in S by (unfold n; lia).
    now rewrite E in S.
  - intros [stem ->]. rewrite string_length_app. split; [lia|].
    replace (String.length stem + String.length ".html"
             - String.length ".html")%nat
      with (String.length stem) by lia.
    apply substring_suffix.
Qed.
